

(** * A shallow embedding of the [osmem] allocator ([src/src/osmem.c])

    The allocator keeps its block headers in band.  The embedding keeps a
    header store (address to [block_meta]), a byte store for payloads, the
    process-wide [global_base] pointer and a small model of the kernel
    primitives the code calls ([sbrk], [mmap], [munmap], [sysconf]).

    Machine integers are [Z] with the wrap-around written out: [size_t] is
    taken modulo [2^64], [int] is the signed 32-bit reading.  Addresses are
    plain integers; [0] is [NULL].

    Scope of the memory model.  The header store agrees with the in-band
    layout as long as the 24 bytes of two headers never share an address,
    that is, as long as every block and every rest split off a block has
    room for its header; the [int] that holds the aligned size lets
    [os_malloc] leave this regime for sizes near a multiple of [2^32], and
    the statements below that describe the registry after a call keep to
    requests with an aligned total size from 24 to [2^31].  The byte store is
    total: [memset] and [memcpy] update it and cannot fault, whereas the
    process is killed when they touch memory past the break or outside a
    mapping.  What is proved of a call that reaches them is proved of the
    calls that return, or keeps to copies that stay inside the heap. *)

From stdpp Require Import gmap list strings.

From Stdlib Require Import ZArith Lia.

Local Open Scope Z_scope.

(** ** Machine arithmetic *)

Definition wrap64 (z : Z) : Z := z mod 2 ^ 64.

(** Conversion to [int] (32 bits, two's complement). *)
Definition to_int (z : Z) : Z :=
  let r := z mod 2 ^ 32 in
  if r <? 2 ^ 31 then r else r - 2 ^ 32.

(** Conversion to [intptr_t], the argument type of [sbrk]. *)
Definition to_intptr (z : Z) : Z :=
  let r := z mod 2 ^ 64 in
  if r <? 2 ^ 63 then r else r - 2 ^ 64.

(** ** [osmem.h] *)

Definition MMAP_THRESHOLD : Z := 131072.

Definition ALIGNMENT : Z := 8.

(** [#define ALIGN(size) (((size) + (ALIGNMENT-1)) & ~(ALIGNMENT-1))],
    evaluated at type [size_t]. *)
Definition ALIGN (size : Z) : Z :=
  Z.land (wrap64 (size + (ALIGNMENT - 1))) (wrap64 (Z.lnot (ALIGNMENT - 1))).

(** ** [helpers.h] *)

(** Modelled from the spec: [helpers.h] is not part of the sources.  The
    block status is one of three tags. *)
Inductive status_t : Type :=
| STATUS_FREE
| STATUS_ALLOC
| STATUS_MAPPED.

Definition status_eqb (a b : status_t) : bool :=
  match a, b with
  | STATUS_FREE, STATUS_FREE => true
  | STATUS_ALLOC, STATUS_ALLOC => true
  | STATUS_MAPPED, STATUS_MAPPED => true
  | _, _ => false
  end.

(** Modelled from the spec: the header carries [size], [status] and [next]
    (the fields [osmem.c] reads and writes). *)
Record block_meta : Type := mk_block_meta {
  bsize : Z;
  bstatus : status_t;
  bnext : Z;
}.

(** Modelled from the spec: the natural size of the header, a [size_t], an
    [int] and a pointer on an LP64 target. *)
Definition sizeof_block_meta : Z := 24.

(** [ALIGN(sizeof(block_meta))] and [ALIGN(sizeof(block_meta) + ALIGN(1))]. *)
Definition HDR : Z := ALIGN sizeof_block_meta.

Definition MIN_BLOCK : Z := ALIGN (sizeof_block_meta + ALIGN 1).

(** ** Program state *)

(** Calls that leave the allocator, in the order they are made. *)
Inductive event : Type :=
| EvSbrk (incr : Z)
| EvMmap (len : Z)
| EvMunmap (addr len : Z)
| EvMemset (dst c n : Z)
| EvMemcpy (dst src n : Z).

Record state : Type := mk_state {
  hdr : gmap Z block_meta;   (* block headers, by address *)
  mem : Z → Z;               (* payload bytes, by address *)
  global_base : Z;           (* heap base *)
  brk : Z;                   (* program break *)
  brk_max : Z;               (* the break cannot move past this address *)
  map_next : Z;              (* where the next anonymous mapping is placed *)
  map_max : Z;               (* end of the mapping area *)
  page_size : Z;             (* sysconf(_SC_PAGESIZE) *)
  trace : list event;        (* newest first *)
}.

Definition set_hdr (h : gmap Z block_meta) (s : state) : state :=
  mk_state h (mem s) (global_base s) (brk s) (brk_max s) (map_next s)
    (map_max s) (page_size s) (trace s).

Definition set_mem (m : Z → Z) (s : state) : state :=
  mk_state (hdr s) m (global_base s) (brk s) (brk_max s) (map_next s)
    (map_max s) (page_size s) (trace s).

Definition set_global_base (g : Z) (s : state) : state :=
  mk_state (hdr s) (mem s) g (brk s) (brk_max s) (map_next s)
    (map_max s) (page_size s) (trace s).

Definition set_brk (b : Z) (s : state) : state :=
  mk_state (hdr s) (mem s) (global_base s) b (brk_max s) (map_next s)
    (map_max s) (page_size s) (trace s).

Definition set_map_next (a : Z) (s : state) : state :=
  mk_state (hdr s) (mem s) (global_base s) (brk s) (brk_max s) a
    (map_max s) (page_size s) (trace s).

Definition log (e : event) (s : state) : state :=
  mk_state (hdr s) (mem s) (global_base s) (brk s) (brk_max s) (map_next s)
    (map_max s) (page_size s) (e :: trace s).

(** ** Outcomes and the state monad *)

Inductive outcome (A : Type) : Type :=
| Ret (v : A)            (* normal return *)
| Abort (msg : string)   (* [DIE]: the process is terminated *)
| Fault                  (* a header is read where none was written *)
| Diverge.               (* a list walk that does not end *)

Arguments Ret {A} v.

Arguments Abort {A} msg.

Arguments Fault {A}.

Arguments Diverge {A}.

Definition obind {A B : Type} (m : outcome A) (f : A → outcome B) : outcome B :=
  match m with
  | Ret v => f v
  | Abort msg => Abort msg
  | Fault => Fault
  | Diverge => Diverge
  end.

Definition M (A : Type) : Type := state → outcome (A * state).

Definition ret {A : Type} (v : A) : M A := λ s, Ret (v, s).

Definition bind {A B : Type} (m : M A) (f : A → M B) : M B :=
  λ s, match m s with
       | Ret (v, s') => f v s'
       | Abort msg => Abort msg
       | Fault => Fault
       | Diverge => Diverge
       end.

Declare Scope osmem_scope.

Delimit Scope osmem_scope with osmem.

Notation "'let*' x ':=' m 'in' k" := (bind m (λ x, k))
  (at level 10, x name, m at level 100, k at level 200) : osmem_scope.

Notation "m ';;' k" := (bind m (λ _, k))
  (at level 100, k at level 200, right associativity) : osmem_scope.

Notation "'let!' x ':=' m 'in' k" := (obind m (λ x, k))
  (at level 10, x name, m at level 100, k at level 200) : osmem_scope.

Local Open Scope osmem_scope.

Definition get {A : Type} (f : state → A) : M A := λ s, Ret (f s, s).

Definition modify (f : state → state) : M unit := λ s, Ret (tt, f s).

Definition lift {A : Type} (f : state → outcome A) : M A :=
  λ s, match f s with
       | Ret v => Ret (v, s)
       | Abort msg => Abort msg
       | Fault => Fault
       | Diverge => Diverge
       end.

(** Modelled from the spec: [DIE(assertion, call_description)] of
    [helpers.h] terminates the process when the assertion holds, with a
    diagnostic that names the failing primitive. *)
Definition DIE (assertion : bool) (msg : string) : M unit :=
  λ s, if assertion then Abort msg else Ret (tt, s).

(** *** Header accesses *)

Definition hload (h : gmap Z block_meta) (a : Z) : outcome block_meta :=
  match h !! a with
  | Some b => Ret b
  | None => Fault
  end.

Definition load (a : Z) : M block_meta := lift (λ s, hload (hdr s) a).

(** The three stores that initialise a header. *)
Definition store (a : Z) (b : block_meta) : M unit :=
  modify (λ s, set_hdr (<[a := b]> (hdr s)) s).

Definition with_size (v : Z) (b : block_meta) : block_meta :=
  mk_block_meta v (bstatus b) (bnext b).

Definition with_status (v : status_t) (b : block_meta) : block_meta :=
  mk_block_meta (bsize b) v (bnext b).

Definition with_next (v : Z) (b : block_meta) : block_meta :=
  mk_block_meta (bsize b) (bstatus b) v.

Definition set_size (a v : Z) : M unit :=
  let* b := load a in store a (with_size v b).

Definition set_status (a : Z) (v : status_t) : M unit :=
  let* b := load a in store a (with_status v b).

Definition set_next (a v : Z) : M unit :=
  let* b := load a in store a (with_next v b).

(** ** The kernel and libc primitives

    The backing-store gateway of the spec: the break is extended from its
    former value, mappings are fresh regions, and each primitive can be
    refused.  The contents of fresh memory are left unspecified. *)

Definition MAP_FAILED : Z := -1.

(** [sbrk]: moves the break by [incr] and returns the former break, or
    [-1] when the new break would leave [0 .. brk_max]. *)
Definition sbrk (incr : Z) : M Z :=
  λ s, let s1 := log (EvSbrk incr) s in
       if (0 <=? brk s + incr) && (brk s + incr <=? brk_max s)
       then Ret (brk s, set_brk (brk s + incr) s1)
       else Ret (-1, s1).

Definition round_up (n q : Z) : Z := (n + q - 1) / q * q.

(** [mmap(NULL, len, PROT_READ | PROT_WRITE, MAP_PRIVATE | MAP_ANONYMOUS, -1, 0)]:
    a fresh page-aligned region, or [MAP_FAILED] for a zero length or when
    the mapping area is exhausted. *)
Definition mmap (len : Z) : M Z :=
  λ s, let s1 := log (EvMmap len) s in
       if (0 <? len) && (map_next s + len <=? map_max s)
       then Ret (map_next s,
                 set_map_next (map_next s + round_up len (page_size s)) s1)
       else Ret (MAP_FAILED, s1).

(** [munmap]: fails with [-1] for a zero length or an address that is not a
    multiple of the page size; otherwise the range is gone, and with it the
    headers it held.  The kernel unmaps whole pages; the model drops the
    headers of [addr .. addr + len - 1], which is the same for a range that
    starts at a mapping, whose pages hold no other header. *)
Definition munmap (addr len : Z) : M Z :=
  λ s, let s1 := log (EvMunmap addr len) s in
       if (len =? 0) || negb (addr mod page_size s =? 0)
       then Ret (-1, s1)
       else Ret (0, set_hdr
                      (filter (λ kv, ¬ (addr ≤ kv.1 < addr + len)) (hdr s)) s1).

Definition sysconf_SC_PAGESIZE : M Z := get page_size.

(** [memset] and [memcpy] on the byte store.  They are total updates: an
    access outside the break and the mappings, which kills the process, is
    not modelled, and headers, kept apart, are not touched. *)
Definition memset (dst c n : Z) : M unit :=
  modify (λ s, log (EvMemset dst c n)
                 (set_mem (λ a, if (dst <=? a) && (a <? dst + n) then c
                                else mem s a) s)).

Definition memcpy (dst src n : Z) : M unit :=
  modify (λ s, log (EvMemcpy dst src n)
                 (set_mem (λ a, if (dst <=? a) && (a <? dst + n)
                                then mem s (src + (a - dst))
                                else mem s a) s)).

(** ** [osmem.c] *)

Definition is_free (b : block_meta) : bool := status_eqb (bstatus b) STATUS_FREE.

(** Iterations granted to a walk over the registry: a list without a cycle
    visits every header at most once. *)
Definition walk_fuel (h : gmap Z block_meta) : nat := S (size h).

(** The loop of [find_best_fit]; it only reads headers. *)
Fixpoint find_best_fit_loop (fuel : nat) (h : gmap Z block_meta)
    (size current best_fit : Z) : outcome Z :=
  match fuel with
  | O => Diverge
  | S fuel =>
    if current =? 0 then Ret best_fit
    else
      let! c := hload h current in
      if is_free c && (size <=? bsize c) then
        let! better :=
          (if best_fit =? 0 then Ret true
           else let! b := hload h best_fit in Ret (bsize c <? bsize b)) in
        find_best_fit_loop fuel h size (bnext c)
          (if better then current else best_fit)
      else find_best_fit_loop fuel h size (bnext c) best_fit
  end.

Definition find_best_fit (size : Z) : M Z :=
  lift (λ s, find_best_fit_loop (walk_fuel (hdr s)) (hdr s) size
               (global_base s) 0).

Definition request_space_malloc (size : Z) : M Z :=
  if size <? MMAP_THRESHOLD then
    let* _ := sbrk 0 in
    let* block := sbrk (to_intptr size) in
    DIE (block =? -1) "sbrk";;
    store block (mk_block_meta size STATUS_ALLOC 0);;
    ret block
  else
    let* block := mmap size in
    DIE (block =? MAP_FAILED) "mmap";;
    store block (mk_block_meta size STATUS_MAPPED 0);;
    ret block.

Definition request_space_calloc (size : Z) : M Z :=
  let* page_size := sysconf_SC_PAGESIZE in
  let page_size := wrap64 page_size in
  if size <? page_size then
    let* _ := sbrk 0 in
    let* block := sbrk (to_intptr size) in
    DIE (block =? -1) "sbrk";;
    store block (mk_block_meta size STATUS_ALLOC 0);;
    ret block
  else
    let* block := mmap size in
    DIE (block =? MAP_FAILED) "mmap";;
    store block (mk_block_meta size STATUS_MAPPED 0);;
    ret block.

(** The new header is stored at [block + size].  In the header store it is
    an entry of its own: this is the in-band layout when [size] and
    [block->size - size] are at least [sizeof(block_meta)]. *)
Definition split_block (block size : Z) : M unit :=
  let new_block := block + size in
  let* b := load block in
  store new_block (mk_block_meta (wrap64 (bsize b - size)) STATUS_FREE (bnext b));;
  set_size block size;;
  set_next block new_block.

(** The first [if] of the loop body of [coalesce_blocks]: a FREE [current]
    is merged into a FREE [prev], and [current] becomes [prev]. *)
Definition merge_into_prev (h : gmap Z block_meta) (current prev : Z)
    : outcome (gmap Z block_meta * Z) :=
  let! c := hload h current in
  let! prev_free :=
    (if prev =? 0 then Ret false
     else let! p := hload h prev in Ret (is_free p)) in
  if prev_free : bool then
    let! p := hload h prev in
    Ret (<[prev := mk_block_meta (wrap64 (bsize p + bsize c))
                     (bstatus p) (bnext c)]> h, prev)
  else Ret (h, current).

(** The second [if]: a FREE successor of [current] is merged into it. *)
Definition merge_next (h : gmap Z block_meta) (current : Z)
    : outcome (gmap Z block_meta) :=
  let! c := hload h current in
  let! next_free :=
    (if bnext c =? 0 then Ret false
     else let! n := hload h (bnext c) in Ret (is_free n)) in
  if next_free : bool then
    let! n := hload h (bnext c) in
    Ret (<[current := mk_block_meta (wrap64 (bsize c + bsize n))
                        (bstatus c) (bnext n)]> h)
  else Ret h.

(** The loop of [coalesce_blocks]; it reads and writes headers only. *)
Fixpoint coalesce_loop (fuel : nat) (h : gmap Z block_meta)
    (current prev : Z) : outcome (gmap Z block_meta * Z) :=
  match fuel with
  | O => Diverge
  | S fuel =>
    if current =? 0 then Ret (h, prev)
    else
      let! c := hload h current in
      if is_free c then
        let! hc := merge_into_prev h current prev in
        let h := hc.1 in
        let current := hc.2 in
        let! h := merge_next h current in
        let! c := hload h current in
        coalesce_loop fuel h (bnext c) current
      else coalesce_loop fuel h (bnext c) current
  end.

Definition coalesce_blocks : M Z :=
  λ s, match coalesce_loop (walk_fuel (hdr s)) (hdr s) (global_base s) 0 with
       | Ret (h, prev) => Ret (prev, set_hdr h s)
       | Abort msg => Abort msg
       | Fault => Fault
       | Diverge => Diverge
       end.

Definition first_time_prealloc : M unit :=
  let* g := sbrk 0 in
  modify (set_global_base g);;
  let* g := sbrk (to_intptr MMAP_THRESHOLD) in
  modify (set_global_base g);;
  DIE (g =? -1) "sbrk";;
  store g (mk_block_meta MMAP_THRESHOLD STATUS_FREE 0).

(** The loop of [realloc_expand]. *)
Fixpoint realloc_expand_loop (fuel : nat) (h : gmap Z block_meta)
    (block next : Z) : outcome (gmap Z block_meta) :=
  match fuel with
  | O => Diverge
  | S fuel =>
    if next =? 0 then Ret h
    else
      let! n := hload h next in
      if is_free n then
        let! b := hload h block in
        let h1 := <[block := mk_block_meta (wrap64 (bsize b + bsize n))
                               (bstatus b) (bnext n)]> h in
        let! b1 := hload h1 block in
        realloc_expand_loop fuel h1 block (bnext b1)
      else Ret h
  end.

Definition realloc_expand (block size : Z) : M Z :=
  let* b := load block in
  (λ s, match realloc_expand_loop (walk_fuel (hdr s)) (hdr s) block (bnext b) with
        | Ret h => Ret (tt, set_hdr h s)
        | Abort msg => Abort msg
        | Fault => Fault
        | Diverge => Diverge
        end);;
  let* b := load block in
  if size <=? bsize b then ret block else ret 0.

Definition get_block_ptr (ptr : Z) : Z := ptr - ALIGN sizeof_block_meta.

Definition os_malloc (size : Z) : M Z :=
  if size =? 0 then ret 0
  else
    let aligned_size := to_int (wrap64 (ALIGN sizeof_block_meta + ALIGN size)) in
    let* base := get global_base in
    (if (base =? 0) && (aligned_size <? MMAP_THRESHOLD)
     then first_time_prealloc else ret tt);;
    let* last := coalesce_blocks in
    let* block := find_best_fit (wrap64 aligned_size) in
    if negb (block =? 0) then
      let* b := load block in
      (if wrap64 (aligned_size + ALIGN (sizeof_block_meta + ALIGN 1)) <=? bsize b
       then split_block block (wrap64 aligned_size) else ret tt);;
      set_status block STATUS_ALLOC;;
      ret (block + ALIGN sizeof_block_meta)
    else
      let* last_free :=
        (if last =? 0 then ret false
         else let* l := load last in ret (is_free l)) in
      if last_free : bool then
        let* l := load last in
        let* block := request_space_malloc (wrap64 (aligned_size - bsize l)) in
        if block =? 0 then ret 0
        else
          let* l := load last in
          let* nb := load block in
          set_size last (wrap64 (bsize l + bsize nb));;
          let block := last in
          let* b := load block in
          (if wrap64 (aligned_size + ALIGN (sizeof_block_meta + ALIGN 1)) <=? bsize b
           then split_block block (wrap64 aligned_size) else ret tt);;
          set_status block STATUS_ALLOC;;
          ret (block + ALIGN sizeof_block_meta)
      else
        let* block := request_space_malloc (wrap64 aligned_size) in
        if block =? 0 then ret 0
        else
          let* nb := load block in
          (if status_eqb (bstatus nb) STATUS_ALLOC then
             set_next last block;;
             let* l := load last in
             if is_free l then
               let* nb := load block in
               set_size last (wrap64 (bsize l + bsize nb));;
               let* nb := load block in
               set_next last (bnext nb)
             else ret tt
           else ret tt);;
          ret (block + ALIGN sizeof_block_meta).

Definition os_free (ptr : Z) : M unit :=
  if ptr =? 0 then ret tt
  else
    let block := get_block_ptr ptr in
    let* b := load block in
    if status_eqb (bstatus b) STATUS_ALLOC then set_status block STATUS_FREE
    else
      let* r := munmap block (bsize b) in
      DIE (r =? -1) "munmap".

Definition os_calloc (nmemb size : Z) : M Z :=
  if (nmemb =? 0) || (size =? 0) then ret 0
  else
    let size := wrap64 (size * nmemb) in
    let aligned_size := to_int (wrap64 (ALIGN sizeof_block_meta + ALIGN size)) in
    let* base := get global_base in
    let* page_size := sysconf_SC_PAGESIZE in
    (if (base =? 0) && (aligned_size <? page_size)
     then first_time_prealloc else ret tt);;
    let* last := coalesce_blocks in
    let* block := find_best_fit (wrap64 aligned_size) in
    if negb (block =? 0) then
      let* b := load block in
      (if wrap64 (aligned_size + ALIGN (sizeof_block_meta + ALIGN 1)) <=? bsize b
       then split_block block (wrap64 aligned_size) else ret tt);;
      set_status block STATUS_ALLOC;;
      memset (block + ALIGN sizeof_block_meta) 0 size;;
      ret (block + ALIGN sizeof_block_meta)
    else
      let* last_free :=
        (if last =? 0 then ret false
         else let* l := load last in ret (is_free l)) in
      if last_free : bool then
        let* l := load last in
        let* block := request_space_calloc (wrap64 (aligned_size - bsize l)) in
        if block =? 0 then ret 0
        else
          let* l := load last in
          let* nb := load block in
          set_size last (wrap64 (bsize l + bsize nb));;
          let block := last in
          let* b := load block in
          (if wrap64 (aligned_size + ALIGN (sizeof_block_meta + ALIGN 1)) <=? bsize b
           then split_block block (wrap64 aligned_size) else ret tt);;
          set_status block STATUS_ALLOC;;
          memset (block + ALIGN sizeof_block_meta) 0 size;;
          ret (block + ALIGN sizeof_block_meta)
      else
        let* block := request_space_calloc (wrap64 aligned_size) in
        if block =? 0 then ret 0
        else
          let* nb := load block in
          (if status_eqb (bstatus nb) STATUS_ALLOC then
             set_next last block;;
             let* l := load last in
             if is_free l then
               let* nb := load block in
               set_size last (wrap64 (bsize l + bsize nb));;
               let* nb := load block in
               set_next last (bnext nb)
             else ret tt
           else ret tt);;
          memset (block + ALIGN sizeof_block_meta) 0 size;;
          ret (block + ALIGN sizeof_block_meta).

Definition os_realloc (ptr size : Z) : M Z :=
  let aligned_size := wrap64 (ALIGN size + ALIGN sizeof_block_meta) in
  if ptr =? 0 then os_malloc size
  else if size =? 0 then os_free ptr;; ret 0
  else
    let block := get_block_ptr ptr in
    let* b := load block in
    if status_eqb (bstatus b) STATUS_FREE then ret 0
    else if bsize b =? aligned_size then ret ptr
    else if status_eqb (bstatus b) STATUS_MAPPED then
      let* new_ptr := os_malloc size in
      let new_block := get_block_ptr new_ptr in
      if new_ptr =? 0 then ret 0
      else
        let* nb := load new_block in
        memcpy new_ptr ptr (wrap64 (bsize nb - ALIGN sizeof_block_meta));;
        os_free ptr;;
        ret new_ptr
    else
      let* shrunk :=
        (if aligned_size <=? bsize b then
           if wrap64 (aligned_size + ALIGN (sizeof_block_meta + ALIGN 1)) <=? bsize b
           then split_block block aligned_size;; ret true
           else ret false
         else ret false) in
      if shrunk : bool then ret ptr
      else
        coalesce_blocks;;
        let* block := realloc_expand block aligned_size in
        if negb (block =? 0) then
          let* b := load block in
          (if wrap64 (aligned_size + ALIGN (sizeof_block_meta + ALIGN 1)) <=? bsize b
           then split_block block aligned_size else ret tt);;
          ret ptr
        else
          let* new_ptr := os_malloc size in
          let new_block := get_block_ptr new_ptr in
          if new_ptr =? 0 then ret 0
          else
            let* nb := load new_block in
            memcpy new_ptr ptr (wrap64 (bsize nb - ALIGN sizeof_block_meta));;
            os_free ptr;;
            ret new_ptr.

(** ** Concrete states and observers *)

Definition initial_state (mem0 : Z → Z) (brk0 brk_lim map0 map_lim page : Z) : state :=
  mk_state ∅ mem0 0 brk0 brk_lim map0 map_lim page [].

(** A concrete process: break at [0x10000], 16 MiB of heap, mappings above. *)
Definition s0 : state :=
  initial_state (λ _, 170) 65536 16842752 268435456 4294967296 4096.

(** The blocks of the registry, in list order. *)
Fixpoint registry_loop (fuel : nat) (h : gmap Z block_meta) (current : Z)
    : outcome (list (Z * block_meta)) :=
  match fuel with
  | O => Diverge
  | S fuel =>
    if current =? 0 then Ret []
    else
      let! c := hload h current in
      let! rest := registry_loop fuel h (bnext c) in
      Ret ((current, c) :: rest)
  end.

Definition registry (s : state) : outcome (list (Z * block_meta)) :=
  registry_loop (walk_fuel (hdr s)) (hdr s) (global_base s).

Definition exec {A : Type} (m : M A) (s : state) : option (A * list (Z * block_meta) * list event) :=
  match m s with
  | Ret (v, s') =>
    match registry s' with
    | Ret l => Some (v, l, trace s')
    | _ => None
    end
  | _ => None
  end.

(** The state a call returns in (the start state when it does not return). *)
Definition run_state {A : Type} (m : M A) (s : state) : state :=
  match m s with
  | Ret (_, s') => s'
  | _ => s
  end.

(** The state of scenario 1: [p = os_malloc(100); os_free(p)] from [s0]. *)
Definition s_freed : state :=
  run_state (let* p := os_malloc 100 in os_free p) s0.

(** What a call returned, seen through an observer of the final state. *)
Definition observe {A B : Type} (f : A → state → B) (o : outcome (A * state))
    : option B :=
  match o with
  | Ret (v, s') => Some (f v s')
  | _ => None
  end.

Definition memcpy_lengths (t : list event) : list Z :=
  omap (λ e, match e with EvMemcpy _ _ n => Some n | _ => None end) t.

(** ** A Hoare logic for the state monad *)

Definition hoare {A : Type} (P : state → Prop) (m : M A)
    (Q : A → state → Prop) : Prop :=
  ∀ s v s', P s → m s = Ret (v, s') → Q v s'.

(** ** Alignment of headers and pointers *)

Definition ptr_ok (v : Z) : Prop := 0 ≤ v ∧ v mod 8 = 0.

Definition block_ok (b : block_meta) : Prop :=
  bsize b mod 8 = 0 ∧ ptr_ok (bnext b).

Definition hdr_inv (h : gmap Z block_meta) : Prop :=
  ∀ a b, h !! a = Some b → ptr_ok a ∧ block_ok b.

(** Header addresses, block sizes, list links, the break and the mapping
    area are multiples of 8; the page size is a positive [long]. *)
Record state_inv (s : state) : Prop := mk_state_inv {
  inv_hdr : hdr_inv (hdr s);
  inv_base : ptr_ok (global_base s);
  inv_brk : 0 < brk s ∧ brk s mod 8 = 0;
  inv_map : 0 < map_next s ∧ map_next s mod 8 = 0;
  inv_page : 0 < page_size s < 2 ^ 63 ∧ page_size s mod 8 = 0;
}.


(** A triple that carries [state_inv] through a call. *)
Definition inv_triple {A : Type} (m : M A) (Q : A → Prop) : Prop :=
  hoare state_inv m (λ v s', state_inv s' ∧ Q v).

(** ** The common body of [os_malloc] and [os_calloc] *)

(** [os_malloc] and [os_calloc] are the same code after the size has been
    computed, up to the threshold read for the first-time preallocation, the
    function that requests space, and the [memset] before each return. *)
Definition alloc_body (threshold : M Z) (request_space : Z → M Z)
    (zero : Z → M unit) (aligned_size : Z) : M Z :=
  let* base := get global_base in
  let* thr := threshold in
  (if (base =? 0) && (aligned_size <? thr)
   then first_time_prealloc else ret tt);;
  let* last := coalesce_blocks in
  let* block := find_best_fit (wrap64 aligned_size) in
  if negb (block =? 0) then
    let* b := load block in
    (if wrap64 (aligned_size + ALIGN (sizeof_block_meta + ALIGN 1)) <=? bsize b
     then split_block block (wrap64 aligned_size) else ret tt);;
    set_status block STATUS_ALLOC;;
    zero (block + ALIGN sizeof_block_meta);;
    ret (block + ALIGN sizeof_block_meta)
  else
    let* last_free :=
      (if last =? 0 then ret false
       else let* l := load last in ret (is_free l)) in
    if last_free : bool then
      let* l := load last in
      let* block := request_space (wrap64 (aligned_size - bsize l)) in
      if block =? 0 then ret 0
      else
        let* l := load last in
        let* nb := load block in
        set_size last (wrap64 (bsize l + bsize nb));;
        let block := last in
        let* b := load block in
        (if wrap64 (aligned_size + ALIGN (sizeof_block_meta + ALIGN 1)) <=? bsize b
         then split_block block (wrap64 aligned_size) else ret tt);;
        set_status block STATUS_ALLOC;;
        zero (block + ALIGN sizeof_block_meta);;
        ret (block + ALIGN sizeof_block_meta)
    else
      let* block := request_space (wrap64 aligned_size) in
      if block =? 0 then ret 0
      else
        let* nb := load block in
        (if status_eqb (bstatus nb) STATUS_ALLOC then
           set_next last block;;
           let* l := load last in
           if is_free l then
             let* nb := load block in
             set_size last (wrap64 (bsize l + bsize nb));;
             let* nb := load block in
             set_next last (bnext nb)
           else ret tt
         else ret tt);;
        zero (block + ALIGN sizeof_block_meta);;
        ret (block + ALIGN sizeof_block_meta).

Definition aligned_size_of (size : Z) : Z :=
  to_int (wrap64 (ALIGN sizeof_block_meta + ALIGN size)).

(** ** Sequences of public operations *)

Inductive call : Type :=
| Malloc (size : Z)
| Free (ptr : Z)
| Calloc (nmemb size : Z)
| Realloc (ptr size : Z).

(** The payload pointer a call returns; [os_free] returns nothing. *)
Definition perform (c : call) : M (option Z) :=
  match c with
  | Malloc size => let* p := os_malloc size in ret (Some p)
  | Free ptr => os_free ptr;; ret None
  | Calloc nmemb size => let* p := os_calloc nmemb size in ret (Some p)
  | Realloc ptr size => let* p := os_realloc ptr size in ret (Some p)
  end.

Fixpoint run (cs : list call) : M (list (option Z)) :=
  match cs with
  | [] => ret []
  | c :: cs =>
    let* r := perform c in
    let* rs := run cs in
    ret (r :: rs)
  end.

Definition calls_example : list call :=
  [Malloc 200000; Malloc 100; Calloc 3 7; Realloc 65560 300; Free 65688;
   Realloc 268435480 50; Malloc 0].

Definition zeroed (n p : Z) (s : state) : Prop :=
  ∀ i, 0 ≤ i < n → mem s (p + i) = 0.

(** ** The registry as a list *)

(** [lseg h a l z]: following [next] from [a] visits the headers of [l], in
    order, and then reaches [z]. *)
Fixpoint lseg (h : gmap Z block_meta) (a : Z) (l : list (Z * block_meta))
    (z : Z) : Prop :=
  match l with
  | [] => a = z
  | x :: l' =>
    a = x.1 ∧ x.1 ≠ 0 ∧ h !! x.1 = Some x.2 ∧ lseg h (bnext x.2) l' z
  end.

(** [chain h a l]: the list that starts at [a] is [l] and ends in [NULL]. *)
Definition chain (h : gmap Z block_meta) (a : Z) (l : list (Z * block_meta))
    : Prop :=
  lseg h a l 0.

(** The registry of a state is the chain from [global_base]. *)
Definition registry_is (s : state) (l : list (Z * block_meta)) : Prop :=
  chain (hdr s) (global_base s) l.

(** ** Best fit *)

(** A block that [find_best_fit] may return for a request of [size]. *)
Definition fits (size : Z) (b : block_meta) : Prop :=
  bstatus b = STATUS_FREE ∧ size ≤ bsize b.

(** [r] is the best fit of [size] in [l]: null when no block fits, and
    otherwise a fitting block that is strictly smaller than every fitting
    block before it and no larger than every fitting block after it. *)
Definition best_fit_of (size : Z) (l : list (Z * block_meta)) (r : Z) : Prop :=
  (r = 0 ∧ Forall (λ x, ¬ fits size x.2) l) ∨
  (r ≠ 0 ∧ ∃ pre b post,
     l = pre ++ (r, b) :: post ∧ fits size b ∧
     Forall (λ x, fits size x.2 → bsize b < bsize x.2) pre ∧
     Forall (λ x, fits size x.2 → bsize b ≤ bsize x.2) post).

(** ** Coalescing *)

(** No two consecutive blocks of [l] are both FREE. *)
Fixpoint no_adjacent_free (l : list (Z * block_meta)) : bool :=
  match l with
  | x :: l' =>
    match l' with
    | y :: _ => negb (is_free x.2 && is_free y.2) && no_adjacent_free l'
    | [] => true
    end
  | [] => true
  end.

(** The address of the last block of [l], or [NULL]. *)
Definition last_addr (l : list (Z * block_meta)) : Z :=
  match last l with
  | Some x => x.1
  | None => 0
  end.

(** [y], the successor of [x], is merged into [x]. *)
Definition merge (x y : Z * block_meta) : Z * block_meta :=
  (x.1, mk_block_meta (wrap64 (bsize x.2 + bsize y.2)) (bstatus x.2) (bnext y.2)).

(** What coalescing makes of the list [prev :: rest]: a FREE block absorbs
    the FREE blocks that follow it. *)
Fixpoint coal (prev : Z * block_meta) (rest : list (Z * block_meta))
    : list (Z * block_meta) :=
  match rest with
  | [] => [prev]
  | cur :: rest' =>
    if is_free prev.2 && is_free cur.2 then coal (merge prev cur) rest'
    else prev :: coal cur rest'
  end.

Definition coalesce_list (l : list (Z * block_meta)) : list (Z * block_meta) :=
  match l with
  | [] => []
  | x :: rest => coal x rest
  end.

Definition coalesce_post (h : gmap Z block_meta) (prev : Z * block_meta)
    (rest : list (Z * block_meta)) (res : outcome (gmap Z block_meta * Z))
    : Prop :=
  ∃ h', res = Ret (h', last_addr (coal prev rest)) ∧
        lseg h' prev.1 (coal prev rest) 0 ∧
        ∀ a, a ∉ (prev :: rest).*1 → h' !! a = h !! a.

Definition loop_ok (fuel : nat) : Prop :=
  ∀ h prev rest,
    lseg h prev.1 (prev :: rest) 0 → (length rest < fuel)%nat →
    coalesce_post h prev rest (coalesce_loop fuel h (bnext prev.2) prev.1).

(** ** Geometry of the registry *)

Definition next_addr (top : Z) (l : list (Z * block_meta)) : Z :=
  match l with
  | [] => top
  | y :: _ => y.1
  end.

(** Blocks lie at positive addresses, in address order, without overlap,
    below [top]. *)
Fixpoint geom (top : Z) (l : list (Z * block_meta)) : Prop :=
  match l with
  | [] => True
  | x :: l' =>
    0 < x.1 ∧ 0 < bsize x.2 ∧ x.1 + bsize x.2 ≤ next_addr top l' ∧ geom top l'
  end.

(** ** Status patterns *)

Fixpoint naf_b (l : list bool) : bool :=
  match l with
  | x :: l' =>
    match l' with
    | y :: _ => negb (x && y) && naf_b l'
    | [] => true
    end
  | [] => true
  end.

Definition frees (l : list (Z * block_meta)) : list bool :=
  map (λ x, is_free x.2) l.

(** ** Forward reasoning: a call returns or the process aborts *)

Definition ok_or_abort {A : Type} (o : outcome (A * state))
    (Q : A → state → Prop) : Prop :=
  (∃ msg, o = Abort msg) ∨ ∃ v s', o = Ret (v, s') ∧ Q v s'.

(** What a request of [sz] bytes with threshold [T] does to [s]: below the
    threshold the block is carved at the former break, otherwise it is a
    fresh mapping. *)
Definition req_post (T sz : Z) (s : state) (block : Z) (s' : state) : Prop :=
  global_base s' = global_base s ∧ brk_max s' = brk_max s ∧
  page_size s' = page_size s ∧
  ∃ st, hdr s' = <[block := mk_block_meta sz st 0]> (hdr s) ∧
        ((sz < T ∧ st = STATUS_ALLOC ∧ block = brk s ∧
          brk s' = brk s + sz ∧ brk s' ≤ brk_max s ∧
          map_next s' = map_next s) ∨
         (T ≤ sz ∧ st = STATUS_MAPPED ∧ block = map_next s ∧
          brk s' = brk s ∧ map_next s ≤ map_next s')).

(** The requests to the kernel, run forward. *)
Definition req_spec (Tf : state → Z) (request_space : Z → M Z) : Prop :=
  ∀ sz s,
    0 < brk s → 0 < map_next s → 0 < page_size s < 2 ^ 63 → 0 ≤ sz < 2 ^ 63 →
    ok_or_abort (request_space sz s) (req_post (Tf s) sz s).

(** [s'] has the break, the limits and the page size of [s]. *)
Definition same_kernel (s s' : state) : Prop :=
  brk s' = brk s ∧ brk_max s' = brk_max s ∧ map_next s' = map_next s ∧
  page_size s' = page_size s.

(** The zeroing step before a return touches neither headers nor kernel
    state. *)
Definition zero_spec (zero : Z → M unit) : Prop :=
  ∀ p s, ∃ s', zero p s = Ret (tt, s') ∧ hdr s' = hdr s ∧
               global_base s' = global_base s ∧ same_kernel s s'.

(** ** Allocation on a well-formed registry *)

(** The registry of [s] is the list [l]; its blocks are in address order
    below the break, and mappings are placed above the heap. *)
Record wf (s : state) (l : list (Z * block_meta)) : Prop := mk_wf {
  wf_reg : registry_is s l;
  wf_geom : geom (brk s) l;
  wf_brk : 0 < brk s ≤ brk_max s;
  wf_map : brk_max s ≤ map_next s;
  wf_lim : brk_max s < 2 ^ 63;
  wf_page : 0 < page_size s < 2 ^ 63;
}.

(** The last block of [l] is FREE. *)
Definition tail_free (l : list (Z * block_meta)) : Prop :=
  ∃ x, last l = Some x ∧ bstatus x.2 = STATUS_FREE.

(** What a call that allocated [A] bytes in total leaves behind: [lc] is the
    registry after coalescing, [T] the threshold of the call. *)
Definition alloc_post (lc : list (Z * block_meta)) (T A : Z) (p : Z)
    (s' : state) : Prop :=
  ∃ l' b,
    registry_is s' l' ∧ no_adjacent_free l' = true ∧ p ≠ 0 ∧
    hdr s' !! get_block_ptr p = Some b ∧
    ((bstatus b = STATUS_ALLOC ∧ (get_block_ptr p, b) ∈ l') ∨
     (bstatus b = STATUS_MAPPED ∧ get_block_ptr p ∉ l'.*1)) ∧
    (bstatus b = STATUS_MAPPED ↔
     T ≤ A ∧ (∀ x, x ∈ lc → ¬ fits A x.2) ∧ ¬ tail_free lc) ∧
    (A < T ∨ bstatus b = STATUS_MAPPED → wf s' l').

(** The state after [os_malloc(100)] from [s0]. *)
Definition s_one : state := run_state (os_malloc 100) s0.

Definition registry_one : list (Z * block_meta) :=
  [(65536, mk_block_meta 128 STATUS_ALLOC 65664);
   (65664, mk_block_meta 130944 STATUS_FREE 0)].

Definition registry_freed : list (Z * block_meta) :=
  [(65536, mk_block_meta 128 STATUS_FREE 65664);
   (65664, mk_block_meta 130944 STATUS_FREE 0)].

(** ** Splitting and absorbing, on lists *)

(** The two blocks [split_block] makes of [x] when the first keeps [size]
    bytes. *)
Definition split_at (size : Z) (x : Z * block_meta) : list (Z * block_meta) :=
  [(x.1, mk_block_meta size (bstatus x.2) (x.1 + size));
   (x.1 + size, mk_block_meta (bsize x.2 - size) STATUS_FREE (bnext x.2))].

(** [x] takes over the FREE blocks at the head of [post], as the loop of
    [realloc_expand] does; the result is the grown block and what is left of
    [post]. *)
Fixpoint absorb (x : Z * block_meta) (post : list (Z * block_meta))
    : (Z * block_meta) * list (Z * block_meta) :=
  match post with
  | y :: post' => if is_free y.2 then absorb (merge x y) post' else (x, post)
  | [] => (x, [])
  end.

(** The bytes the blocks of [l] cover, headers included. *)
Definition total_size (l : list (Z * block_meta)) : Z :=
  foldr (λ x acc, bsize x.2 + acc) 0 l.

(** ** Allocation, path by path *)

(** The calls that reach the kernel. *)
Definition is_syscall (e : event) : bool :=
  match e with
  | EvSbrk _ | EvMmap _ | EvMunmap _ _ => true
  | EvMemset _ _ _ | EvMemcpy _ _ _ => false
  end.

Definition syscalls (t : list event) : list event := List.filter is_syscall t.

(** [s'] differs from [s] in headers and payload bytes only, and no system
    call was made in between. *)
Definition quiet (s s' : state) : Prop :=
  same_kernel s s' ∧ global_base s' = global_base s ∧
  syscalls (trace s') = syscalls (trace s).

(** The zeroing step before a return writes payload bytes only. *)
Definition zero_quiet (zero : Z → M unit) : Prop :=
  ∀ p s, ∃ s', zero p s = Ret (tt, s') ∧ hdr s' = hdr s ∧ quiet s s'.

(** What an allocation of [A] bytes makes of the FREE block [x] it was
    given: the block is split when the rest can hold a block of its own. *)
Definition carve (A : Z) (x : Z * block_meta) : list (Z * block_meta) :=
  if A + MIN_BLOCK <=? bsize x.2
  then [(x.1, mk_block_meta A STATUS_ALLOC (x.1 + A));
        (x.1 + A, mk_block_meta (bsize x.2 - A) STATUS_FREE (bnext x.2))]
  else [(x.1, with_status STATUS_ALLOC x.2)].

(** What every allocation promises: the pointer is the payload of a block
    that is in use and holds at least [A] bytes. *)
Definition holds (A : Z) (p : Z) (s' : state) : Prop :=
  ∃ b, p ≠ 0 ∧ hdr s' !! get_block_ptr p = Some b ∧
       bstatus b ≠ STATUS_FREE ∧ A ≤ bsize b < 2 ^ 63.

(** ** The kernel's side of the state along a run *)

(** [s] is a state reached from [s0]: the break and the mapping cursor have
    not moved down, the limits and the page size are those of [s0], and a
    heap base that was set in [s0] is still the heap base. *)
Definition kinv (s0 s : state) : Prop :=
  0 < page_size s0 < 2 ^ 63 ∧
  brk s0 ≤ brk s ∧ map_next s0 ≤ map_next s ∧
  brk_max s = brk_max s0 ∧ map_max s = map_max s0 ∧
  page_size s = page_size s0 ∧
  (global_base s0 ≠ 0 → global_base s = global_base s0).

Definition kept {A : Type} (s0 : state) (m : M A) : Prop :=
  hoare (kinv s0) m (λ _, kinv s0).

(** ** More concrete states *)

(** A process whose break cannot move by 128 KiB. *)
Definition s_small : state :=
  initial_state (λ _, 170) 65536 100000 268435456 4294967296 4096.

(** The state after [os_malloc(131040)] from [s0]: the preallocated block
    is in use as a whole. *)
Definition s_full : state := run_state (os_malloc 131040) s0.

Definition registry_full : list (Z * block_meta) :=
  [(65536, mk_block_meta 131072 STATUS_ALLOC 0)].

(** The state after [os_malloc(200000)] from [s0]: one mapped block, an
    empty registry. *)
Definition s_mapped : state := run_state (os_malloc 200000) s0.

(** The state after [os_malloc(100); q = os_malloc(200); os_free(q)] from
    [s0]: a block in use followed by two FREE blocks. *)
Definition s_two : state :=
  run_state (let* _ := os_malloc 100 in let* q := os_malloc 200 in os_free q) s0.

Definition registry_two : list (Z * block_meta) :=
  [(65536, mk_block_meta 128 STATUS_ALLOC 65664);
   (65664, mk_block_meta 224 STATUS_FREE 65888);
   (65888, mk_block_meta 130720 STATUS_FREE 0)].

(** The state after [os_malloc(100); os_malloc(100)] from [s0]: two blocks
    in use followed by the FREE rest of the preallocated heap. *)
Definition s_pair : state := run_state (os_malloc 100;; os_malloc 100) s0.

Definition registry_pair : list (Z * block_meta) :=
  [(65536, mk_block_meta 128 STATUS_ALLOC 65664);
   (65664, mk_block_meta 128 STATUS_ALLOC 65792);
   (65792, mk_block_meta 130816 STATUS_FREE 0)].

(** * Properties *)

(** ** Basic facts *)

Lemma HDR_val : HDR = 24.
Proof. reflexivity. Qed.

Lemma MIN_BLOCK_val : MIN_BLOCK = 32.
Proof. reflexivity. Qed.

Lemma load_some (s : state) (a : Z) (b : block_meta) :
  hdr s !! a = Some b → load a s = Ret (b, s).
Proof. intros H. unfold load, lift, hload. now rewrite H. Qed.

Lemma status_eqb_eq (a b : status_t) : status_eqb a b = true ↔ a = b.
Proof. destruct a, b; simpl; split; intros; congruence. Qed.

(** ** Free of a block that is already FREE *)

Section free_of_free.
Variables (s : state) (ptr : Z) (b : block_meta).
Hypothesis Hptr : ptr ≠ 0.
Hypothesis Hblk : hdr s !! get_block_ptr ptr = Some b.
Hypothesis Hfree : bstatus b = STATUS_FREE.

(** C9: [os_free] on a block whose status is already FREE takes the
    [munmap] branch: the call [munmap(block, block->size)] is made, the
    process aborts with "munmap" when it is refused, and otherwise the
    call returns in a state that differs from the one it started in. *)
Theorem os_free_of_free_block_unmaps :
  ∃ r s',
    munmap (get_block_ptr ptr) (bsize b) s = Ret (r, s') ∧
    trace s' = EvMunmap (get_block_ptr ptr) (bsize b) :: trace s ∧
    os_free ptr s = (if r =? -1 then Abort "munmap" else Ret (tt, s')) ∧
    os_free ptr s ≠ Ret (tt, s).
Proof.
  assert (Hfr : os_free ptr s =
                (let* r := munmap (get_block_ptr ptr) (bsize b) in
                 DIE (r =? -1) "munmap") s).
  { unfold os_free. destruct (ptr =? 0) eqn:E; [lia|].
    unfold bind at 1. rewrite (load_some _ _ _ Hblk), Hfree. reflexivity. }
  unfold bind, munmap, DIE in Hfr. unfold munmap.
  destruct ((bsize b =? 0) || negb (get_block_ptr ptr mod page_size s =? 0)).
  - eexists _, _. split; [reflexivity|]. split; [reflexivity|].
    simpl in *. split; [exact Hfr|]. rewrite Hfr. discriminate.
  - eexists _, _. split; [reflexivity|]. split; [reflexivity|].
    simpl in *. split; [exact Hfr|]. rewrite Hfr.
    intros Heq. injection Heq as Heq.
    apply (f_equal (λ x, length (trace x))) in Heq. simpl in Heq. lia.
Qed.
End free_of_free.

Lemma os_free_of_free_block_unmaps_witness :
  ∃ r s',
    munmap (get_block_ptr 65560) 128 s_freed = Ret (r, s') ∧
    trace s' = EvMunmap (get_block_ptr 65560) 128 :: trace s_freed ∧
    os_free 65560 s_freed = (if r =? -1 then Abort "munmap" else Ret (tt, s')) ∧
    os_free 65560 s_freed ≠ Ret (tt, s_freed).
Proof.
  apply (os_free_of_free_block_unmaps s_freed 65560
           (mk_block_meta 128 STATUS_FREE 65664)).
  - lia.
  - vm_compute. reflexivity.
  - reflexivity.
Defined.

(** ** Reallocate on a FREE block *)

(** C6, as stated, fails: with a requested size of zero the call frees the
    block first, and free of a FREE block goes to [munmap]. *)
Lemma os_realloc_free_block_size_zero_changes_state :
  ¬ (∀ (s : state) (ptr size : Z) (b : block_meta),
       ptr ≠ 0 → hdr s !! get_block_ptr ptr = Some b →
       bstatus b = STATUS_FREE → os_realloc ptr size s = Ret (0, s)).
Proof.
  intros H.
  specialize (H s_freed 65560 0 (mk_block_meta 128 STATUS_FREE 65664)).
  assert (E : os_realloc 65560 0 s_freed = Ret (0, s_freed)).
  { apply H; [lia | vm_compute; reflexivity | reflexivity]. }
  apply (f_equal (λ o, match o with
                       | Ret (_, x) => length (trace x)
                       | _ => O
                       end)) in E.
  vm_compute in E. discriminate.
Qed.

(** C6 (amended): for a non-null pointer that names a FREE block and a
    non-zero requested size, [os_realloc] returns null and the state is the
    one it started in. *)
Theorem os_realloc_free_block_returns_null (s : state) (ptr size : Z)
    (b : block_meta) :
  ptr ≠ 0 → size ≠ 0 →
  hdr s !! get_block_ptr ptr = Some b →
  bstatus b = STATUS_FREE →
  os_realloc ptr size s = Ret (0, s).
Proof.
  intros Hp Hs Hb Hf. unfold os_realloc.
  destruct (ptr =? 0) eqn:E1; [lia|].
  destruct (size =? 0) eqn:E2; [lia|].
  unfold bind. rewrite (load_some _ _ _ Hb), Hf. reflexivity.
Qed.

Lemma os_realloc_free_block_returns_null_witness :
  os_realloc 65560 50 s_freed = Ret (0, s_freed).
Proof.
  apply (os_realloc_free_block_returns_null s_freed 65560 50
           (mk_block_meta 128 STATUS_FREE 65664)).
  - lia.
  - lia.
  - vm_compute. reflexivity.
  - reflexivity.
Defined.

(** ** The product of zeroed-allocate *)

(** C10: [os_calloc] sizes, selects and zeroes by [size * nmemb] taken
    modulo [2^64], with no overflow guard: two calls with non-zero factors
    and the same wrapped product behave identically, whatever the
    mathematical products are. *)
Theorem os_calloc_uses_wrapped_product (s : state) (k n k' n' : Z) :
  k ≠ 0 → n ≠ 0 → k' ≠ 0 → n' ≠ 0 →
  wrap64 (n * k) = wrap64 (n' * k') →
  os_calloc k n s = os_calloc k' n' s.
Proof.
  intros Hk Hn Hk' Hn' Hw. unfold os_calloc.
  destruct (k =? 0) eqn:E1; [lia|]. destruct (n =? 0) eqn:E2; [lia|].
  destruct (k' =? 0) eqn:E3; [lia|]. destruct (n' =? 0) eqn:E4; [lia|].
  cbn [orb]. rewrite Hw. reflexivity.
Qed.

(** At count [2^60 + 1] and element size [16] the product is [2^64 + 16];
    the call returns a 40-byte block and zeroes 16 bytes. *)
Lemma os_calloc_uses_wrapped_product_witness :
  0 < 2 ^ 60 + 1 < 2 ^ 64 ∧ 0 < 16 < 2 ^ 64 ∧
  2 ^ 64 ≤ 16 * (2 ^ 60 + 1) ∧
  os_calloc (2 ^ 60 + 1) 16 s0 = os_calloc 1 16 s0 ∧
  exec (os_calloc (2 ^ 60 + 1) 16) s0 =
    Some (65560,
          [(65536, mk_block_meta 40 STATUS_ALLOC 65576);
           (65576, mk_block_meta 131032 STATUS_FREE 0)],
          [EvMemset 65560 0 16; EvSbrk 131072; EvSbrk 0]).
Proof.
  split; [lia|]. split; [lia|]. split; [lia|]. split.
  - apply (os_calloc_uses_wrapped_product s0 (2 ^ 60 + 1) 16 1 16).
    + lia.
    + lia.
    + lia.
    + lia.
    + reflexivity.
  - vm_compute. reflexivity.
Defined.

(** ** Reallocate of a mapped block *)

(** C3, at [p = os_malloc(200000); q = os_realloc(p, 300000)]: the old
    block is MAPPED with size 200024, the new block has size 300024, and the
    single [memcpy] of the call copies 300000 bytes from the old payload,
    not [min(200024, 300024) - 24 = 200000]. *)
Theorem os_realloc_mapped_grow_copies_new_size :
  ∃ p q s1 ob nb,
    os_malloc 200000 s0 = Ret (p, s1) ∧
    hdr s1 !! get_block_ptr p = Some ob ∧
    bstatus ob = STATUS_MAPPED ∧ bsize ob = 200024 ∧
    observe (λ q' s2, (q', hdr s2 !! get_block_ptr q', trace s2))
      (os_realloc p 300000 s1) =
      Some (q, Some nb,
            EvMunmap (get_block_ptr p) 200024
            :: EvMemcpy q p 300000 :: EvMmap 300024 :: trace s1) ∧
    q ≠ 0 ∧ bsize nb = 300024 ∧
    observe (λ _ s2, memcpy_lengths (trace s2)) (os_realloc p 300000 s1) =
      Some [300000] ∧
    Z.min (bsize ob) (bsize nb) - HDR = 200000.
Proof.
  exists 268435480, 268636184,
    (run_state (os_malloc 200000) s0),
    (mk_block_meta 200024 STATUS_MAPPED 0),
    (mk_block_meta 300024 STATUS_MAPPED 0).
  split; [vm_compute; reflexivity|].
  split; [vm_compute; reflexivity|].
  split; [reflexivity|]. split; [reflexivity|].
  split; [vm_compute; reflexivity|].
  split; [lia|].
  split; [reflexivity|].
  split; [vm_compute; reflexivity|].
  vm_compute. reflexivity.
Qed.

(** ** Machine arithmetic facts *)

Lemma wrap64_range (z : Z) : 0 ≤ wrap64 z < 2 ^ 64.
Proof. unfold wrap64. apply Z.mod_pos_bound. lia. Qed.

Lemma wrap64_small (z : Z) : 0 ≤ z < 2 ^ 64 → wrap64 z = z.
Proof. intros H. unfold wrap64. apply Z.mod_small. lia. Qed.

Lemma wrap64_mod8 (z : Z) : z mod 8 = 0 → wrap64 z mod 8 = 0.
Proof.
  intros H. unfold wrap64. rewrite Z.mod_mod_divide; [exact H|].
  exists (2 ^ 61). reflexivity.
Qed.

Lemma to_int_mod8 (z : Z) : z mod 8 = 0 → to_int z mod 8 = 0.
Proof.
  intros H. unfold to_int.
  assert (E : (z mod 2 ^ 32) mod 8 = 0).
  { rewrite Z.mod_mod_divide; [exact H|]. exists (2 ^ 29). reflexivity. }
  destruct (z mod 2 ^ 32 <? 2 ^ 31); [exact E|].
  rewrite Zminus_mod, E. reflexivity.
Qed.

Lemma to_int_small (z : Z) : 0 ≤ z < 2 ^ 31 → to_int z = z.
Proof.
  intros H. unfold to_int. rewrite Z.mod_small by lia.
  destruct (z <? 2 ^ 31) eqn:E; [reflexivity | lia].
Qed.

Lemma to_intptr_small (z : Z) : 0 ≤ z < 2 ^ 63 → to_intptr z = z.
Proof.
  intros H. unfold to_intptr. rewrite Z.mod_small by lia.
  destruct (z <? 2 ^ 63) eqn:E; [reflexivity | lia].
Qed.

Lemma ALIGN_eq (x : Z) : ALIGN x = wrap64 (x + 7) / 8 * 8.
Proof.
  unfold ALIGN, ALIGNMENT. change (8 - 1) with 7.
  set (y := wrap64 (x + 7)).
  assert (Hy : 0 ≤ y < 2 ^ 64) by apply wrap64_range.
  unfold wrap64 at 1.
  rewrite <- (Z.land_ones (Z.lnot 7) 64) by lia.
  rewrite (Z.land_comm (Z.lnot 7)), Z.land_assoc.
  rewrite (Z.land_ones y 64) by lia.
  rewrite (Z.mod_small y) by lia.
  rewrite <- Z.ldiff_land.
  change 7 with (Z.ones 3).
  rewrite Z.ldiff_ones_r by lia.
  rewrite Z.shiftr_div_pow2, Z.shiftl_mul_pow2 by lia. reflexivity.
Qed.

Lemma ALIGN_mod8 (x : Z) : ALIGN x mod 8 = 0.
Proof. rewrite ALIGN_eq. apply Z_mod_mult. Qed.

Lemma ALIGN_small (x : Z) : 0 ≤ x ≤ 2 ^ 64 - 8 → x ≤ ALIGN x < x + 8.
Proof.
  intros H. rewrite ALIGN_eq, wrap64_small by lia.
  pose proof (Z.mul_div_le (x + 7) 8 ltac:(lia)) as H1.
  pose proof (Z.mul_succ_div_gt (x + 7) 8 ltac:(lia)) as H2.
  lia.
Qed.

(** ** The Hoare logic *)

Lemma bind_ret_inv {A B : Type} (m : M A) (f : A → M B) s v s' :
  bind m f s = Ret (v, s') →
  ∃ x s1, m s = Ret (x, s1) ∧ f x s1 = Ret (v, s').
Proof.
  unfold bind. destruct (m s) as [[x s1]| | |]; try discriminate.
  intros H. eauto.
Qed.

Lemma hoare_bind {A B : Type} P (R : A → state → Prop) Q (m : M A) (f : A → M B) :
  hoare P m R → (∀ x, hoare (R x) (f x) Q) → hoare P (bind m f) Q.
Proof.
  intros Hm Hf s v s' HP Hr.
  apply bind_ret_inv in Hr as (x & s1 & H1 & H2).
  eapply Hf; [|exact H2]. eapply Hm; eauto.
Qed.

Lemma hoare_ret {A : Type} (P : state → Prop) (Q : A → state → Prop) (v : A) :
  (∀ s, P s → Q v s) → hoare P (ret v) Q.
Proof. intros H s v' s' HP Hr. injection Hr as <- <-. auto. Qed.

Lemma hoare_conseq {A : Type} (P P' : state → Prop) (Q Q' : A → state → Prop) m :
  hoare P' m Q' → (∀ s, P s → P' s) → (∀ v s, Q' v s → Q v s) → hoare P m Q.
Proof. intros H HP HQ s v s' Hs Hr. apply HQ. eapply H; eauto. Qed.

Lemma hoare_load (P : state → Prop) (a : Z) :
  hoare P (load a) (λ b s, hdr s !! a = Some b ∧ P s).
Proof.
  intros s v s' HP Hr. unfold load, lift, hload in Hr.
  destruct (hdr s !! a) eqn:E; [|discriminate].
  injection Hr as <- <-. auto.
Qed.

(** ** Headers and pointers stay multiples of 8 *)

Lemma ptr_ok_0 : ptr_ok 0.
Proof. split; [lia | reflexivity]. Qed.

Lemma hdr_inv_insert h a b :
  hdr_inv h → ptr_ok a → block_ok b → hdr_inv (<[a := b]> h).
Proof.
  intros Hh Ha Hb a' b' Hl. destruct (decide (a = a')) as [->|Hne].
  - rewrite lookup_insert_eq in Hl. injection Hl as <-. auto.
  - rewrite lookup_insert_ne in Hl by exact Hne. eauto.
Qed.

Lemma hdr_inv_filter h (P : Z * block_meta → Prop) `{∀ x, Decision (P x)} :
  hdr_inv h → hdr_inv (filter P h).
Proof.
  intros Hh a b Hl. apply map_lookup_filter_Some in Hl as [Hl _]. eauto.
Qed.

Lemma add_mod8 (a b : Z) : a mod 8 = 0 → b mod 8 = 0 → (a + b) mod 8 = 0.
Proof. intros Ha Hb. rewrite Z.add_mod, Ha, Hb by lia. reflexivity. Qed.

Lemma sub_mod8 (a b : Z) : a mod 8 = 0 → b mod 8 = 0 → (a - b) mod 8 = 0.
Proof. intros Ha Hb. rewrite Zminus_mod, Ha, Hb. reflexivity. Qed.

Lemma obind_ret_inv {A B : Type} (m : outcome A) (f : A → outcome B) v :
  obind m f = Ret v → ∃ x, m = Ret x ∧ f x = Ret v.
Proof. destruct m; simpl; try discriminate. eauto. Qed.

Lemma hload_ret_inv h a b : hload h a = Ret b → h !! a = Some b.
Proof. unfold hload. destruct (h !! a); intros H; inversion H. reflexivity. Qed.

Tactic Notation "ostep" hyp(H) "as" ident(x) ident(E) :=
  apply obind_ret_inv in H as (x & E & H).

Lemma merged_block_ok h a b a' b' :
  hdr_inv h → h !! a = Some b → h !! a' = Some b' →
  block_ok (mk_block_meta (wrap64 (bsize b + bsize b')) (bstatus b) (bnext b')).
Proof.
  intros Hh Ha Ha'. destruct (Hh _ _ Ha) as [_ [Hs _]].
  destruct (Hh _ _ Ha') as [_ [Hs' Hn']].
  split; simpl; [|exact Hn']. apply wrap64_mod8, add_mod8; assumption.
Qed.

Lemma merge_into_prev_inv h cur prev h' cur' :
  hdr_inv h → ptr_ok cur → ptr_ok prev →
  merge_into_prev h cur prev = Ret (h', cur') →
  hdr_inv h' ∧ ptr_ok cur'.
Proof.
  intros Hh Hc Hp Hr. unfold merge_into_prev in Hr.
  ostep Hr as c Ec. apply hload_ret_inv in Ec.
  ostep Hr as pf Epf. destruct pf.
  - ostep Hr as p Ep. apply hload_ret_inv in Ep. inversion Hr; subst.
    split; [|exact Hp]. apply hdr_inv_insert; auto.
    eapply merged_block_ok; eauto.
  - inversion Hr; subst. auto.
Qed.

Lemma merge_next_inv h cur h' :
  hdr_inv h → ptr_ok cur → merge_next h cur = Ret h' → hdr_inv h'.
Proof.
  intros Hh Hc Hr. unfold merge_next in Hr.
  ostep Hr as c Ec. apply hload_ret_inv in Ec.
  ostep Hr as nf Enf. destruct nf.
  - ostep Hr as n En. apply hload_ret_inv in En. inversion Hr; subst.
    apply hdr_inv_insert; auto. eapply merged_block_ok; eauto.
  - inversion Hr; subst. auto.
Qed.

Lemma coalesce_loop_inv fuel :
  ∀ h cur prev h' r,
    hdr_inv h → ptr_ok cur → ptr_ok prev →
    coalesce_loop fuel h cur prev = Ret (h', r) →
    hdr_inv h' ∧ ptr_ok r.
Proof.
  induction fuel as [|fuel IH]; intros h cur prev h' r Hh Hc Hp Hr;
    simpl in Hr; [discriminate|].
  destruct (cur =? 0); [inversion Hr; subst; auto|].
  ostep Hr as c Ec. apply hload_ret_inv in Ec.
  destruct (is_free c); [|apply (IH _ _ _ _ _ Hh) in Hr; auto; apply (Hh _ _ Ec)].
  ostep Hr as hc Ehc. destruct hc as [h1 cur1].
  apply merge_into_prev_inv in Ehc as [Hh1 Hc1]; auto. simpl in Hr.
  ostep Hr as h2 Eh2. apply merge_next_inv in Eh2; auto.
  ostep Hr as c2 Ec2. apply hload_ret_inv in Ec2.
  apply (IH _ _ _ _ _ Eh2) in Hr; auto. apply (Eh2 _ _ Ec2).
Qed.

Lemma find_best_fit_loop_inv fuel :
  ∀ h size cur best r,
    hdr_inv h → ptr_ok cur → ptr_ok best →
    find_best_fit_loop fuel h size cur best = Ret r → ptr_ok r.
Proof.
  induction fuel as [|fuel IH]; intros h size cur best r Hh Hc Hb Hr;
    simpl in Hr; [discriminate|].
  destruct (cur =? 0); [inversion Hr; subst; auto|].
  ostep Hr as c Ec. apply hload_ret_inv in Ec.
  destruct (Hh _ _ Ec) as [_ [_ Hn]].
  destruct (is_free c && (size <=? bsize c)).
  - ostep Hr as better Eb.
    destruct better; (eapply IH; [exact Hh | exact Hn | | exact Hr]; assumption).
  - eapply IH; [exact Hh | exact Hn | | exact Hr]; assumption.
Qed.

Lemma realloc_expand_loop_inv fuel :
  ∀ h block next h',
    hdr_inv h → ptr_ok block →
    realloc_expand_loop fuel h block next = Ret h' → hdr_inv h'.
Proof.
  induction fuel as [|fuel IH]; intros h block next h' Hh Hb Hr;
    simpl in Hr; [discriminate|].
  destruct (next =? 0); [inversion Hr; subst; auto|].
  ostep Hr as n En. apply hload_ret_inv in En.
  destruct (is_free n); [|inversion Hr; subst; auto].
  ostep Hr as b Eb. apply hload_ret_inv in Eb. ostep Hr as b1 Eb1.
  eapply IH; [| exact Hb | exact Hr].
  apply hdr_inv_insert; auto. eapply merged_block_ok; eauto.
Qed.

Lemma inv_bind {A B : Type} (R : A → Prop) (Q : B → Prop) (m : M A) (f : A → M B) :
  inv_triple m R → (∀ x, R x → inv_triple (f x) Q) → inv_triple (bind m f) Q.
Proof.
  intros Hm Hf s v s' HP Hr.
  apply bind_ret_inv in Hr as (x & s1 & H1 & H2).
  destruct (Hm _ _ _ HP H1) as [Hi HR]. eapply (Hf x HR); eauto.
Qed.

Lemma inv_ret {A : Type} (Q : A → Prop) (v : A) : Q v → inv_triple (ret v) Q.
Proof. intros H s v' s' HP Hr. inversion Hr; subst. auto. Qed.

Lemma inv_weaken {A : Type} (Q Q' : A → Prop) m :
  inv_triple m Q' → (∀ v, Q' v → Q v) → inv_triple m Q.
Proof. intros H HQ s v s' HP Hr. destruct (H _ _ _ HP Hr). auto. Qed.

Lemma inv_get_global_base : inv_triple (get global_base) ptr_ok.
Proof. intros s v s' HP Hr. inversion Hr; subst. split; [auto | apply HP]. Qed.

Lemma inv_sysconf :
  inv_triple sysconf_SC_PAGESIZE (λ p, 0 < p < 2 ^ 63 ∧ p mod 8 = 0).
Proof. intros s v s' HP Hr. inversion Hr; subst. split; [auto | apply HP]. Qed.

Lemma inv_load (a : Z) : inv_triple (load a) (λ b, ptr_ok a ∧ block_ok b).
Proof.
  intros s v s' HP Hr.
  destruct (hoare_load (λ _, True) a s v s' I Hr) as [Hl _].
  unfold load, lift in Hr. destruct (hload (hdr s) a); inversion Hr; subst.
  split; [auto|]. apply (inv_hdr _ HP _ _ Hl).
Qed.

Lemma inv_store (a : Z) (b : block_meta) :
  ptr_ok a → block_ok b → inv_triple (store a b) (λ _, True).
Proof.
  intros Ha Hb s v s' HP Hr. inversion Hr; subst. split; [|exact I].
  destruct HP. constructor; simpl; auto using hdr_inv_insert.
Qed.

Lemma inv_set_size (a v : Z) : v mod 8 = 0 → inv_triple (set_size a v) (λ _, True).
Proof.
  intros Hv. eapply inv_bind; [apply inv_load|]. intros b [Ha [Hs Hn]].
  apply inv_store; [exact Ha|]. split; simpl; auto.
Qed.

Lemma inv_set_status (a : Z) (v : status_t) : inv_triple (set_status a v) (λ _, True).
Proof.
  eapply inv_bind; [apply inv_load|]. intros b [Ha [Hs Hn]].
  apply inv_store; [exact Ha|]. split; simpl; auto.
Qed.

Lemma inv_set_next (a v : Z) : ptr_ok v → inv_triple (set_next a v) (λ _, True).
Proof.
  intros Hv. eapply inv_bind; [apply inv_load|]. intros b [Ha [Hs Hn]].
  apply inv_store; [exact Ha|]. split; simpl; auto.
Qed.

Lemma inv_DIE (c : bool) (msg : string) : inv_triple (DIE c msg) (λ _, c = false).
Proof.
  intros s v s' HP Hr. unfold DIE in Hr. destruct c; inversion Hr; subst. auto.
Qed.

Lemma inv_sbrk (incr : Z) :
  0 ≤ incr → incr mod 8 = 0 →
  inv_triple (sbrk incr) (λ r, r = -1 ∨ (0 < r ∧ r mod 8 = 0)).
Proof.
  intros Hi Hm s v s' HP Hr. unfold sbrk in Hr. destruct HP.
  destruct ((0 <=? brk s + incr) && (brk s + incr <=? brk_max s));
    inversion Hr; subst; (split; [constructor; simpl; auto|]); auto.
  split; [lia|]. apply add_mod8; tauto.
Qed.

Lemma round_up_ok (n q : Z) :
  0 < n → 0 < q → q mod 8 = 0 → 0 ≤ round_up n q ∧ round_up n q mod 8 = 0.
Proof.
  intros Hn Hq Hm. unfold round_up. split.
  - apply Z.mul_nonneg_nonneg; [|lia]. apply Z.div_pos; lia.
  - apply Z.mod_divide; [lia|]. apply Z.divide_mul_r.
    apply Z.mod_divide; [lia | exact Hm].
Qed.

Lemma inv_mmap (len : Z) :
  inv_triple (mmap len) (λ r, r = MAP_FAILED ∨ (0 < r ∧ r mod 8 = 0)).
Proof.
  intros s v s' HP Hr. unfold mmap in Hr. destruct HP.
  destruct (0 <? len) eqn:El; simpl in Hr.
  - destruct (map_next s + len <=? map_max s); inversion Hr; subst;
      (split; [constructor; simpl; auto|]); auto.
    destruct (round_up_ok len (page_size s)) as [H1 H2]; [lia|lia|tauto|].
    split; [lia|]. apply add_mod8; tauto.
  - inversion Hr; subst. split; [constructor; simpl; auto|]. auto.
Qed.

Lemma inv_munmap (addr len : Z) : inv_triple (munmap addr len) (λ _, True).
Proof.
  intros s v s' HP Hr. unfold munmap in Hr. destruct HP.
  destruct ((len =? 0) || negb (addr mod page_size s =? 0));
    inversion Hr; subst; (split; [constructor; simpl; auto|]); auto.
  apply hdr_inv_filter; auto.
Qed.

Lemma inv_memset (dst c n : Z) : inv_triple (memset dst c n) (λ _, True).
Proof.
  intros s v s' HP Hr. inversion Hr; subst. destruct HP.
  split; [constructor; simpl; auto|]. auto.
Qed.

Lemma inv_memcpy (dst src n : Z) : inv_triple (memcpy dst src n) (λ _, True).
Proof.
  intros s v s' HP Hr. inversion Hr; subst. destruct HP.
  split; [constructor; simpl; auto|]. auto.
Qed.

Lemma inv_coalesce_blocks : inv_triple coalesce_blocks ptr_ok.
Proof.
  intros s v s' HP Hr. unfold coalesce_blocks in Hr.
  destruct (coalesce_loop _ _ _ _) as [[h r]| | |] eqn:E; inversion Hr; subst.
  destruct HP.
  apply coalesce_loop_inv in E as [Hh Hv]; auto using ptr_ok_0.
  split; [constructor; simpl; auto|]. auto.
Qed.

Lemma inv_find_best_fit (size : Z) : inv_triple (find_best_fit size) ptr_ok.
Proof.
  intros s v s' HP Hr. unfold find_best_fit, lift in Hr.
  destruct (find_best_fit_loop _ _ _ _ _) eqn:E; inversion Hr; subst.
  split; [auto|]. destruct HP.
  eapply find_best_fit_loop_inv in E; eauto using ptr_ok_0.
Qed.

(** ** [os_malloc] and [os_calloc] run the common body *)

Lemma os_malloc_body (size : Z) (s : state) :
  size ≠ 0 →
  os_malloc size s =
  alloc_body (ret MMAP_THRESHOLD) request_space_malloc (λ _, ret tt)
    (aligned_size_of size) s.
Proof.
  intros H. unfold os_malloc. destruct (size =? 0) eqn:E; [lia|]. reflexivity.
Qed.

Lemma os_calloc_body (nmemb size : Z) (s : state) :
  nmemb ≠ 0 → size ≠ 0 →
  os_calloc nmemb size s =
  alloc_body sysconf_SC_PAGESIZE request_space_calloc
    (λ p, memset p 0 (wrap64 (size * nmemb)))
    (aligned_size_of (wrap64 (size * nmemb))) s.
Proof.
  intros H1 H2. unfold os_calloc.
  destruct (nmemb =? 0) eqn:E1; [lia|]. destruct (size =? 0) eqn:E2; [lia|].
  reflexivity.
Qed.

Ltac istep lem := eapply inv_bind; [apply lem | cbv beta].

Lemma inv_request_space_malloc (size : Z) :
  0 ≤ size < 2 ^ 64 → size mod 8 = 0 →
  inv_triple (request_space_malloc size) (λ r, 0 < r ∧ r mod 8 = 0).
Proof.
  intros Hs Hm. unfold request_space_malloc.
  destruct (size <? MMAP_THRESHOLD) eqn:E.
  - apply Z.ltb_lt in E. unfold MMAP_THRESHOLD in E.
    rewrite to_intptr_small by lia.
    istep (inv_sbrk 0); [lia | reflexivity |]. intros _ _.
    istep (inv_sbrk size); [lia | assumption |]. intros block Hb.
    istep inv_DIE. intros _ Hd.
    assert (Hblock : 0 < block ∧ block mod 8 = 0) by (destruct Hb; [lia | auto]).
    istep inv_store.
    + split; [lia | tauto].
    + split; simpl; [assumption | apply ptr_ok_0].
    + intros _ _. apply inv_ret. exact Hblock.
  - istep inv_mmap. intros block Hb.
    istep inv_DIE. intros _ Hd. unfold MAP_FAILED in *.
    assert (Hblock : 0 < block ∧ block mod 8 = 0) by (destruct Hb; [lia | auto]).
    istep inv_store.
    + split; [lia | tauto].
    + split; simpl; [assumption | apply ptr_ok_0].
    + intros _ _. apply inv_ret. exact Hblock.
Qed.

Lemma inv_request_space_calloc (size : Z) :
  0 ≤ size < 2 ^ 64 → size mod 8 = 0 →
  inv_triple (request_space_calloc size) (λ r, 0 < r ∧ r mod 8 = 0).
Proof.
  intros Hs Hm. unfold request_space_calloc.
  istep inv_sysconf. intros page [Hp _].
  rewrite (wrap64_small page) by lia.
  destruct (size <? page) eqn:E.
  - apply Z.ltb_lt in E. rewrite to_intptr_small by lia.
    istep (inv_sbrk 0); [lia | reflexivity |]. intros _ _.
    istep (inv_sbrk size); [lia | assumption |]. intros block Hb.
    istep inv_DIE. intros _ Hd.
    assert (Hblock : 0 < block ∧ block mod 8 = 0) by (destruct Hb; [lia | auto]).
    istep inv_store.
    + split; [lia | tauto].
    + split; simpl; [assumption | apply ptr_ok_0].
    + intros _ _. apply inv_ret. exact Hblock.
  - istep inv_mmap. intros block Hb.
    istep inv_DIE. intros _ Hd. unfold MAP_FAILED in *.
    assert (Hblock : 0 < block ∧ block mod 8 = 0) by (destruct Hb; [lia | auto]).
    istep inv_store.
    + split; [lia | tauto].
    + split; simpl; [assumption | apply ptr_ok_0].
    + intros _ _. apply inv_ret. exact Hblock.
Qed.

Lemma inv_split_block (block size : Z) :
  ptr_ok block → 0 ≤ size → size mod 8 = 0 →
  inv_triple (split_block block size) (λ _, True).
Proof.
  intros [Hb0 Hb8] Hs Hm. unfold split_block.
  istep inv_load. intros b [_ [Hbs Hbn]].
  assert (Hnew : ptr_ok (block + size)) by (split; [lia | apply add_mod8; auto]).
  istep inv_store.
  - exact Hnew.
  - split; simpl; [|exact Hbn]. apply wrap64_mod8, sub_mod8; auto.
  - intros _ _. istep inv_set_size; [exact Hm|]. intros _ _.
    apply inv_set_next. exact Hnew.
Qed.

Lemma inv_first_time_prealloc : inv_triple first_time_prealloc (λ _, True).
Proof.
  intros s v s' HP Hr. split; [|exact I].
  unfold first_time_prealloc, bind, sbrk, modify, DIE, store in Hr.
  change (to_intptr MMAP_THRESHOLD) with 131072 in Hr. cbn [brk log set_brk] in Hr.
  destruct HP as [Hh Hb [Hk0 Hk8] Hm Hp].
  destruct ((0 <=? brk s + 0) && (brk s + 0 <=? brk_max s));
    cbn [brk brk_max set_global_base log set_brk] in Hr;
    destruct ((0 <=? _) && (_ <=? brk_max s)); cbn in Hr;
    try discriminate;
    destruct (_ =? -1) eqn:E; try discriminate;
    inversion Hr; subst; clear Hr;
    (constructor; cbn;
     [ apply hdr_inv_insert; [exact Hh | split; [lia | auto] |
                              split; [reflexivity | apply ptr_ok_0]]
     | split; [lia | auto]
     | try (split; [lia | apply add_mod8; [auto | reflexivity]])
     | exact Hm | exact Hp ]).
  all: try (split; [lia | auto]).
  all: rewrite ?Z.add_0_r; auto.
Qed.

Lemma aligned_size_of_mod8 (size : Z) : aligned_size_of size mod 8 = 0.
Proof.
  unfold aligned_size_of.
  apply to_int_mod8, wrap64_mod8, add_mod8; apply ALIGN_mod8.
Qed.

Lemma inv_split_if (A : Z) (block : Z) (b : block_meta) :
  ptr_ok block → A mod 8 = 0 →
  inv_triple
    (if wrap64 (A + ALIGN (sizeof_block_meta + ALIGN 1)) <=? bsize b
     then split_block block (wrap64 A) else ret tt) (λ _, True).
Proof.
  intros Hb HA. destruct (_ <=? _); [|apply inv_ret; exact I].
  apply inv_split_block; [exact Hb | apply wrap64_range | apply wrap64_mod8, HA].
Qed.

Section alloc_body_inv.
Variables (threshold : M Z) (request_space : Z → M Z) (zero : Z → M unit).
Hypothesis Hthr : inv_triple threshold (λ _, True).
Hypothesis Hreq : ∀ size, 0 ≤ size < 2 ^ 64 → size mod 8 = 0 →
  inv_triple (request_space size) (λ r, 0 < r ∧ r mod 8 = 0).
Hypothesis Hzero : ∀ p, inv_triple (zero p) (λ _, True).

Lemma inv_alloc_body (A : Z) :
  A mod 8 = 0 →
  inv_triple (alloc_body threshold request_space zero A)
    (λ p, 0 < p ∧ p mod 8 = 0).
Proof.
  intros HA. unfold alloc_body.
  change (ALIGN sizeof_block_meta) with 24.
  istep inv_get_global_base. intros base _.
  istep Hthr. intros thr _.
  eapply inv_bind with (R := λ _, True).
  { destruct (_ && _); [apply inv_first_time_prealloc | apply inv_ret; exact I]. }
  intros _ _.
  istep inv_coalesce_blocks. intros last Hlast.
  istep inv_find_best_fit. intros block Hblock.
  destruct (block =? 0) eqn:Eb; cbn [negb].
  - eapply inv_bind with (R := λ lf : bool, lf = true → last ≠ 0).
    { destruct (last =? 0) eqn:El; [apply inv_ret; discriminate|].
      istep inv_load. intros l _. apply inv_ret. lia. }
    intros [|] Hlf.
    + specialize (Hlf eq_refl).
      istep inv_load. intros l [_ [Hls _]].
      istep Hreq; [apply wrap64_range | apply wrap64_mod8, sub_mod8; auto |].
      intros nblock [Hn0 Hn8].
      destruct (nblock =? 0) eqn:En; [lia|].
      istep inv_load. intros l' [_ [Hls' _]].
      istep inv_load. intros nb [_ [Hnb _]].
      istep inv_set_size; [apply wrap64_mod8, add_mod8; auto|]. intros _ _.
      istep inv_load. intros b _.
      istep inv_split_if; [exact Hlast | exact HA |]. intros _ _.
      istep inv_set_status. intros _ _.
      istep Hzero. intros _ _.
      apply inv_ret. destruct Hlast. split; [lia | apply add_mod8; auto].
    + istep Hreq; [apply wrap64_range | apply wrap64_mod8, HA |].
      intros nblock [Hn0 Hn8].
      destruct (nblock =? 0) eqn:En; [lia|].
      istep inv_load. intros nb _.
      eapply inv_bind with (R := λ _, True).
      { destruct (status_eqb _ _); [|apply inv_ret; exact I].
        istep inv_set_next; [split; [lia | auto]|]. intros _ _.
        istep inv_load. intros l [_ [Hls _]].
        destruct (is_free l); [|apply inv_ret; exact I].
        istep inv_load. intros nb1 [_ [Hnb1 _]].
        istep inv_set_size; [apply wrap64_mod8, add_mod8; auto|]. intros _ _.
        istep inv_load. intros nb2 [_ [_ Hnx]].
        apply inv_set_next. exact Hnx. }
      intros _ _. istep Hzero. intros _ _.
      apply inv_ret. split; [lia | apply add_mod8; auto].
  - istep inv_load. intros b _.
    istep inv_split_if; [exact Hblock | exact HA |]. intros _ _.
    istep inv_set_status. intros _ _.
    istep Hzero. intros _ _.
    apply inv_ret. destruct Hblock. split; [lia | apply add_mod8; auto].
Qed.
End alloc_body_inv.

Lemma inv_os_malloc (size : Z) :
  inv_triple (os_malloc size) (λ p, ptr_ok p ∧ (size ≠ 0 → p ≠ 0)).
Proof.
  destruct (decide (size = 0)) as [->|Hne].
  - apply inv_ret. split; [apply ptr_ok_0 | congruence].
  - intros s v s' HP Hr. rewrite os_malloc_body in Hr by exact Hne.
    eapply inv_alloc_body in Hr; eauto.
    + destruct Hr as [Hi [H0 H8]]. split; [exact Hi|]. split; [split|]; lia.
    + apply inv_ret. exact I.
    + apply inv_request_space_malloc.
    + intros p. apply inv_ret. exact I.
    + apply aligned_size_of_mod8.
Qed.

Lemma inv_os_calloc (nmemb size : Z) :
  inv_triple (os_calloc nmemb size)
    (λ p, ptr_ok p ∧ (nmemb ≠ 0 → size ≠ 0 → p ≠ 0)).
Proof.
  destruct (decide (nmemb = 0)) as [->|Hk].
  { apply inv_ret. split; [apply ptr_ok_0 | congruence]. }
  destruct (decide (size = 0)) as [->|Hn].
  { unfold os_calloc. rewrite orb_true_r.
    apply inv_ret. split; [apply ptr_ok_0 | congruence]. }
  intros s v s' HP Hr. rewrite os_calloc_body in Hr by assumption.
  eapply inv_alloc_body in Hr; eauto.
  - destruct Hr as [Hi [H0 H8]]. split; [exact Hi|]. split; [split|]; lia.
  - eapply inv_weaken; [apply inv_sysconf | auto].
  - apply inv_request_space_calloc.
  - intros p. apply inv_memset.
  - apply aligned_size_of_mod8.
Qed.

Lemma inv_os_free (ptr : Z) : inv_triple (os_free ptr) (λ _, True).
Proof.
  unfold os_free. destruct (ptr =? 0); [apply inv_ret; exact I|].
  istep inv_load. intros b _.
  destruct (status_eqb _ _); [apply inv_set_status|].
  istep inv_munmap. intros r _.
  eapply inv_weaken; [apply inv_DIE | auto].
Qed.

Lemma inv_realloc_expand (block size : Z) :
  inv_triple (realloc_expand block size) (λ r, r = block ∨ r = 0).
Proof.
  unfold realloc_expand.
  istep inv_load. intros b [Hb _].
  eapply inv_bind with (R := λ _, True).
  { intros s v s' HP Hr.
    destruct (realloc_expand_loop _ _ _ _) eqn:E; inversion Hr; subst.
    destruct HP. apply realloc_expand_loop_inv in E; auto.
    split; [constructor; simpl; auto | exact I]. }
  intros _ _. istep inv_load. intros b' _.
  destruct (_ <=? _); apply inv_ret; auto.
Qed.

Lemma inv_realloc_move (ptr size : Z) :
  ptr_ok ptr →
  inv_triple
    (let* new_ptr := os_malloc size in
     let new_block := get_block_ptr new_ptr in
     if new_ptr =? 0 then ret 0
     else
       let* nb := load new_block in
       memcpy new_ptr ptr (wrap64 (bsize nb - ALIGN sizeof_block_meta));;
       os_free ptr;;
       ret new_ptr) ptr_ok.
Proof.
  intros Hp. istep inv_os_malloc. intros new_ptr [Hn _].
  destruct (new_ptr =? 0); [apply inv_ret, ptr_ok_0|].
  istep inv_load. intros nb _.
  istep inv_memcpy. intros _ _.
  istep inv_os_free. intros _ _.
  apply inv_ret. exact Hn.
Qed.

Lemma inv_os_realloc (ptr size : Z) : inv_triple (os_realloc ptr size) ptr_ok.
Proof.
  unfold os_realloc.
  destruct (ptr =? 0).
  { eapply inv_weaken; [apply inv_os_malloc | intros v [H _]; exact H]. }
  destruct (size =? 0).
  { istep inv_os_free. intros _ _. apply inv_ret, ptr_ok_0. }
  istep inv_load. intros b [[Hb0 Hb8] _].
  assert (Hptr : ptr_ok ptr).
  { unfold get_block_ptr in *. change (ALIGN sizeof_block_meta) with 24 in *.
    split; [lia|]. replace ptr with ((ptr - 24) + 24) by lia.
    apply add_mod8; auto. }
  assert (Hblk : ptr_ok (get_block_ptr ptr)) by (split; assumption).
  destruct (status_eqb (bstatus b) STATUS_FREE); [apply inv_ret, ptr_ok_0|].
  destruct (bsize b =? _); [apply inv_ret, Hptr|].
  destruct (status_eqb (bstatus b) STATUS_MAPPED).
  { apply inv_realloc_move, Hptr. }
  assert (HA : wrap64 (ALIGN size + ALIGN sizeof_block_meta) mod 8 = 0).
  { apply wrap64_mod8, add_mod8; apply ALIGN_mod8. }
  eapply inv_bind with (R := λ _, True).
  { destruct (_ <=? bsize b); [|apply inv_ret; exact I].
    destruct (_ <=? bsize b); [|apply inv_ret; exact I].
    istep inv_split_block; [exact Hblk | apply wrap64_range | exact HA |].
    intros _ _. apply inv_ret. exact I. }
  intros [|] _; [apply inv_ret, Hptr|].
  istep inv_coalesce_blocks. intros _ _.
  istep inv_realloc_expand. intros block Hblock.
  destruct (block =? 0) eqn:E; cbn [negb].
  - apply inv_realloc_move, Hptr.
  - assert (block = get_block_ptr ptr) as -> by (destruct Hblock; [auto | lia]).
    istep inv_load. intros b' _.
    eapply inv_bind with (R := λ _, True).
    { destruct (_ <=? bsize b'); [|apply inv_ret; exact I].
      apply inv_split_block; [exact Hblk | apply wrap64_range | exact HA]. }
    intros _ _. apply inv_ret, Hptr.
Qed.

(** ** The [int] aligned size and the header *)

Lemma state_inv_s0 : state_inv s0.
Proof.
  constructor; simpl.
  - intros a b H. rewrite lookup_empty in H. discriminate.
  - apply ptr_ok_0.
  - split; [lia | reflexivity].
  - split; [lia | reflexivity].
  - split; [lia | reflexivity].
Qed.

Lemma run_state_spec {A : Type} (m : M A) (s : state) (v : A) :
  observe (λ x _, x) (m s) = Some v → m s = Ret (v, run_state m s).
Proof.
  unfold observe, run_state. destruct (m s) as [[x s1]| | |]; try discriminate.
  intros H. inversion H; subst. reflexivity.
Qed.


(** ** Zeroed-allocate *)

Lemma hoare_any {A : Type} (P : state → Prop) (m : M A) :
  hoare P m (λ _ _, True).
Proof. intros s v s' _ _. exact I. Qed.

Ltac hskip :=
  eapply hoare_bind with (R := λ _ _, True); [apply hoare_any | cbv beta].

Lemma hoare_memset_ret (n p : Z) :
  hoare (λ _, True) (memset p 0 n;; ret p) (zeroed n).
Proof.
  intros s v s' _ Hr. inversion Hr; subst. intros i Hi. simpl.
  destruct (v <=? v + i) eqn:E1; [|lia].
  destruct (v + i <? v + n) eqn:E2; [reflexivity | lia].
Qed.

Lemma alloc_body_zeroed (threshold : M Z) (request_space : Z → M Z) (n A : Z) :
  hoare (λ _, True)
    (alloc_body threshold request_space (λ p, memset p 0 n) A)
    (λ p s', p ≠ 0 → zeroed n p s').
Proof.
  assert (Hend : ∀ p, hoare (λ _, True) (memset p 0 n;; ret p)
                        (λ p s', p ≠ 0 → zeroed n p s')).
  { intros p. eapply hoare_conseq; [apply hoare_memset_ret | auto | auto]. }
  assert (Hnull : hoare (λ _, True) (ret 0) (λ p s', p ≠ 0 → zeroed n p s')).
  { apply hoare_ret. intros s _ H. congruence. }
  unfold alloc_body.
  hskip. intros base. hskip. intros thr. hskip. intros _.
  hskip. intros last. hskip. intros block.
  destruct (negb (block =? 0)).
  - hskip. intros b. hskip. intros _. hskip. intros _. apply Hend.
  - hskip. intros [|].
    + hskip. intros l. hskip. intros nblock.
      destruct (nblock =? 0); [exact Hnull|].
      hskip. intros l'. hskip. intros nb. hskip. intros _.
      hskip. intros b. hskip. intros _. hskip. intros _. apply Hend.
    + hskip. intros nblock.
      destruct (nblock =? 0); [exact Hnull|].
      hskip. intros nb. hskip. intros _. apply Hend.
Qed.

(** C7, as stated, fails when the product leaves the word range: at count
    [2^60 + 1] and element size [16] the call returns a non-null pointer and
    the byte at offset 16, below [count * size], is not zero. *)
Lemma os_calloc_overflow_not_zeroed :
  ¬ (∀ (s s' : state) (k n p : Z),
       state_inv s → 0 < k < 2 ^ 64 → 0 < n < 2 ^ 64 →
       os_calloc k n s = Ret (p, s') → p ≠ 0 →
       ∀ i, 0 ≤ i < k * n → mem s' (p + i) = 0).
Proof.
  intros H.
  specialize (H s0 (run_state (os_calloc (2 ^ 60 + 1) 16) s0)
                (2 ^ 60 + 1) 16 65560 state_inv_s0).
  assert (E : mem (run_state (os_calloc (2 ^ 60 + 1) 16) s0) (65560 + 16) = 0).
  { apply H; try lia. apply run_state_spec. vm_compute. reflexivity. }
  vm_compute in E. discriminate.
Qed.

(** C7 (amended): from a state that satisfies [state_inv], a call that
    returns does so with null exactly when a factor is zero, whatever the
    product; and when both factors are positive and [count * size] fits the
    machine word, the first [count * size] bytes of the returned payload are
    zero. *)
Theorem os_calloc_zeroes_payload (s s' : state) (k n p : Z) :
  state_inv s →
  os_calloc k n s = Ret (p, s') →
  (p = 0 ↔ k = 0 ∨ n = 0) ∧
  (0 < k → 0 < n → k * n < 2 ^ 64 →
   p ≠ 0 ∧ ∀ i, 0 ≤ i < k * n → mem s' (p + i) = 0).
Proof.
  intros Hs Hr.
  destruct (inv_os_calloc k n s p s' Hs Hr) as [_ [_ Hnz]].
  destruct (decide (k = 0)) as [->|Hk0].
  { inversion Hr; subst. split; [tauto | lia]. }
  destruct (decide (n = 0)) as [->|Hn0].
  { unfold os_calloc in Hr. rewrite orb_true_r in Hr. inversion Hr; subst.
    split; [tauto | lia]. }
  split; [split; [intros ->; tauto | intros [?|?]; congruence]|].
  intros Hk Hn Hkn. split; [auto|].
  rewrite os_calloc_body in Hr by assumption.
  apply alloc_body_zeroed in Hr; [|exact I].
  specialize (Hr (Hnz Hk0 Hn0)). rewrite wrap64_small in Hr by nia.
  rewrite (Z.mul_comm k n). exact Hr.
Qed.

Lemma os_calloc_zeroes_payload_witness :
  (65560 = 0 ↔ 1000 = 0 ∨ 1 = 0) ∧
  65560 ≠ 0 ∧
  ∀ i, 0 ≤ i < 1000 * 1 →
    mem (run_state (os_calloc 1000 1) s0) (65560 + i) = 0.
Proof.
  destruct (os_calloc_zeroes_payload s0 _ 1000 1 65560 state_inv_s0
              (run_state_spec (os_calloc 1000 1) s0 65560 eq_refl))
    as [Hnull Hzero].
  split; [exact Hnull | apply Hzero; lia].
Defined.

(** ** The registry as a list *)

Lemma lseg_app h a l1 l2 z :
  lseg h a (l1 ++ l2) z ↔ ∃ m, lseg h a l1 m ∧ lseg h m l2 z.
Proof.
  revert a. induction l1 as [|x l1 IH]; intros a; simpl.
  - split; [intros H; eauto | intros (m & -> & H); exact H].
  - rewrite IH. split.
    + intros (H1 & H2 & H3 & m & H4 & H5). eauto 10.
    + intros (m & (H1 & H2 & H3 & H4) & H5). eauto 10.
Qed.

Lemma chain_functional h a l1 l2 : chain h a l1 → chain h a l2 → l1 = l2.
Proof.
  unfold chain. revert a l2. induction l1 as [|x l1 IH]; intros a [|y l2]; simpl.
  - reflexivity.
  - intros -> (H1 & H2 & _). congruence.
  - intros (H1 & H2 & _) ->. congruence.
  - intros (H1 & H2 & H3 & H4) (H5 & H6 & H7 & H8).
    assert (x = y) as <-.
    { destruct x, y; simpl in *. subst. rewrite H3 in H7. congruence. }
    f_equal. eapply IH; eauto.
Qed.

Lemma chain_not_in_tail h x l : chain h x.1 (x :: l) → x.1 ∉ l.*1.
Proof.
  intros (_ & Hx & Hl & Hc) Hin.
  apply list_elem_of_fmap in Hin as (y & Hy & Hin).
  apply list_elem_of_split in Hin as (l1 & l2 & ->).
  change (lseg h (bnext x.2) (l1 ++ y :: l2) 0) in Hc.
  pose proof Hc as Hc'.
  apply lseg_app in Hc' as (m & _ & Hm). simpl in Hm.
  destruct Hm as (_ & _ & Hly & Hm). rewrite <- Hy, Hl in Hly.
  injection Hly as Hly. rewrite <- Hly in Hm.
  pose proof (chain_functional _ _ _ _ Hc Hm) as E.
  apply (f_equal length) in E. rewrite length_app in E. simpl in E. lia.
Qed.

Lemma chain_NoDup h a l : chain h a l → NoDup l.*1.
Proof.
  revert a. induction l as [|x l IH]; intros a Hc; simpl.
  - constructor.
  - constructor.
    + apply (chain_not_in_tail h). destruct Hc as (-> & H). split; auto.
    + apply (IH (bnext x.2)). apply Hc.
Qed.

Lemma chain_lookup h a l x : chain h a l → x ∈ l → h !! x.1 = Some x.2 ∧ x.1 ≠ 0.
Proof.
  unfold chain. revert a. induction l as [|y l IH]; intros a Hc Hin.
  - inversion Hin.
  - destruct Hc as (_ & H1 & H2 & H3).
    apply elem_of_cons in Hin as [->|Hin]; [auto|]. eapply IH; eauto.
Qed.

Lemma chain_length h a l : chain h a l → (length l ≤ size h)%nat.
Proof.
  intros Hc. pose proof (chain_NoDup _ _ _ Hc) as Hnd.
  rewrite <- (length_fmap fst l).
  rewrite <- (size_list_to_set (C := gset Z) l.*1 Hnd).
  rewrite <- (size_dom h). apply subseteq_size.
  intros a' Ha. apply elem_of_list_to_set in Ha.
  apply list_elem_of_fmap in Ha as (y & -> & Hy).
  apply elem_of_dom. exists y.2. eapply chain_lookup; eauto.
Qed.

Lemma lseg_insert_notin h x b a l z :
  x ∉ l.*1 → lseg (<[x := b]> h) a l z ↔ lseg h a l z.
Proof.
  revert a. induction l as [|y l IH]; intros a Hn; simpl; [tauto|].
  simpl in Hn. apply not_elem_of_cons in Hn as [Hn1 Hn2].
  rewrite lookup_insert_ne by congruence. rewrite IH by exact Hn2. tauto.
Qed.

(** The executable walk computes the chain. *)
Lemma registry_loop_chain h :
  ∀ l a fuel, chain h a l → (length l < fuel)%nat →
    registry_loop fuel h a = Ret l.
Proof.
  unfold chain.
  induction l as [|x l IH]; intros a fuel Hc Hf; destruct fuel; simpl in *;
    try lia.
  - subst. reflexivity.
  - destruct Hc as (-> & H1 & H2 & H3).
    destruct (x.1 =? 0) eqn:E; [lia|].
    unfold hload. rewrite H2. simpl. rewrite (IH _ fuel H3) by lia.
    simpl. destruct x; reflexivity.
Qed.

Lemma registry_is_registry s l : registry_is s l → registry s = Ret l.
Proof.
  intros H. unfold registry. apply registry_loop_chain; [exact H|].
  unfold walk_fuel. pose proof (chain_length _ _ _ H). lia.
Qed.

(** ** Best fit *)

Lemma fits_test size b : is_free b && (size <=? bsize b) = true ↔ fits size b.
Proof.
  unfold fits, is_free. rewrite andb_true_iff, status_eqb_eq, Z.leb_le. tauto.
Qed.

Lemma find_best_fit_loop_spec h size :
  ∀ l fuel cur done best,
    lseg h cur l 0 → (length l < fuel)%nat →
    best_fit_of size done best →
    (∀ x, x ∈ done → h !! x.1 = Some x.2) →
    ∃ r, find_best_fit_loop fuel h size cur best = Ret r ∧
         best_fit_of size (done ++ l) r.
Proof.
  induction l as [|x l IH]; intros fuel cur done best Hc Hf Hb Hd;
    destruct fuel; simpl in *; try lia.
  - subst. simpl. rewrite app_nil_r. eauto.
  - destruct Hc as (-> & Hx0 & Hx & Hc).
    destruct (x.1 =? 0) eqn:E; [lia|]. unfold hload at 1. rewrite Hx. simpl.
    assert (Hd' : ∀ y, y ∈ done ++ [x] → h !! y.1 = Some y.2).
    { intros y Hy. apply elem_of_app in Hy as [Hy|Hy]; [auto|].
      apply list_elem_of_singleton in Hy as ->. exact Hx. }
    replace (done ++ x :: l) with ((done ++ [x]) ++ l)
      by (rewrite <- app_assoc; reflexivity).
    destruct (is_free x.2 && (size <=? bsize x.2)) eqn:Efit.
    + apply fits_test in Efit.
      destruct Hb as [[-> Hnone] | (Hbest & pre & b & post & -> & Hfb & Hpre & Hpost)].
      * simpl. apply IH; [exact Hc | lia | | exact Hd'].
        right. split; [exact Hx0|]. exists done, x.2, [].
        split; [destruct x; reflexivity|]. split; [exact Efit|].
        split; [|constructor].
        eapply Forall_impl; [exact Hnone|]. simpl. tauto.
      * destruct (best =? 0) eqn:E0; [lia|].
        assert (Hlb : h !! best = Some b).
        { apply (Hd (best, b)). apply elem_of_app. right. left. }
        unfold hload. rewrite Hlb. simpl.
        destruct (bsize x.2 <? bsize b) eqn:Elt.
        -- apply Z.ltb_lt in Elt.
           apply IH; [exact Hc | lia | | exact Hd'].
           right. split; [exact Hx0|].
           exists (pre ++ (best, b) :: post), x.2, [].
           split; [destruct x; reflexivity|]. split; [exact Efit|].
           split; [|constructor].
           apply Forall_app. split; [|constructor].
           ++ eapply Forall_impl; [exact Hpre|]. simpl. intros y Hy Hfy.
              specialize (Hy Hfy). lia.
           ++ simpl. lia.
           ++ eapply Forall_impl; [exact Hpost|]. simpl. intros y Hy Hfy.
              specialize (Hy Hfy). lia.
        -- apply Z.ltb_ge in Elt.
           apply IH; [exact Hc | lia | | exact Hd'].
           right. split; [exact Hbest|].
           exists pre, b, (post ++ [x]).
           split; [rewrite <- app_assoc; reflexivity|]. split; [exact Hfb|].
           split; [exact Hpre|].
           apply Forall_app. split; [exact Hpost|]. constructor; [|constructor].
           intros _. exact Elt.
    + assert (Hnf : ¬ fits size x.2).
      { rewrite <- fits_test, Efit. discriminate. }
      apply IH; [exact Hc | lia | | exact Hd'].
      destruct Hb as [[-> Hnone] | (Hbest & pre & b & post & -> & Hfb & Hpre & Hpost)].
      * left. split; [reflexivity|].
        apply Forall_app. split; [exact Hnone|]. constructor; [exact Hnf|constructor].
      * right. split; [exact Hbest|].
        exists pre, b, (post ++ [x]).
        split; [rewrite <- app_assoc; reflexivity|]. split; [exact Hfb|].
        split; [exact Hpre|].
        apply Forall_app. split; [exact Hpost|]. constructor; [|constructor].
        intros Hfx. contradiction.
Qed.

Lemma find_best_fit_chain (s : state) (l : list (Z * block_meta)) (size : Z) :
  registry_is s l →
  ∃ r, find_best_fit size s = Ret (r, s) ∧ best_fit_of size l r.
Proof.
  intros Hc. unfold find_best_fit, lift.
  destruct (find_best_fit_loop_spec (hdr s) size l (walk_fuel (hdr s))
              (global_base s) [] 0) as (r & Hr & Hspec).
  - exact Hc.
  - pose proof (chain_length _ _ _ Hc). unfold walk_fuel. lia.
  - left. split; [reflexivity | constructor].
  - intros x Hx. inversion Hx.
  - exists r. rewrite Hr. auto.
Qed.

(** C8: on a registry that is a null-terminated list, [find_best_fit]
    returns, leaves the state alone, and its result is null exactly when no
    FREE block of size at least [size] exists; otherwise it is a FREE block
    of size at least [size], strictly smaller than every such block before
    it in list order and no larger than every such block after it. *)
Theorem find_best_fit_returns_first_smallest (s : state)
    (l : list (Z * block_meta)) (size : Z) :
  registry_is s l →
  ∃ r, find_best_fit size s = Ret (r, s) ∧
       (r = 0 ↔ ∀ x, x ∈ l → ¬ fits size x.2) ∧
       (r ≠ 0 →
        ∃ pre b post,
          l = pre ++ (r, b) :: post ∧
          bstatus b = STATUS_FREE ∧ size ≤ bsize b ∧
          (∀ x, x ∈ pre → fits size x.2 → bsize b < bsize x.2) ∧
          (∀ x, x ∈ post → fits size x.2 → bsize b ≤ bsize x.2)).
Proof.
  intros Hc. destruct (find_best_fit_chain s l size Hc) as (r & Hr & Hspec).
  exists r. split; [exact Hr|].
  destruct Hspec as [[-> Hnone] | (Hr0 & pre & b & post & -> & [Hf Hs] & Hpre & Hpost)].
  - split; [|congruence]. split; [|reflexivity].
    intros _. exact (proj1 (Forall_forall _ _) Hnone).
  - split.
    + split; [congruence|]. intros Hall. exfalso.
      apply (Hall (r, b)); [|split; assumption].
      apply elem_of_app. right. left.
    + intros _. exists pre, b, post. split; [reflexivity|].
      split; [exact Hf|]. split; [exact Hs|].
      split; [exact (proj1 (Forall_forall _ _) Hpre)
             | exact (proj1 (Forall_forall _ _) Hpost)].
Qed.

(** ** Coalescing *)

Lemma coal_head x rest :
  ∃ b t, coal x rest = (x.1, b) :: t ∧ bstatus b = bstatus x.2.
Proof.
  revert x. induction rest as [|y rest IH]; intros x; simpl.
  - exists x.2, []. destruct x; auto.
  - destruct (is_free x.2 && is_free y.2).
    + destruct (IH (merge x y)) as (b & t & -> & Hb). eauto.
    + exists x.2, (coal y rest). destruct x; auto.
Qed.

Lemma last_addr_cons x l : l ≠ [] → last_addr (x :: l) = last_addr l.
Proof. destruct l; [congruence|]. reflexivity. Qed.

Lemma last_addr_cons_coal x y rest :
  last_addr (x :: coal y rest) = last_addr (coal y rest).
Proof.
  apply last_addr_cons. destruct (coal_head y rest) as (b & t & -> & _).
  discriminate.
Qed.

Lemma no_adjacent_free_cons x y l :
  no_adjacent_free (x :: y :: l) =
  negb (is_free x.2 && is_free y.2) && no_adjacent_free (y :: l).
Proof. reflexivity. Qed.

Lemma no_adjacent_free_coal x rest : no_adjacent_free (coal x rest) = true.
Proof.
  revert x. induction rest as [|y rest IH]; intros x; simpl; [reflexivity|].
  destruct (is_free x.2 && is_free y.2) eqn:E; [apply IH|].
  specialize (IH y). destruct (coal_head y rest) as (b & t & Hc & Hb).
  rewrite Hc in *. rewrite no_adjacent_free_cons, IH, andb_true_r.
  unfold is_free in *. simpl. rewrite Hb, E. reflexivity.
Qed.

Lemma no_adjacent_free_coalesce_list l :
  no_adjacent_free (coalesce_list l) = true.
Proof. destruct l; [reflexivity | apply no_adjacent_free_coal]. Qed.

Lemma merge_next_spec h x rest :
  lseg h x.1 (x :: rest) 0 →
  merge_next h x.1 =
  Ret (match rest with
       | y :: _ => if is_free y.2 then <[x.1 := (merge x y).2]> h else h
       | [] => h
       end).
Proof.
  intros (_ & Hx0 & Hx & Hc). unfold merge_next, hload. rewrite Hx. simpl.
  destruct rest as [|y rest]; simpl in Hc.
  - rewrite Hc. reflexivity.
  - destruct Hc as (-> & Hy0 & Hy & _).
    destruct (y.1 =? 0) eqn:E; [lia|]. rewrite Hy. simpl.
    destruct (is_free y.2); reflexivity.
Qed.

Lemma lseg_absorb h x y rest :
  lseg h x.1 (x :: y :: rest) 0 →
  lseg (<[x.1 := (merge x y).2]> h) x.1 (merge x y :: rest) 0.
Proof.
  intros Hc. pose proof (chain_not_in_tail h x (y :: rest) Hc) as Hn.
  destruct Hc as (_ & Hx0 & Hx & _ & Hy0 & Hy & Hc).
  simpl. split; [reflexivity|]. split; [exact Hx0|].
  split; [apply lookup_insert_eq|].
  apply lseg_insert_notin; [|exact Hc].
  simpl in Hn. apply not_elem_of_cons in Hn. tauto.
Qed.

Lemma absorb_tail fuel :
  loop_ok fuel →
  ∀ h x rest,
    lseg h x.1 (x :: rest) 0 → is_free x.2 = true →
    (length rest < fuel)%nat →
    coalesce_post h x rest
      (let! h2 := merge_next h x.1 in
       let! c := hload h2 x.1 in
       coalesce_loop fuel h2 (bnext c) x.1).
Proof.
  intros IH h x rest Hc Hfx Hlen.
  rewrite (merge_next_spec _ _ _ Hc). simpl.
  assert (Hsame : coalesce_post h x rest
                    (let! c := hload h x.1 in coalesce_loop fuel h (bnext c) x.1)).
  { pose proof Hc as (_ & _ & Hx & _). unfold hload. rewrite Hx. simpl.
    apply IH; assumption. }
  destruct rest as [|y rest]; [exact Hsame|].
  destruct (is_free y.2) eqn:Efy; [|exact Hsame]. clear Hsame.
  pose proof (lseg_absorb _ _ _ _ Hc) as Hc2.
  unfold hload. rewrite lookup_insert_eq. simpl.
  destruct (IH _ (merge x y) rest Hc2) as (h' & Hr & Hl & Hfr);
    [simpl in Hlen; lia|].
  exists h'. simpl in *. rewrite Hfx, Efy. simpl.
  split; [exact Hr|]. split; [exact Hl|].
  intros a Ha. rewrite Hfr.
  - apply lookup_insert_ne. intros Heq. apply Ha. rewrite <- Heq. left.
  - intros Hin. apply Ha. apply elem_of_cons in Hin as [->|Hin]; [left|].
    right. right. exact Hin.
Qed.

Lemma lseg_frame h h' a l z :
  (∀ x, x ∈ l.*1 → h' !! x = h !! x) → lseg h a l z → lseg h' a l z.
Proof.
  revert a. induction l as [|y l IH]; intros a Hfr; simpl; [tauto|].
  intros (H1 & H2 & H3 & H4). split; [exact H1|]. split; [exact H2|].
  split.
  - rewrite Hfr; [exact H3|]. simpl. left.
  - apply IH; [|exact H4]. intros x Hx. apply Hfr. simpl. right. exact Hx.
Qed.

(** The result for [prev :: cur :: rest] when [prev] keeps its header and
    the walk goes on from [cur]. *)
Lemma coalesce_post_cons h prev cur rest res :
  lseg h prev.1 (prev :: cur :: rest) 0 →
  is_free prev.2 && is_free cur.2 = false →
  coalesce_post h cur rest res →
  coalesce_post h prev (cur :: rest) res.
Proof.
  intros Hc Hnf (h' & Hr & Hl & Hfr).
  pose proof (chain_not_in_tail h prev (cur :: rest) Hc) as Hn.
  destruct Hc as (_ & Hp0 & Hp & Hpn & _).
  exists h'. simpl. rewrite Hnf, last_addr_cons_coal.
  split; [exact Hr|]. split.
  - simpl. split; [reflexivity|]. split; [exact Hp0|].
    split; [rewrite Hfr; [exact Hp | exact Hn]|].
    rewrite Hpn. exact Hl.
  - intros a Ha. apply Hfr. intros Hin. apply Ha. simpl. right. exact Hin.
Qed.

Lemma loop_ok_all fuel : loop_ok fuel.
Proof.
  induction fuel as [|fuel IH]; intros h prev rest Hc Hlen; [lia|].
  destruct rest as [|cur rest].
  - pose proof Hc as (_ & _ & _ & Hn). simpl in Hn. simpl. rewrite Hn. simpl.
    exists h. split; [reflexivity|]. split; [exact Hc | reflexivity].
  - pose proof Hc as (_ & Hp0 & Hp & Hpn & Hc0 & Hcur & Hrest).
    simpl in Hlen. simpl coalesce_loop. rewrite Hpn.
    destruct (cur.1 =? 0) eqn:E; [lia|].
    unfold hload at 1. rewrite Hcur. simpl obind.
    assert (Hcc : lseg h cur.1 (cur :: rest) 0).
    { simpl. auto. }
    destruct (is_free cur.2) eqn:Efc.
    + unfold merge_into_prev, hload. rewrite Hcur. simpl.
      destruct (prev.1 =? 0) eqn:E'; [lia|]. rewrite Hp. simpl.
      destruct (is_free prev.2) eqn:Efp; simpl.
      * pose proof (lseg_absorb _ _ _ _ Hc) as Hc2.
        destruct (absorb_tail fuel IH _ (merge prev cur) rest Hc2 Efp)
          as (h' & Hr & Hl & Hfr); [lia|].
        exists h'. simpl in *. rewrite Efp, Efc. simpl.
        split; [exact Hr|]. split; [exact Hl|].
        intros a Ha. rewrite Hfr.
        -- apply lookup_insert_ne. intros Heq. apply Ha. rewrite <- Heq. left.
        -- intros Hin. apply Ha. apply elem_of_cons in Hin as [->|Hin]; [left|].
           right. right. exact Hin.
      * apply coalesce_post_cons; [exact Hc | rewrite Efp; reflexivity|].
        apply (absorb_tail fuel IH _ cur rest Hcc Efc). lia.
    + apply coalesce_post_cons; [exact Hc | rewrite Efc; apply andb_false_r|].
      apply IH; [exact Hcc | lia].
Qed.

Lemma coalesce_blocks_chain (s : state) (l : list (Z * block_meta)) :
  registry_is s l →
  ∃ h', coalesce_blocks s = Ret (last_addr (coalesce_list l), set_hdr h' s) ∧
        chain h' (global_base s) (coalesce_list l) ∧
        ∀ a, a ∉ l.*1 → h' !! a = hdr s !! a.
Proof.
  intros Hc. unfold registry_is, chain in Hc.
  pose proof (chain_length _ _ _ Hc) as Hlen.
  unfold coalesce_blocks, walk_fuel. destruct l as [|x rest].
  - simpl in Hc. rewrite Hc. simpl. exists (hdr s).
    split; [reflexivity|]. split; [reflexivity|]. reflexivity.
  - pose proof Hc as (Hb & Hx0 & Hx & _). rewrite Hb in *.
    simpl in Hlen. simpl coalesce_loop.
    destruct (x.1 =? 0) eqn:E; [lia|].
    unfold hload at 1. rewrite Hx. simpl obind.
    assert (Hpost : coalesce_post (hdr s) x rest
              (if is_free x.2
               then
                 let! hc := merge_into_prev (hdr s) x.1 0 in
                 let! h := merge_next hc.1 hc.2 in
                 let! c := hload h hc.2 in
                 coalesce_loop (size (hdr s)) h (bnext c) hc.2
               else coalesce_loop (size (hdr s)) (hdr s) (bnext x.2) x.1)).
    { destruct (is_free x.2) eqn:Efx.
      - unfold merge_into_prev, hload. rewrite Hx. simpl.
        apply (absorb_tail _ (loop_ok_all _) _ x rest Hc Efx). lia.
      - apply loop_ok_all; [exact Hc | lia]. }
    destruct Hpost as (h' & -> & Hl & Hfr).
    exists h'. split; [reflexivity|]. split; [exact Hl | exact Hfr].
Qed.


Lemma registry_loop_sound fuel :
  ∀ h a l, registry_loop fuel h a = Ret l → chain h a l.
Proof.
  unfold chain.
  induction fuel as [|fuel IH]; intros h a l Hr; simpl in Hr; [discriminate|].
  destruct (a =? 0) eqn:E.
  - inversion Hr; subst. simpl. lia.
  - ostep Hr as c Ec. apply hload_ret_inv in Ec.
    ostep Hr as rest Er. inversion Hr; subst. simpl.
    split; [reflexivity|]. split; [lia|]. split; [exact Ec|]. eauto.
Qed.

Lemma registry_registry_is s l : registry s = Ret l → registry_is s l.
Proof. apply registry_loop_sound. Qed.


Lemma find_best_fit_returns_first_smallest_witness :
  ∃ r, find_best_fit 64 s_freed = Ret (r, s_freed) ∧
       (r = 0 ↔
        ∀ x, x ∈ [(65536, mk_block_meta 128 STATUS_FREE 65664);
                  (65664, mk_block_meta 130944 STATUS_FREE 0)] →
             ¬ fits 64 x.2) ∧
       (r ≠ 0 →
        ∃ pre b post,
          [(65536, mk_block_meta 128 STATUS_FREE 65664);
           (65664, mk_block_meta 130944 STATUS_FREE 0)] =
            pre ++ (r, b) :: post ∧
          bstatus b = STATUS_FREE ∧ 64 ≤ bsize b ∧
          (∀ x, x ∈ pre → fits 64 x.2 → bsize b < bsize x.2) ∧
          (∀ x, x ∈ post → fits 64 x.2 → bsize b ≤ bsize x.2)).
Proof.
  apply (find_best_fit_returns_first_smallest s_freed).
  apply registry_registry_is. vm_compute. reflexivity.
Defined.

(** ** Geometry of the registry *)

Lemma geom_next_le top l : geom top l → 0 < top → 0 < next_addr top l ≤ top.
Proof.
  induction l as [|x l IH]; simpl; [lia|].
  intros (H1 & H2 & H3 & H4) Ht. specialize (IH H4 Ht). lia.
Qed.

Lemma geom_app top l1 l2 :
  geom top (l1 ++ l2) ↔ geom (next_addr top l2) l1 ∧ geom top l2.
Proof.
  induction l1 as [|x l1 IH]; simpl; [tauto|].
  rewrite IH. destruct l1; simpl; tauto.
Qed.

Lemma geom_bound top l x :
  geom top l → 0 < top → x ∈ l → 0 < x.1 ∧ 0 < bsize x.2 ∧ x.1 + bsize x.2 ≤ top.
Proof.
  induction l as [|y l IH]; intros Hg Ht Hin; [inversion Hin|].
  destruct Hg as (H1 & H2 & H3 & H4).
  pose proof (geom_next_le _ _ H4 Ht).
  apply elem_of_cons in Hin as [->|Hin]; [lia | auto].
Qed.

Lemma geom_merge top x y rest :
  geom top (x :: y :: rest) → 0 < top ≤ 2 ^ 64 → geom top (merge x y :: rest).
Proof.
  intros (H1 & H2 & H3 & H4 & H5 & H6 & H7) Ht. simpl in *.
  pose proof (geom_next_le _ _ H7 ltac:(lia)).
  rewrite wrap64_small by lia. repeat split; try lia. exact H7.
Qed.

Lemma geom_coal top x rest :
  0 < top ≤ 2 ^ 64 → geom top (x :: rest) → geom top (coal x rest).
Proof.
  intros Ht. revert x. induction rest as [|y rest IH]; intros x Hg; [exact Hg|].
  simpl. destruct (is_free x.2 && is_free y.2).
  - apply IH. apply geom_merge; assumption.
  - destruct Hg as (H1 & H2 & H3 & H4). specialize (IH y H4).
    destruct (coal_head y rest) as (b & t & E & _). rewrite E in *.
    split; [exact H1|]. split; [exact H2|]. split; [exact H3 | exact IH].
Qed.

Lemma geom_coalesce_list top l :
  0 < top ≤ 2 ^ 64 → geom top l → geom top (coalesce_list l).
Proof. intros Ht Hg. destruct l; [exact I | apply geom_coal; assumption]. Qed.

(** In a list with geometry, an address strictly inside a block is not the
    address of a block. *)
Lemma geom_inside_not_in top pre a b post n :
  geom top (pre ++ (a, b) :: post) → 0 < top →
  a < n < a + bsize b → n ∉ (pre ++ (a, b) :: post).*1.
Proof.
  intros Hg Ht Hn Hin. apply geom_app in Hg as [Hpre Hpost]. simpl in *.
  destruct Hpost as (H1 & H2 & H3 & H4).
  rewrite fmap_app in Hin. apply elem_of_app in Hin as [Hin|Hin].
  - apply list_elem_of_fmap in Hin as (y & -> & Hy).
    pose proof (geom_bound _ _ _ Hpre H1 Hy). lia.
  - simpl in Hin. apply elem_of_cons in Hin as [->|Hin]; [lia|].
    apply list_elem_of_fmap in Hin as (y & -> & Hy).
    apply list_elem_of_split in Hy as (l1 & l2 & ->).
    apply geom_app in H4 as [H5 H6]. simpl in H5, H6.
    destruct H6 as (H6 & _).
    pose proof (geom_next_le _ _ H5 H6) as H7.
    destruct l1; simpl in *; lia.
Qed.

Lemma geom_above_not_in top l n : geom top l → 0 < top → top ≤ n → n ∉ l.*1.
Proof.
  intros Hg Ht Hn Hin. apply list_elem_of_fmap in Hin as (y & -> & Hy).
  pose proof (geom_bound _ _ _ Hg Ht Hy). lia.
Qed.

(** ** Status patterns *)

Lemma no_adjacent_free_frees l : no_adjacent_free l = naf_b (frees l).
Proof.
  induction l as [|x l IH]; [reflexivity|].
  destruct l as [|y l]; [reflexivity|].
  rewrite no_adjacent_free_cons, IH. reflexivity.
Qed.

Lemma naf_b_flip p q : naf_b (p ++ true :: q) = true → naf_b (p ++ false :: q) = true.
Proof.
  induction p as [|a p IH].
  - destruct q as [|c q]; [reflexivity|]. simpl.
    intros H. apply andb_true_iff in H as [_ H]. exact H.
  - destruct p as [|a' p].
    + simpl app in *. intros H.
      change (negb (a && true) && naf_b (true :: q) = true) in H.
      change (negb (a && false) && naf_b (false :: q) = true).
      apply andb_true_iff in H as [_ H]. rewrite andb_false_r. simpl negb.
      rewrite andb_true_l. apply IH. exact H.
    + intros H.
      change (negb (a && a') && naf_b ((a' :: p) ++ true :: q) = true) in H.
      change (negb (a && a') && naf_b ((a' :: p) ++ false :: q) = true).
      apply andb_true_iff in H as [H1 H]. rewrite H1, IH; auto.
Qed.

Lemma naf_b_split p q :
  naf_b (p ++ true :: q) = true → naf_b (p ++ false :: true :: q) = true.
Proof.
  induction p as [|a p IH].
  - intros H. simpl app in *.
    change (negb (false && true) && naf_b (true :: q) = true).
    rewrite H. reflexivity.
  - destruct p as [|a' p].
    + simpl app in *. intros H.
      change (negb (a && true) && naf_b (true :: q) = true) in H.
      change (negb (a && false) && naf_b (false :: true :: q) = true).
      apply andb_true_iff in H as [_ H]. rewrite andb_false_r. simpl negb.
      rewrite andb_true_l. apply IH. exact H.
    + intros H.
      change (negb (a && a') && naf_b ((a' :: p) ++ true :: q) = true) in H.
      change (negb (a && a') && naf_b ((a' :: p) ++ false :: true :: q) = true).
      apply andb_true_iff in H as [H1 H]. rewrite H1, IH; auto.
Qed.

Lemma naf_b_snoc_after_false p q : naf_b (p ++ [false]) = true → naf_b (p ++ false :: q :: []) = true.
Proof.
  induction p as [|a p IH].
  - intros _. reflexivity.
  - destruct p as [|a' p].
    + intros _. simpl. rewrite andb_false_r. reflexivity.
    + intros H.
      change (negb (a && a') && naf_b ((a' :: p) ++ [false]) = true) in H.
      change (negb (a && a') && naf_b ((a' :: p) ++ [false; q]) = true).
      apply andb_true_iff in H as [H1 H]. rewrite H1, IH; auto.
Qed.

(** ** Forward reasoning *)

Lemma bind_Ret {A B : Type} (m : M A) (f : A → M B) s v s1 :
  m s = Ret (v, s1) → bind m f s = f v s1.
Proof. intros H. unfold bind. rewrite H. reflexivity. Qed.

Lemma bind_assoc {A B C : Type} (m : M A) (f : A → M B) (g : B → M C) s :
  bind (bind m f) g s = bind m (λ x, bind (f x) g) s.
Proof. unfold bind. destruct (m s) as [[x s1]| | |]; reflexivity. Qed.

Lemma ok_bind {A B : Type} (m : M A) (f : A → M B) s
    (R : A → state → Prop) (Q : B → state → Prop) :
  ok_or_abort (m s) R →
  (∀ v s1, R v s1 → ok_or_abort (f v s1) Q) →
  ok_or_abort (bind m f s) Q.
Proof.
  intros [[msg Hm] | (v & s1 & Hm & HR)] Hf.
  - left. exists msg. unfold bind. rewrite Hm. reflexivity.
  - rewrite (bind_Ret _ _ _ _ _ Hm). auto.
Qed.

Lemma ok_ret {A : Type} (v : A) s (Q : A → state → Prop) :
  Q v s → ok_or_abort (ret v s) Q.
Proof. intros H. right. exists v, s. auto. Qed.

Lemma ok_weaken {A : Type} (o : outcome (A * state)) (Q Q' : A → state → Prop) :
  ok_or_abort o Q' → (∀ v s, Q' v s → Q v s) → ok_or_abort o Q.
Proof.
  intros [H | (v & s' & H & HQ)] Himp; [left; exact H|].
  right. exists v, s'. auto.
Qed.

Lemma round_up_nonneg (n q : Z) : 0 ≤ n → 0 < q → 0 ≤ round_up n q.
Proof.
  intros Hn Hq. unfold round_up.
  apply Z.mul_nonneg_nonneg; [|lia]. apply Z.div_pos; lia.
Qed.

Lemma sbrk_branch_forward (sz : Z) (s : state) (T : Z) :
  0 < brk s → 0 ≤ sz < 2 ^ 63 → sz < T →
  ok_or_abort
    ((let* _ := sbrk 0 in
      let* block := sbrk (to_intptr sz) in
      DIE (block =? -1) "sbrk";;
      store block (mk_block_meta sz STATUS_ALLOC 0);;
      ret block) s)
    (req_post T sz s).
Proof.
  intros Hb Hs HT. rewrite to_intptr_small by lia.
  unfold bind, sbrk, DIE, store, modify, ret. rewrite !Z.add_0_r.
  destruct ((0 <=? brk s) && (brk s <=? brk_max s));
    cbn [brk brk_max log set_brk];
    destruct ((0 <=? brk s + sz) && (brk s + sz <=? brk_max s)) eqn:E;
    cbn [Z.eqb]; try (left; eexists; reflexivity).
  all: destruct (brk s =? -1) eqn:E1; [lia|].
  all: apply andb_true_iff in E as [_ E]; apply Z.leb_le in E.
  all: right; eexists _, _; split; [reflexivity|].
  all: split; [reflexivity|]; split; [reflexivity|]; split; [reflexivity|].
  all: exists STATUS_ALLOC; split; [reflexivity|].
  all: left; cbn; auto 10.
Qed.

Lemma mmap_branch_forward (sz : Z) (s : state) (T : Z) :
  0 < map_next s → 0 < page_size s → T ≤ sz →
  ok_or_abort
    ((let* block := mmap sz in
      DIE (block =? MAP_FAILED) "mmap";;
      store block (mk_block_meta sz STATUS_MAPPED 0);;
      ret block) s)
    (req_post T sz s).
Proof.
  intros Hm Hp HT. unfold bind, mmap, DIE, store, modify, ret, MAP_FAILED.
  destruct ((0 <? sz) && (map_next s + sz <=? map_max s)) eqn:E;
    cbn [Z.eqb]; try (left; eexists; reflexivity).
  destruct (map_next s =? -1) eqn:E1; [lia|].
  apply andb_true_iff in E as [E _]. apply Z.ltb_lt in E.
  pose proof (round_up_nonneg sz (page_size s) ltac:(lia) Hp).
  right; eexists _, _; split; [reflexivity|].
  split; [reflexivity|]; split; [reflexivity|]; split; [reflexivity|].
  exists STATUS_MAPPED; split; [reflexivity|].
  right; cbn. repeat split; auto. lia.
Qed.

Lemma req_spec_malloc : req_spec (λ _, MMAP_THRESHOLD) request_space_malloc.
Proof.
  intros sz s Hb Hm Hp Hs. unfold request_space_malloc.
  destruct (sz <? MMAP_THRESHOLD) eqn:E.
  - apply sbrk_branch_forward; lia.
  - apply mmap_branch_forward; lia.
Qed.

Lemma req_spec_calloc : req_spec page_size request_space_calloc.
Proof.
  intros sz s Hb Hm Hp Hs. unfold request_space_calloc.
  unfold bind at 1. unfold sysconf_SC_PAGESIZE, get.
  rewrite wrap64_small by lia.
  destruct (sz <? page_size s) eqn:E.
  - apply sbrk_branch_forward; lia.
  - apply mmap_branch_forward; lia.
Qed.

Lemma first_time_prealloc_forward (s : state) :
  0 < brk s →
  ok_or_abort (first_time_prealloc s)
    (λ _ s',
       hdr s' = <[brk s := mk_block_meta MMAP_THRESHOLD STATUS_FREE 0]> (hdr s) ∧
       global_base s' = brk s ∧ brk s' = brk s + MMAP_THRESHOLD ∧
       brk s' ≤ brk_max s ∧ brk_max s' = brk_max s ∧
       map_next s' = map_next s ∧ page_size s' = page_size s).
Proof.
  intros Hb. unfold first_time_prealloc, bind, sbrk, modify, DIE, store.
  change (to_intptr MMAP_THRESHOLD) with 131072. unfold MMAP_THRESHOLD.
  rewrite !Z.add_0_r.
  destruct ((0 <=? brk s) && (brk s <=? brk_max s));
    cbn [brk brk_max log set_brk set_global_base];
    destruct ((0 <=? brk s + 131072) && (brk s + 131072 <=? brk_max s)) eqn:E;
    cbn [Z.eqb]; try (left; eexists; reflexivity).
  all: destruct (brk s =? -1) eqn:E1; [lia|].
  all: right; eexists _, _; split; [reflexivity|]; cbn.
  all: apply andb_true_iff in E as [_ E]; apply Z.leb_le in E.
  all: repeat split; auto.
Qed.

(** ** Header updates, run forward *)

Lemma set_hdr_set_hdr h h' s : set_hdr h (set_hdr h' s) = set_hdr h s.
Proof. reflexivity. Qed.

Lemma store_eq a b s : store a b s = Ret (tt, set_hdr (<[a := b]> (hdr s)) s).
Proof. reflexivity. Qed.

Lemma set_size_eq s a v b :
  hdr s !! a = Some b →
  set_size a v s = Ret (tt, set_hdr (<[a := with_size v b]> (hdr s)) s).
Proof.
  intros H. unfold set_size. rewrite (bind_Ret _ _ _ _ _ (load_some _ _ _ H)).
  reflexivity.
Qed.

Lemma set_status_eq s a v b :
  hdr s !! a = Some b →
  set_status a v s = Ret (tt, set_hdr (<[a := with_status v b]> (hdr s)) s).
Proof.
  intros H. unfold set_status. rewrite (bind_Ret _ _ _ _ _ (load_some _ _ _ H)).
  reflexivity.
Qed.

Lemma set_next_eq s a v b :
  hdr s !! a = Some b →
  set_next a v s = Ret (tt, set_hdr (<[a := with_next v b]> (hdr s)) s).
Proof.
  intros H. unfold set_next. rewrite (bind_Ret _ _ _ _ _ (load_some _ _ _ H)).
  reflexivity.
Qed.

Lemma split_block_eq s block size b :
  hdr s !! block = Some b → size ≠ 0 →
  split_block block size s =
  Ret (tt, set_hdr
             (<[block := mk_block_meta size (bstatus b) (block + size)]>
                (<[block + size :=
                     mk_block_meta (wrap64 (bsize b - size)) STATUS_FREE (bnext b)]>
                   (hdr s))) s).
Proof.
  intros Hb Hs. unfold split_block.
  rewrite (bind_Ret _ _ _ _ _ (load_some _ _ _ Hb)).
  rewrite (bind_Ret _ _ _ _ _ (store_eq _ _ _)).
  set (nb := mk_block_meta (wrap64 (bsize b - size)) STATUS_FREE (bnext b)).
  assert (H1 : hdr (set_hdr (<[block + size := nb]> (hdr s)) s) !! block = Some b).
  { cbn [hdr set_hdr]. rewrite lookup_insert_ne by lia. exact Hb. }
  rewrite (bind_Ret _ _ _ _ _ (set_size_eq _ _ size _ H1)).
  cbn [hdr set_hdr]. rewrite set_hdr_set_hdr.
  set (h2 := <[block := with_size size b]> (<[block + size := nb]> (hdr s))).
  assert (H2 : hdr (set_hdr h2 s) !! block = Some (with_size size b)).
  { cbn [hdr set_hdr]. apply lookup_insert_eq. }
  rewrite (set_next_eq _ _ (block + size) _ H2).
  cbn [hdr set_hdr]. unfold h2. rewrite insert_insert_eq. reflexivity.
Qed.

(** ** Surgery on the registry list *)

Lemma lseg_parts h base pre a b post :
  lseg h base (pre ++ (a, b) :: post) 0 →
  h !! a = Some b ∧ a ≠ 0 ∧ (a ∉ pre.*1) ∧ (a ∉ post.*1) ∧
  lseg h (bnext b) post 0 ∧
  (∀ x, x ∈ post.*1 → x ∉ pre.*1).
Proof.
  intros Hc. pose proof (chain_NoDup _ _ _ Hc) as Hnd.
  rewrite fmap_app in Hnd. apply NoDup_app in Hnd as (_ & Hd & Hnd).
  simpl in Hd, Hnd. apply NoDup_cons in Hnd as [Hn _].
  apply lseg_app in Hc as (m & _ & Hm). simpl in Hm.
  destruct Hm as (-> & H0 & Hl & Hp).
  split; [exact Hl|]. split; [exact H0|].
  split; [intros Hin; apply (Hd _ Hin); left|]. split; [exact Hn|].
  split; [exact Hp|].
  intros x Hx Hin. apply (Hd _ Hin). right. exact Hx.
Qed.

Lemma lseg_middle h h' base pre a b post mid :
  lseg h base (pre ++ (a, b) :: post) 0 →
  (∀ x, x ∈ pre.*1 → h' !! x = h !! x) →
  lseg h' a mid 0 →
  lseg h' base (pre ++ mid) 0.
Proof.
  intros Hc Hfr Hmid. apply lseg_app in Hc as (m & Hpre & Hm).
  destruct Hm as (Hm & _). simpl in Hm. subst m.
  apply lseg_app. exists a. split; [|exact Hmid].
  eapply lseg_frame; [|exact Hpre]. exact Hfr.
Qed.

Lemma frees_app l1 l2 : frees (l1 ++ l2) = frees l1 ++ frees l2.
Proof. apply map_app. Qed.

Lemma last_snoc_inv (l : list (Z * block_meta)) x :
  last l = Some x → ∃ l', l = l' ++ [x].
Proof.
  intros H. destruct (decide (l = [])) as [->|Hne]; [discriminate|].
  destruct (exists_last Hne) as (l' & y & ->).
  rewrite last_snoc in H. inversion H; subst. eauto.
Qed.

Lemma get_block_ptr_payload block :
  get_block_ptr (block + ALIGN sizeof_block_meta) = block.
Proof. unfold get_block_ptr. lia. Qed.

(** ** The three ways an allocation is served *)

Ltac ne_by Hx :=
  let Heq := fresh "Heq" in
  intros Heq; rewrite <- Heq in Hx; contradiction.

Section alloc_paths.
Variables (zero : Z → M unit).
Hypothesis Hzero : zero_spec zero.

Lemma alloc_finish (block : Z) (s : state) (Q : Z → state → Prop) :
  (∀ s', hdr s' = hdr s → global_base s' = global_base s →
         same_kernel s s' → Q (block + ALIGN sizeof_block_meta) s') →
  ok_or_abort
    ((zero (block + ALIGN sizeof_block_meta);;
      ret (block + ALIGN sizeof_block_meta)) s) Q.
Proof.
  intros HQ. destruct (Hzero (block + ALIGN sizeof_block_meta) s)
    as (s' & Hz & Hh & Hg & Hk).
  rewrite (bind_Ret _ _ _ _ _ Hz). apply ok_ret. auto.
Qed.

Lemma best_fit_path (s : state) (T A r : Z) (pre post : list (Z * block_meta))
    (b : block_meta) :
  wf s (pre ++ (r, b) :: post) →
  no_adjacent_free (pre ++ (r, b) :: post) = true →
  fits A b → 0 < A < 2 ^ 31 →
  ok_or_abort
    ((let* b := load r in
      (if wrap64 (A + ALIGN (sizeof_block_meta + ALIGN 1)) <=? bsize b
       then split_block r (wrap64 A) else ret tt);;
      set_status r STATUS_ALLOC;;
      zero (r + ALIGN sizeof_block_meta);;
      ret (r + ALIGN sizeof_block_meta)) s)
    (alloc_post (pre ++ (r, b) :: post) T A).
Proof.
  intros [Hreg Hgeom Hbrk Hmap Hlim Hpage] Hnaf [Hfree Hsize] HA.
  pose proof (lseg_parts _ _ _ _ _ _ Hreg) as (Hr & Hr0 & Hrpre & Hrpost & Hpost & _).
  rewrite (bind_Ret _ _ _ _ _ (load_some _ _ _ Hr)).
  change (ALIGN (sizeof_block_meta + ALIGN 1)) with 32.
  rewrite !wrap64_small by lia.
  assert (Hrpos : 0 < r).
  { eapply (geom_bound _ _ (r, b)) in Hgeom; [simpl in Hgeom; lia | lia |].
    apply elem_of_app. right. left. }
  assert (Hfit_in : ¬ (∀ x, x ∈ pre ++ (r, b) :: post → ¬ fits A x.2)).
  { intros H. apply (H (r, b)); [|split; assumption].
    apply elem_of_app. right. left. }
  rewrite no_adjacent_free_frees, frees_app in Hnaf. simpl in Hnaf.
  assert (Hfb : is_free b = true) by (apply status_eqb_eq; exact Hfree).
  rewrite Hfb in Hnaf.
  destruct (A + 32 <=? bsize b) eqn:Esplit.
  - apply Z.leb_le in Esplit.
    rewrite (bind_Ret _ _ _ _ _ (split_block_eq _ _ A _ Hr ltac:(lia))).
    set (nb := mk_block_meta (wrap64 (bsize b - A)) STATUS_FREE (bnext b)).
    set (h1 := <[r := mk_block_meta A (bstatus b) (r + A)]>
                 (<[r + A := nb]> (hdr s))).
    assert (H1 : hdr (set_hdr h1 s) !! r = Some (mk_block_meta A (bstatus b) (r + A))).
    { cbn [hdr set_hdr]. apply lookup_insert_eq. }
    rewrite (bind_Ret _ _ _ _ _ (set_status_eq _ _ STATUS_ALLOC _ H1)).
    cbn [hdr set_hdr]. rewrite set_hdr_set_hdr. unfold h1.
    rewrite insert_insert_eq. unfold with_status. cbn [bsize bnext].
    set (rb := mk_block_meta A STATUS_ALLOC (r + A)).
    apply alloc_finish. unfold same_kernel.
    cbn [hdr set_hdr global_base brk brk_max map_next page_size].
    intros s' Hh Hg (Hk1 & Hk2 & Hk3 & Hk4).
    assert (Hnew : r + A ∉ (pre ++ (r, b) :: post).*1).
    { eapply geom_inside_not_in; [exact Hgeom | lia | lia]. }
    rewrite fmap_app in Hnew. apply not_elem_of_app in Hnew as [Hnpre Hnpost].
    simpl in Hnpost. apply not_elem_of_cons in Hnpost as [_ Hnpost].
    exists (pre ++ (r, rb) :: (r + A, nb) :: post), rb.
    rewrite get_block_ptr_payload.
    assert (Hreg' : registry_is s' (pre ++ (r, rb) :: (r + A, nb) :: post)).
    2: split; [exact Hreg'|split; [|split; [|split; [|split; [|split]]]]].
    + unfold registry_is, chain. rewrite Hh, Hg.
      eapply lseg_middle; [exact Hreg | |].
      * intros x Hx. rewrite !lookup_insert_ne; [reflexivity | |];
          ne_by Hx.
      * simpl. split; [reflexivity|]. split; [exact Hr0|].
        split; [apply lookup_insert_eq|]. split; [reflexivity|].
        split; [lia|]. rewrite lookup_insert_ne by lia.
        split; [apply lookup_insert_eq|].
        eapply lseg_frame; [|exact Hpost].
        intros x Hx. rewrite !lookup_insert_ne; [reflexivity | |];
          ne_by Hx.
    + rewrite no_adjacent_free_frees, frees_app. simpl.
      apply naf_b_split. exact Hnaf.
    + change (ALIGN sizeof_block_meta) with 24. lia.
    + rewrite Hh. apply lookup_insert_eq.
    + left. split; [reflexivity|]. apply elem_of_app. right. left.
    + split; [discriminate | tauto].
    + intros _. constructor; rewrite ?Hk1, ?Hk2, ?Hk3, ?Hk4; try assumption.
      apply geom_app in Hgeom as [Hg1 Hg2]. apply geom_app.
      split; [exact Hg1|]. destruct Hg2 as (G1 & G2 & G3 & G4).
      cbn [fst snd] in G1, G2, G3.
      change (0 < r ∧ 0 < bsize rb ∧ r + bsize rb ≤ r + A ∧
              0 < r + A ∧ 0 < bsize nb ∧
              r + A + bsize nb ≤ next_addr (brk s) post ∧ geom (brk s) post).
      pose proof (geom_next_le _ _ G4 ltac:(lia)) as G5.
      unfold rb, nb. cbn [bsize]. rewrite wrap64_small by lia.
      repeat (split; [lia|]). exact G4.
  - rewrite (bind_Ret _ _ _ _ _ (eq_refl : ret tt s = Ret (tt, s))).
    rewrite (bind_Ret _ _ _ _ _ (set_status_eq _ _ STATUS_ALLOC _ Hr)).
    set (rb := with_status STATUS_ALLOC b).
    apply alloc_finish. unfold same_kernel.
    cbn [hdr set_hdr global_base brk brk_max map_next page_size].
    intros s' Hh Hg (Hk1 & Hk2 & Hk3 & Hk4).
    exists (pre ++ (r, rb) :: post), rb.
    rewrite get_block_ptr_payload.
    assert (Hreg' : registry_is s' (pre ++ (r, rb) :: post)).
    2: split; [exact Hreg'|split; [|split; [|split; [|split; [|split]]]]].
    + unfold registry_is, chain. rewrite Hh, Hg.
      eapply lseg_middle; [exact Hreg | |].
      * intros x Hx. rewrite lookup_insert_ne; [reflexivity|].
        ne_by Hx.
      * simpl. split; [reflexivity|]. split; [exact Hr0|].
        split; [apply lookup_insert_eq|].
        eapply lseg_frame; [|exact Hpost].
        intros x Hx. rewrite lookup_insert_ne; [reflexivity|].
        ne_by Hx.
    + rewrite no_adjacent_free_frees, frees_app. simpl.
      apply naf_b_flip. exact Hnaf.
    + change (ALIGN sizeof_block_meta) with 24. lia.
    + rewrite Hh. apply lookup_insert_eq.
    + left. split; [reflexivity|]. apply elem_of_app. right. left.
    + split; [discriminate | tauto].
    + intros _. constructor; rewrite ?Hk1, ?Hk2, ?Hk3, ?Hk4; try assumption.
      apply geom_app in Hgeom as [Hg1 Hg2]. apply geom_app.
      split; [exact Hg1 | exact Hg2].
Qed.

Variables (Tf : state → Z) (request_space : Z → M Z).
Hypothesis Hreq : req_spec Tf request_space.

Lemma expand_path (s : state) (A last : Z) (lc' : list (Z * block_meta))
    (lb : block_meta) :
  wf s (lc' ++ [(last, lb)]) →
  no_adjacent_free (lc' ++ [(last, lb)]) = true →
  bstatus lb = STATUS_FREE → bsize lb < A → 0 < A < 2 ^ 31 →
  ok_or_abort
    ((let* l := load last in
      let* block := request_space (wrap64 (A - bsize l)) in
      if block =? 0 then ret 0
      else
        let* l := load last in
        let* nb := load block in
        set_size last (wrap64 (bsize l + bsize nb));;
        let* b := load last in
        (if wrap64 (A + ALIGN (sizeof_block_meta + ALIGN 1)) <=? bsize b
         then split_block last (wrap64 A) else ret tt);;
        set_status last STATUS_ALLOC;;
        zero (last + ALIGN sizeof_block_meta);;
        ret (last + ALIGN sizeof_block_meta)) s)
    (alloc_post (lc' ++ [(last, lb)]) (Tf s) A).
Proof.
  intros [Hreg Hgeom Hbrk Hmap Hlim Hpage] Hnaf Hfree Hsize HA.
  pose proof (lseg_parts _ _ _ _ _ _ Hreg) as (Hl & Hl0 & Hlpre & _ & Hpost & _).
  simpl in Hpost.
  assert (Hlb : 0 < last ∧ 0 < bsize lb).
  { eapply (geom_bound _ _ (last, lb)) in Hgeom; [simpl in Hgeom; lia | lia |].
    apply elem_of_app. right. left. }
  rewrite (bind_Ret _ _ _ _ _ (load_some _ _ _ Hl)).
  change (ALIGN (sizeof_block_meta + ALIGN 1)) with 32.
  rewrite !wrap64_small by lia.
  eapply ok_bind; [apply Hreq; lia|]. cbv beta.
  intros block s3 (Hg3 & Hbm3 & Hps3 & st & Hh3 & Hcase).
  assert (Hblock : 0 < block ∧ brk s ≤ block) by (destruct Hcase; lia).
  assert (Hnin : block ∉ (lc' ++ [(last, lb)]).*1).
  { eapply geom_above_not_in; [exact Hgeom | lia | lia]. }
  rewrite fmap_app in Hnin. apply not_elem_of_app in Hnin as [Hnpre Hnlast].
  simpl in Hnlast. apply not_elem_of_cons in Hnlast as [Hne _].
  destruct (block =? 0) eqn:E0; [lia|].
  assert (Hl3 : hdr s3 !! last = Some lb).
  { rewrite Hh3, lookup_insert_ne by congruence. exact Hl. }
  assert (Hb3 : hdr s3 !! block = Some (mk_block_meta (A - bsize lb) st 0)).
  { rewrite Hh3. apply lookup_insert_eq. }
  rewrite (bind_Ret _ _ _ _ _ (load_some _ _ _ Hl3)).
  rewrite (bind_Ret _ _ _ _ _ (load_some _ _ _ Hb3)).
  cbn [bsize]. replace (bsize lb + (A - bsize lb)) with A by lia.
  rewrite wrap64_small by lia.
  rewrite (bind_Ret _ _ _ _ _ (set_size_eq _ _ A _ Hl3)).
  set (s4 := set_hdr (<[last := with_size A lb]> (hdr s3)) s3).
  assert (Hl4 : hdr s4 !! last = Some (with_size A lb)).
  { unfold s4. cbn [hdr set_hdr]. apply lookup_insert_eq. }
  rewrite (bind_Ret _ _ _ _ _ (load_some _ _ _ Hl4)).
  cbn [bsize with_size].
  destruct (A + 32 <=? A) eqn:Esplit; [lia|].
  rewrite (bind_Ret _ _ _ _ _ (eq_refl : ret tt s4 = Ret (tt, s4))).
  rewrite (bind_Ret _ _ _ _ _ (set_status_eq _ _ STATUS_ALLOC _ Hl4)).
  unfold s4. cbn [hdr set_hdr]. rewrite set_hdr_set_hdr, insert_insert_eq.
  unfold with_status, with_size. cbn [bsize bnext].
  set (rb := mk_block_meta A STATUS_ALLOC (bnext lb)).
  apply alloc_finish. unfold same_kernel.
  cbn [hdr set_hdr global_base brk brk_max map_next page_size].
  intros s' Hh Hg (Hk1 & Hk2 & Hk3 & Hk4).
  exists (lc' ++ [(last, rb)]), rb.
  rewrite get_block_ptr_payload.
  assert (Hreg' : registry_is s' (lc' ++ [(last, rb)])).
  2: split; [exact Hreg'|split; [|split; [|split; [|split; [|split]]]]].
  - unfold registry_is, chain. rewrite Hh, Hg, Hg3, Hh3.
    eapply lseg_middle; [exact Hreg | |].
    + intros x Hx. rewrite !lookup_insert_ne; [reflexivity | |]; ne_by Hx.
    + simpl. split; [reflexivity|]. split; [exact Hl0|].
      split; [apply lookup_insert_eq | exact Hpost].
  - rewrite no_adjacent_free_frees, frees_app in *. simpl in *.
    assert (Hfb : is_free lb = true) by (apply status_eqb_eq; exact Hfree).
    rewrite Hfb in Hnaf. apply naf_b_flip. exact Hnaf.
  - change (ALIGN sizeof_block_meta) with 24. lia.
  - rewrite Hh. apply lookup_insert_eq.
  - left. split; [reflexivity|]. apply elem_of_app. right. left.
  - split; [discriminate|]. intros (_ & _ & Hnt). exfalso. apply Hnt.
    exists (last, lb). split; [apply last_snoc | exact Hfree].
  - intros [HlT | Hm]; [|discriminate].
    destruct Hcase as [(Hd & _ & Hblk & Hbrk3 & Hle3 & Hmn3) | (Hd & _)]; [|lia].
    constructor; rewrite ?Hk1, ?Hk2, ?Hk3, ?Hk4, ?Hbm3, ?Hps3, ?Hmn3;
      try assumption; try lia.
    apply geom_app in Hgeom as [Hg1 Hg2]. apply geom_app.
    split; [exact Hg1|]. destruct Hg2 as (G1 & G2 & G3 & _).
    cbn [fst snd next_addr] in G1, G2, G3.
    change (0 < last ∧ 0 < bsize rb ∧ last + bsize rb ≤ brk s3 ∧ True).
    unfold rb. cbn [bsize]. repeat (split; [lia|]). exact I.
Qed.

Lemma new_block_path (s : state) (A last : Z) (lc : list (Z * block_meta)) :
  wf s lc → no_adjacent_free lc = true →
  (∀ x, x ∈ lc → ¬ fits A x.2) → ¬ tail_free lc →
  last = last_addr lc → (lc = [] → Tf s ≤ A) → 0 < A < 2 ^ 31 →
  ok_or_abort
    ((let* block := request_space (wrap64 A) in
      if block =? 0 then ret 0
      else
        let* nb := load block in
        (if status_eqb (bstatus nb) STATUS_ALLOC then
           set_next last block;;
           let* l := load last in
           if is_free l then
             let* nb := load block in
             set_size last (wrap64 (bsize l + bsize nb));;
             let* nb := load block in
             set_next last (bnext nb)
           else ret tt
         else ret tt);;
        zero (block + ALIGN sizeof_block_meta);;
        ret (block + ALIGN sizeof_block_meta)) s)
    (alloc_post lc (Tf s) A).
Proof.
  intros [Hreg Hgeom Hbrk Hmap Hlim Hpage] Hnaf Hnofit Hnt Hlast Hempty HA.
  rewrite wrap64_small by lia.
  eapply ok_bind; [apply Hreq; lia|]. cbv beta.
  intros block s3 (Hg3 & Hbm3 & Hps3 & st & Hh3 & Hcase).
  assert (Hblock : 0 < block ∧ brk s ≤ block) by (destruct Hcase; lia).
  assert (Hnin : block ∉ lc.*1).
  { eapply geom_above_not_in; [exact Hgeom | lia | lia]. }
  destruct (block =? 0) eqn:E0; [lia|].
  assert (Hb3 : hdr s3 !! block = Some (mk_block_meta A st 0)).
  { rewrite Hh3. apply lookup_insert_eq. }
  rewrite (bind_Ret _ _ _ _ _ (load_some _ _ _ Hb3)). cbn [bstatus].
  destruct Hcase as [(HT & -> & Hbrk' & Hrest) | (HT & -> & Hmap' & Hrest)];
    cbn [status_eqb].
  - destruct (list.last lc) as [[la lb]|] eqn:Elast.
    2: { apply last_None in Elast. specialize (Hempty Elast). lia. }
    unfold last_addr in Hlast. rewrite Elast in Hlast. simpl in Hlast. subst la.
    destruct (last_snoc_inv _ _ Elast) as (lc' & ->).
    pose proof (lseg_parts _ _ _ _ _ _ Hreg) as (Hl & Hl0 & Hlpre & _ & Hpost & _).
    simpl in Hpost.
    rewrite fmap_app in Hnin. apply not_elem_of_app in Hnin as [Hnpre Hnlast].
    simpl in Hnlast. apply not_elem_of_cons in Hnlast as [Hne _].
    assert (Hnf : is_free lb = false).
    { destruct (is_free lb) eqn:E; [|reflexivity]. exfalso. apply Hnt.
      exists (last, lb). split; [exact Elast | apply status_eqb_eq; exact E]. }
    assert (Hl3 : hdr s3 !! last = Some lb).
    { rewrite Hh3, lookup_insert_ne by congruence. exact Hl. }
    rewrite bind_assoc.
    rewrite (bind_Ret _ _ _ _ _ (set_next_eq _ _ block _ Hl3)).
    rewrite bind_assoc.
    set (s4 := set_hdr (<[last := with_next block lb]> (hdr s3)) s3).
    assert (Hl4 : hdr s4 !! last = Some (with_next block lb)).
    { unfold s4. cbn [hdr set_hdr]. apply lookup_insert_eq. }
    rewrite (bind_Ret _ _ _ _ _ (load_some _ _ _ Hl4)).
    change (is_free (with_next block lb)) with (is_free lb). rewrite Hnf.
    apply alloc_finish. unfold s4, same_kernel.
    cbn [hdr set_hdr global_base brk brk_max map_next page_size].
    intros s' Hh Hg (Hk1 & Hk2 & Hk3 & Hk4).
    set (nb := mk_block_meta A STATUS_ALLOC 0).
    exists (lc' ++ [(last, with_next block lb); (block, nb)]), nb.
    rewrite get_block_ptr_payload.
    assert (Hreg' : registry_is s'
                      (lc' ++ [(last, with_next block lb); (block, nb)])).
    2: split; [exact Hreg'|split; [|split; [|split; [|split; [|split]]]]].
    + unfold registry_is, chain. rewrite Hh, Hg, Hg3, Hh3.
      eapply lseg_middle; [exact Hreg | |].
      * intros x Hx. rewrite !lookup_insert_ne; [reflexivity | |]; ne_by Hx.
      * simpl. split; [reflexivity|]. split; [exact Hl0|].
        split; [apply lookup_insert_eq|]. split; [reflexivity|].
        split; [lia|]. rewrite lookup_insert_ne by congruence.
        split; [apply lookup_insert_eq | reflexivity].
    + rewrite no_adjacent_free_frees, frees_app in *. simpl in *.
      change (is_free (with_next block lb)) with (is_free lb).
      rewrite Hnf in *. apply naf_b_snoc_after_false. exact Hnaf.
    + change (ALIGN sizeof_block_meta) with 24. lia.
    + rewrite Hh, Hh3, lookup_insert_ne by congruence. apply lookup_insert_eq.
    + left. split; [reflexivity|]. apply elem_of_app. right. right. left.
    + split; [discriminate|]. intros (HT' & _). lia.
    + intros _. destruct Hrest as (Hbrk3 & Hle3 & Hmn3).
      constructor; rewrite ?Hk1, ?Hk2, ?Hk3, ?Hk4, ?Hbm3, ?Hps3, ?Hmn3;
        try assumption; try lia.
      apply geom_app in Hgeom as [Hg1 Hg2]. apply geom_app.
      split; [exact Hg1|]. destruct Hg2 as (G1 & G2 & G3 & _).
      cbn [fst snd next_addr] in G1, G2, G3.
      change (0 < last ∧ 0 < bsize lb ∧ last + bsize lb ≤ block ∧
              0 < block ∧ 0 < bsize nb ∧ block + bsize nb ≤ brk s3 ∧ True).
      unfold nb. cbn [bsize]. repeat (split; [lia|]). exact I.
  - rewrite (bind_Ret _ _ _ _ _ (eq_refl : ret tt s3 = Ret (tt, s3))).
    apply alloc_finish. unfold same_kernel. intros s' Hh Hg (Hk1 & Hk2 & Hk3 & Hk4).
    set (nb := mk_block_meta A STATUS_MAPPED 0).
    exists lc, nb. rewrite get_block_ptr_payload.
    assert (Hreg' : registry_is s' lc).
    2: split; [exact Hreg'|split; [|split; [|split; [|split; [|split]]]]].
    + unfold registry_is, chain. rewrite Hh, Hg, Hg3, Hh3.
      apply lseg_insert_notin; [exact Hnin | exact Hreg].
    + exact Hnaf.
    + change (ALIGN sizeof_block_meta) with 24. lia.
    + rewrite Hh, Hh3. apply lookup_insert_eq.
    + right. split; [reflexivity | exact Hnin].
    + split; [intros _ | reflexivity]. auto.
    + intros _. destruct Hrest as (Hbrk3 & Hmn3).
      constructor; rewrite ?Hk1, ?Hk2, ?Hk3, ?Hk4, ?Hbm3, ?Hps3, ?Hbrk3;
        try assumption; try lia.
Qed.
End alloc_paths.

Lemma chain_nil_null h a : chain h a [] → a = 0.
Proof. intros H. exact H. Qed.

(** ** Allocation on a well-formed registry *)

Lemma coalesce_list_nil l : coalesce_list l = [] → l = [].
Proof.
  destruct l as [|x rest]; [reflexivity|]. simpl.
  destruct (coal_head x rest) as (b & t & -> & _). discriminate.
Qed.

Lemma alloc_post_rebase lc lc' T T' A p s' :
  alloc_post lc' T' A p s' → T' = T → (T ≤ A → lc' = lc) →
  alloc_post lc T A p s'.
Proof.
  intros (l' & b & H1 & H2 & H3 & H4 & H5 & H6 & H7) -> Hl.
  exists l', b. repeat (split; [assumption|]). split; [|exact H7].
  rewrite H6. split; intros (HT & Hrest); specialize (Hl HT); subst; auto.
Qed.

Section alloc_body_forward.
Variables (threshold : M Z) (request_space : Z → M Z) (zero : Z → M unit).
Variable Tf : state → Z.
Hypothesis Hthr : ∀ s, threshold s = Ret (Tf s, s).
Hypothesis HTf : ∀ s s', page_size s' = page_size s → Tf s' = Tf s.
Hypothesis Hreq : req_spec Tf request_space.
Hypothesis Hzero : zero_spec zero.

Lemma prealloc_forward (s : state) (l : list (Z * block_meta)) (A : Z) :
  wf s l →
  ok_or_abort
    ((if (global_base s =? 0) && (A <? Tf s)
      then first_time_prealloc else ret tt) s)
    (λ _ s1, ∃ l0, wf s1 l0 ∧ page_size s1 = page_size s ∧
                   (l0 = [] → Tf s ≤ A) ∧ (Tf s ≤ A → l0 = l)).
Proof.
  intros [Hreg Hgeom Hbrk Hmap Hlim Hpage].
  destruct ((global_base s =? 0) && (A <? Tf s)) eqn:E.
  - apply andb_true_iff in E as [E1 E2].
    apply Z.eqb_eq in E1. apply Z.ltb_lt in E2.
    eapply ok_weaken; [apply first_time_prealloc_forward; lia|]. cbv beta.
    intros _ s1 (Hh & Hg & Hb & Hbm & Hbm' & Hmn & Hps).
    exists [(brk s, mk_block_meta MMAP_THRESHOLD STATUS_FREE 0)].
    split; [|split; [exact Hps|split; [discriminate | lia]]].
    unfold MMAP_THRESHOLD in *.
    constructor; rewrite ?Hbm', ?Hmn, ?Hps; try lia.
    + unfold registry_is, chain. rewrite Hh, Hg. simpl.
      split; [reflexivity|]. split; [lia|].
      split; [apply lookup_insert_eq | reflexivity].
    + simpl. lia.
  - apply ok_ret. exists l. split; [constructor; assumption|].
    split; [reflexivity|]. split; [|reflexivity].
    intros ->. rewrite (chain_nil_null (hdr s) _ Hreg) in E. simpl in E.
    apply Z.ltb_ge in E. exact E.
Qed.

Lemma alloc_body_forward (s : state) (l : list (Z * block_meta)) (A : Z) :
  wf s l → 0 < A < 2 ^ 31 →
  ok_or_abort (alloc_body threshold request_space zero A s)
    (alloc_post (coalesce_list l) (Tf s) A).
Proof.
  intros Hwf HA. unfold alloc_body.
  rewrite (bind_Ret _ _ _ _ _ (eq_refl : get global_base s = Ret (global_base s, s))).
  rewrite (bind_Ret _ _ _ _ _ (Hthr s)).
  eapply ok_bind; [apply (prealloc_forward s l A Hwf)|]. cbv beta.
  intros _ s1 (l0 & Hwf1 & Hps1 & Hempty & Hsame).
  destruct (coalesce_blocks_chain s1 l0 (wf_reg _ _ Hwf1)) as (h' & Hco & Hch & _).
  rewrite (bind_Ret _ _ _ _ _ Hco).
  set (lc := coalesce_list l0) in *. set (s2 := set_hdr h' s1).
  assert (Hwf2 : wf s2 lc).
  { destruct Hwf1 as [Hreg1 Hgeom1 Hbrk1 Hmap1 Hlim1 Hpage1].
    constructor; try assumption.
    apply geom_coalesce_list; [unfold s2; cbn [brk set_hdr]; lia | exact Hgeom1]. }
  assert (Hnaf : no_adjacent_free lc = true)
    by apply no_adjacent_free_coalesce_list.
  assert (HT2 : Tf s2 = Tf s).
  { apply HTf. unfold s2. cbn [page_size set_hdr]. exact Hps1. }
  assert (Hrebase : ∀ p s', alloc_post lc (Tf s2) A p s' →
                            alloc_post (coalesce_list l) (Tf s) A p s').
  { intros p s' H. eapply alloc_post_rebase; [exact H | exact HT2|].
    intros HT. unfold lc. rewrite (Hsame HT). reflexivity. }
  destruct (find_best_fit_chain s2 lc (wrap64 A) (wf_reg _ _ Hwf2))
    as (r & Hf & Hbest).
  rewrite (bind_Ret _ _ _ _ _ Hf). rewrite wrap64_small in Hbest by lia.
  destruct Hbest as [[-> Hnone] | (Hr0 & pre & b & post & Elc & Hfit & _ & _)].
  - cbn [Z.eqb negb].
    assert (Hnone' : ∀ x, x ∈ lc → ¬ fits A x.2)
      by exact (proj1 (Forall_forall _ _) Hnone).
    destruct (list.last lc) as [[la lb]|] eqn:Elast.
    + unfold last_addr. rewrite Elast. cbn [fst].
      destruct (last_snoc_inv _ _ Elast) as (lc' & Elc).
      assert (Hin : (la, lb) ∈ lc).
      { rewrite Elc. apply elem_of_app. right. left. }
      destruct (chain_lookup _ _ _ _ (wf_reg _ _ Hwf2) Hin) as [Hl Hl0].
      cbn [fst snd] in Hl, Hl0.
      destruct (la =? 0) eqn:E0; [lia|].
      rewrite bind_assoc.
      rewrite (bind_Ret _ _ _ _ _ (load_some _ _ _ Hl)).
      rewrite (bind_Ret _ _ _ _ _
                 (eq_refl : ret (is_free lb) s2 = Ret (is_free lb, s2))).
      destruct (is_free lb) eqn:Efl.
      * eapply ok_weaken; [|exact Hrebase]. rewrite Elc in *.
        apply (expand_path zero Hzero Tf request_space Hreq); auto.
        -- apply status_eqb_eq. exact Efl.
        -- specialize (Hnone' _ Hin). unfold fits in Hnone'. cbn [snd] in Hnone'.
           apply status_eqb_eq in Efl.
           destruct (Z_lt_le_dec (bsize lb) A); [assumption | tauto].
      * eapply ok_weaken; [|exact Hrebase].
        apply (new_block_path zero Hzero Tf request_space Hreq); auto.
        -- intros (x & Hx & Hfx). rewrite Elast in Hx. inversion Hx; subst.
           apply status_eqb_eq in Hfx. unfold is_free in Efl. simpl in Hfx.
           congruence.
        -- unfold last_addr. rewrite Elast. reflexivity.
        -- intros Hnil. rewrite Hnil in Elast. discriminate.
    + unfold last_addr. rewrite Elast. cbn [Z.eqb].
      rewrite (bind_Ret _ _ _ _ _ (eq_refl : ret false s2 = Ret (false, s2))).
      eapply ok_weaken; [|exact Hrebase].
      apply (new_block_path zero Hzero Tf request_space Hreq); auto.
      * intros (x & Hx & _). rewrite Elast in Hx. discriminate.
      * unfold last_addr. rewrite Elast. reflexivity.
      * intros Hnil. rewrite HT2. apply Hempty.
        apply coalesce_list_nil. exact Hnil.
  - destruct (r =? 0) eqn:E0; [lia|]. cbn [negb].
    eapply ok_weaken; [|exact Hrebase]. rewrite Elc in *.
    apply (best_fit_path zero Hzero); auto.
Qed.
End alloc_body_forward.

Lemma aligned_size_of_small (size : Z) :
  0 ≤ size ≤ 2 ^ 31 - 32 →
  aligned_size_of size = HDR + ALIGN size ∧ 0 < aligned_size_of size < 2 ^ 31.
Proof.
  intros H. unfold aligned_size_of, HDR.
  pose proof (ALIGN_small size ltac:(lia)) as Ha.
  change (ALIGN sizeof_block_meta) with 24.
  rewrite wrap64_small, to_int_small by lia. lia.
Qed.

Lemma os_malloc_forward (s : state) (l : list (Z * block_meta)) (size : Z) :
  wf s l → 0 < size ≤ 2 ^ 31 - 32 →
  ok_or_abort (os_malloc size s)
    (alloc_post (coalesce_list l) MMAP_THRESHOLD (HDR + ALIGN size)).
Proof.
  intros Hwf Hs. rewrite os_malloc_body by lia.
  destruct (aligned_size_of_small size ltac:(lia)) as [E HA]. rewrite <- E.
  apply (alloc_body_forward (ret MMAP_THRESHOLD) request_space_malloc
           (λ _, ret tt) (λ _, MMAP_THRESHOLD)); auto.
  - apply req_spec_malloc.
  - intros p s1. exists s1. unfold same_kernel. auto 10.
Qed.

Lemma os_calloc_forward (s : state) (l : list (Z * block_meta)) (nmemb size : Z) :
  wf s l → nmemb ≠ 0 → size ≠ 0 → wrap64 (size * nmemb) ≤ 2 ^ 31 - 32 →
  ok_or_abort (os_calloc nmemb size s)
    (alloc_post (coalesce_list l) (page_size s)
       (HDR + ALIGN (wrap64 (size * nmemb)))).
Proof.
  intros Hwf Hk Hn Hs. rewrite os_calloc_body by assumption.
  pose proof (wrap64_range (size * nmemb)) as Hw.
  destruct (aligned_size_of_small (wrap64 (size * nmemb)) ltac:(lia)) as [E HA].
  rewrite <- E.
  apply (alloc_body_forward sysconf_SC_PAGESIZE request_space_calloc
           (λ p, memset p 0 (wrap64 (size * nmemb))) page_size); auto.
  - apply req_spec_calloc.
  - intros p s1. eexists. split; [reflexivity|]. unfold same_kernel. cbn. auto 10.
Qed.

Lemma os_free_alloc_forward (s : state) (pre post : list (Z * block_meta))
    (b : block_meta) (p : Z) :
  wf s (pre ++ (get_block_ptr p, b) :: post) →
  p ≠ 0 → bstatus b = STATUS_ALLOC →
  ∃ s', os_free p s = Ret (tt, s') ∧
        wf s' (pre ++ (get_block_ptr p, with_status STATUS_FREE b) :: post).
Proof.
  intros [Hreg Hgeom Hbrk Hmap Hlim Hpage] Hp Hb.
  pose proof (lseg_parts _ _ _ _ _ _ Hreg) as (Hl & Hl0 & Hlpre & Hlpost & Hpost & _).
  unfold os_free. destruct (p =? 0) eqn:E; [lia|].
  rewrite (bind_Ret _ _ _ _ _ (load_some _ _ _ Hl)). rewrite Hb. cbn [status_eqb].
  rewrite (set_status_eq _ _ STATUS_FREE _ Hl).
  eexists. split; [reflexivity|].
  constructor; cbn [brk brk_max map_next page_size set_hdr]; try assumption.
  - unfold registry_is, chain. cbn [hdr global_base set_hdr].
    eapply lseg_middle; [exact Hreg | |].
    + intros x Hx. rewrite lookup_insert_ne; [reflexivity|]. ne_by Hx.
    + simpl. split; [reflexivity|]. split; [exact Hl0|].
      split; [apply lookup_insert_eq|].
      eapply lseg_frame; [|exact Hpost].
      intros x Hx. rewrite lookup_insert_ne; [reflexivity|]. ne_by Hx.
  - apply geom_app in Hgeom as [Hg1 Hg2]. apply geom_app. split; assumption.
Qed.

(** ** No two consecutive FREE blocks *)

(** C1, as stated, fails: after [p = os_malloc(100); os_free(p)] from the
    initial state the registry holds two consecutive FREE blocks. *)
Lemma free_leaves_adjacent_free_blocks :
  ¬ (∀ (cs : list call) (rs : list (option Z)) (s' : state)
       (l : list (Z * block_meta)),
       run cs s0 = Ret (rs, s') → registry_is s' l →
       no_adjacent_free l = true).
Proof.
  intros H.
  specialize (H [Malloc 100; Free 65560] [Some 65560; None]
                (run_state (run [Malloc 100; Free 65560]) s0)
                [(65536, mk_block_meta 128 STATUS_FREE 65664);
                 (65664, mk_block_meta 130944 STATUS_FREE 0)]).
  assert (E : no_adjacent_free
                [(65536, mk_block_meta 128 STATUS_FREE 65664);
                 (65664, mk_block_meta 130944 STATUS_FREE 0)] = true).
  { apply H.
    - apply run_state_spec. vm_compute. reflexivity.
    - apply registry_registry_is. vm_compute. reflexivity. }
  vm_compute in E. discriminate.
Qed.

Ltac concrete_wf :=
  constructor;
  [ apply registry_registry_is; vm_compute; reflexivity
  | vm_compute; repeat split; try reflexivity; try discriminate
  | vm_compute; repeat split; try reflexivity; try discriminate
  | vm_compute; discriminate
  | vm_compute; reflexivity
  | vm_compute; repeat split; try reflexivity; try discriminate ].

Lemma wf_s_freed : wf s_freed registry_freed.
Proof. concrete_wf. Qed.

(** ** Which store backs an allocation *)




(** ** Header updates on a well-formed registry *)

Lemma wf_block_bounds s pre a b post :
  wf s (pre ++ (a, b) :: post) →
  0 < a ∧ 0 < bsize b ∧ a + bsize b ≤ next_addr (brk s) post ∧
  next_addr (brk s) post ≤ brk s ∧ brk s < 2 ^ 63.
Proof.
  intros [Hreg Hgeom Hbrk Hmap Hlim Hpage].
  apply geom_app in Hgeom as [_ (G1 & G2 & G3 & G4)]. cbn [fst snd] in *.
  pose proof (geom_next_le _ _ G4 ltac:(lia)). lia.
Qed.

Lemma set_status_wf s pre post a b st :
  wf s (pre ++ (a, b) :: post) →
  set_status a st s = Ret (tt, set_hdr (<[a := with_status st b]> (hdr s)) s) ∧
  wf (set_hdr (<[a := with_status st b]> (hdr s)) s)
     (pre ++ (a, with_status st b) :: post).
Proof.
  intros [Hreg Hgeom Hbrk Hmap Hlim Hpage].
  pose proof (lseg_parts _ _ _ _ _ _ Hreg) as (Hl & Hl0 & Hlpre & Hlpost & Hpost & _).
  split; [apply set_status_eq; exact Hl|].
  constructor; cbn [brk brk_max map_next page_size set_hdr]; try assumption.
  - unfold registry_is, chain. cbn [hdr global_base set_hdr].
    eapply lseg_middle; [exact Hreg | |].
    + intros x Hx. rewrite lookup_insert_ne; [reflexivity|]. ne_by Hx.
    + simpl. split; [reflexivity|]. split; [exact Hl0|].
      split; [apply lookup_insert_eq|].
      eapply lseg_frame; [|exact Hpost].
      intros x Hx. rewrite lookup_insert_ne; [reflexivity|]. ne_by Hx.
  - apply geom_app in Hgeom as [Hg1 Hg2]. apply geom_app. split; assumption.
Qed.

Lemma split_block_wf s pre post a b size :
  wf s (pre ++ (a, b) :: post) → 0 < size < bsize b →
  ∃ h', split_block a size s = Ret (tt, set_hdr h' s) ∧
        wf (set_hdr h' s) (pre ++ split_at size (a, b) ++ post) ∧
        (∀ x, x ≠ a → x ≠ a + size → h' !! x = hdr s !! x).
Proof.
  intros Hwf Hs. pose proof (wf_block_bounds _ _ _ _ _ Hwf) as Hb.
  destruct Hwf as [Hreg Hgeom Hbrk Hmap Hlim Hpage].
  pose proof (lseg_parts _ _ _ _ _ _ Hreg) as (Hr & Hr0 & Hrpre & Hrpost & Hpost & _).
  assert (Hnew : a + size ∉ (pre ++ (a, b) :: post).*1).
  { eapply geom_inside_not_in; [exact Hgeom | lia | lia]. }
  rewrite fmap_app in Hnew. apply not_elem_of_app in Hnew as [Hnpre Hnpost].
  simpl in Hnpost. apply not_elem_of_cons in Hnpost as [_ Hnpost].
  eexists. split; [apply (split_block_eq _ _ size _ Hr); lia|].
  rewrite wrap64_small by lia.
  split; [|intros x Hx1 Hx2; rewrite !lookup_insert_ne by congruence; reflexivity].
  constructor; cbn [brk brk_max map_next page_size set_hdr]; try assumption.
  - unfold registry_is, chain. cbn [hdr global_base set_hdr].
    eapply lseg_middle; [exact Hreg | |].
    + intros x Hx. rewrite !lookup_insert_ne; [reflexivity | |]; ne_by Hx.
    + simpl. split; [reflexivity|]. split; [exact Hr0|].
      split; [apply lookup_insert_eq|]. split; [reflexivity|].
      split; [lia|]. rewrite lookup_insert_ne by lia.
      split; [apply lookup_insert_eq|].
      eapply lseg_frame; [|exact Hpost].
      intros x Hx. rewrite !lookup_insert_ne; [reflexivity | |]; ne_by Hx.
  - apply geom_app in Hgeom as [Hg1 Hg2]. apply geom_app.
    split; [exact Hg1|]. destruct Hg2 as (G1 & G2 & G3 & G4).
    cbn [fst snd] in G1, G2, G3.
    change (0 < a ∧ 0 < size ∧ a + size ≤ a + size ∧
            0 < a + size ∧ 0 < bsize b - size ∧
            a + size + (bsize b - size) ≤ next_addr (brk s) post ∧
            geom (brk s) post).
    repeat (split; [lia|]). exact G4.
Qed.

Lemma wf_s_one : wf s_one registry_one.
Proof. concrete_wf. Qed.

Lemma total_size_app l1 l2 :
  total_size (l1 ++ l2) = total_size l1 + total_size l2.
Proof.
  induction l1 as [|x l1 IH]; simpl; [reflexivity|].
  unfold total_size in *. simpl. rewrite IH. lia.
Qed.

(** ** [split_block] *)

(** X1: [split_block] on a registry block, when both parts have room for a
    header (the first part is at least 24 bytes and leaves at least 24 bytes
    of the block), returns; the block is replaced, in place, by a block of
    [size] bytes with the old status followed by a FREE block that holds
    the rest and the old successor; the registry stays well-formed, the
    bytes it covers are the same, the break and the system calls made are
    the same, and no byte outside the two headers is written. *)
Theorem split_block_splits_in_place (s : state)
    (pre post : list (Z * block_meta)) (a size : Z) (b : block_meta) :
  wf s (pre ++ (a, b) :: post) →
  sizeof_block_meta ≤ size → size + sizeof_block_meta ≤ bsize b →
  ∃ s', split_block a size s = Ret (tt, s') ∧
        wf s' (pre ++ (a, mk_block_meta size (bstatus b) (a + size)) ::
                      (a + size,
                       mk_block_meta (bsize b - size) STATUS_FREE (bnext b)) ::
                      post) ∧
        total_size (pre ++ (a, mk_block_meta size (bstatus b) (a + size)) ::
                      (a + size,
                       mk_block_meta (bsize b - size) STATUS_FREE (bnext b)) ::
                      post) =
        total_size (pre ++ (a, b) :: post) ∧
        (∀ x, ¬ (a ≤ x < a + sizeof_block_meta) →
              ¬ (a + size ≤ x < a + size + sizeof_block_meta) →
              mem s' x = mem s x) ∧
        brk s' = brk s ∧ trace s' = trace s.
Proof.
  intros Hwf Hlo Hhi. unfold sizeof_block_meta in Hlo, Hhi.
  destruct (split_block_wf s pre post a b size Hwf ltac:(lia))
    as (h' & Hr & Hwf' & _).
  exists (set_hdr h' s). split; [exact Hr|]. split; [exact Hwf'|].
  split; [|auto]. rewrite !total_size_app. unfold total_size. simpl. lia.
Qed.

Lemma split_block_splits_in_place_witness :
  ∃ s', split_block 65664 64 s_one = Ret (tt, s') ∧
        wf s' ([(65536, mk_block_meta 128 STATUS_ALLOC 65664)] ++
               (65664, mk_block_meta 64 STATUS_FREE (65664 + 64)) ::
               (65664 + 64, mk_block_meta (130944 - 64) STATUS_FREE 0) :: []) ∧
        total_size ([(65536, mk_block_meta 128 STATUS_ALLOC 65664)] ++
               (65664, mk_block_meta 64 STATUS_FREE (65664 + 64)) ::
               (65664 + 64, mk_block_meta (130944 - 64) STATUS_FREE 0) :: []) =
        total_size ([(65536, mk_block_meta 128 STATUS_ALLOC 65664)] ++
               (65664, mk_block_meta 130944 STATUS_FREE 0) :: []) ∧
        (∀ x, ¬ (65664 ≤ x < 65664 + sizeof_block_meta) →
              ¬ (65664 + 64 ≤ x < 65664 + 64 + sizeof_block_meta) →
              mem s' x = mem s_one x) ∧
        brk s' = brk s_one ∧ trace s' = trace s_one.
Proof.
  apply (split_block_splits_in_place s_one
           [(65536, mk_block_meta 128 STATUS_ALLOC 65664)] [] 65664 64
           (mk_block_meta 130944 STATUS_FREE 0)).
  - exact wf_s_one.
  - unfold sizeof_block_meta. lia.
  - unfold sizeof_block_meta. simpl. lia.
Defined.

(** ** [realloc_expand] *)

Lemma absorb_addr x post : (absorb x post).1.1 = x.1.
Proof.
  revert x. induction post as [|y post IH]; intros x; simpl; [reflexivity|].
  destruct (is_free y.2); [|reflexivity]. rewrite IH. reflexivity.
Qed.

Lemma absorb_status x post : bstatus (absorb x post).1.2 = bstatus x.2.
Proof.
  revert x. induction post as [|y post IH]; intros x; simpl; [reflexivity|].
  destruct (is_free y.2); [|reflexivity]. rewrite IH. reflexivity.
Qed.

Lemma absorb_head_not_free x post y :
  head (absorb x post).2 = Some y → is_free y.2 = false.
Proof.
  revert x. induction post as [|z post IH]; intros x; simpl; [discriminate|].
  destruct (is_free z.2) eqn:E; [apply IH|].
  simpl. intros H. inversion H; subst. exact E.
Qed.

Lemma geom_absorb top x post :
  0 < top ≤ 2 ^ 64 → geom top (x :: post) →
  geom top ((absorb x post).1 :: (absorb x post).2) ∧
  total_size ((absorb x post).1 :: (absorb x post).2) = total_size (x :: post).
Proof.
  intros Ht. revert x. induction post as [|y post IH]; intros x Hg;
    cbn [absorb].
  - split; [exact Hg | reflexivity].
  - destruct (is_free y.2); [|split; [exact Hg | reflexivity]].
    destruct (IH (merge x y) (geom_merge _ _ _ _ Hg Ht)) as [H1 H2].
    split; [exact H1|]. rewrite H2.
    destruct Hg as (G1 & G2 & G3 & G4 & G5 & G6 & G7). simpl in G3.
    pose proof (geom_next_le _ _ G7 ltac:(lia)).
    unfold total_size. simpl. rewrite wrap64_small by lia. lia.
Qed.

Lemma realloc_expand_loop_spec a :
  ∀ post fuel h b,
    lseg h a ((a, b) :: post) 0 → (length post < fuel)%nat →
    ∃ h', realloc_expand_loop fuel h a (bnext b) = Ret h' ∧
          lseg h' a ((absorb (a, b) post).1 :: (absorb (a, b) post).2) 0 ∧
          (∀ x, x ≠ a → h' !! x = h !! x).
Proof.
  induction post as [|y post IH]; intros fuel h b Hc Hf;
    (destruct fuel; [simpl in Hf; lia|]).
  - pose proof Hc as (_ & Ha0 & Ha & Hn). simpl in Hn. simpl. rewrite Hn. simpl.
    exists h. repeat split; auto.
  - pose proof Hc as (_ & Ha0 & Ha & Hn & Hy0 & Hy & Hrest).
    cbn [fst snd] in *. simpl realloc_expand_loop. rewrite Hn.
    destruct (y.1 =? 0) eqn:E; [lia|].
    unfold hload at 1. rewrite Hy. cbn [obind absorb].
    destruct (is_free y.2) eqn:Efy.
    + unfold hload at 1. rewrite Ha. cbn [obind].
      unfold hload at 1. rewrite lookup_insert_eq. cbn [obind bnext].
      pose proof (lseg_absorb h (a, b) y post Hc) as Hc2.
      cbn [fst snd] in Hc2.
      destruct (IH fuel _ _ Hc2 ltac:(simpl in Hf; lia)) as (h' & Hr & Hl & Hfr).
      exists h'. split; [exact Hr|]. split; [exact Hl|].
      intros x Hx. rewrite Hfr by exact Hx. apply lookup_insert_ne. congruence.
    + exists h. split; [reflexivity|]. split; [exact Hc | auto].
Qed.

Lemma realloc_expand_wf s pre post a b size :
  wf s (pre ++ (a, b) :: post) →
  ∃ h', realloc_expand a size s =
          Ret ((if size <=? bsize (absorb (a, b) post).1.2 then a else 0),
               set_hdr h' s) ∧
        wf (set_hdr h' s) (pre ++ (absorb (a, b) post).1 :: (absorb (a, b) post).2) ∧
        (∀ x, x ≠ a → h' !! x = hdr s !! x).
Proof.
  intros Hwf. pose proof (wf_block_bounds _ _ _ _ _ Hwf) as Hb.
  destruct Hwf as [Hreg Hgeom Hbrk Hmap Hlim Hpage].
  pose proof (lseg_parts _ _ _ _ _ _ Hreg) as (Hr & Hr0 & Hrpre & Hrpost & Hpost & _).
  pose proof (chain_length _ _ _ Hreg) as Hlen.
  rewrite length_app in Hlen. simpl in Hlen.
  assert (Hc : lseg (hdr s) a ((a, b) :: post) 0).
  { simpl. auto. }
  destruct (realloc_expand_loop_spec a post (walk_fuel (hdr s)) (hdr s) b Hc)
    as (h' & Hloop & Hl & Hfr); [unfold walk_fuel; lia|].
  exists h'. unfold realloc_expand.
  rewrite (bind_Ret _ _ _ _ _ (load_some _ _ _ Hr)).
  unfold bind at 1. rewrite Hloop.
  pose proof (absorb_addr (a, b) post) as Ea. cbn [fst] in Ea.
  assert (Hh' : hdr (set_hdr h' s) !! a = Some (absorb (a, b) post).1.2).
  { cbn [hdr set_hdr]. destruct Hl as (_ & _ & Hl & _). rewrite Ea in Hl. exact Hl. }
  rewrite (bind_Ret _ _ _ _ _ (load_some _ _ _ Hh')).
  split; [destruct (size <=? bsize (absorb (a, b) post).1.2); reflexivity|].
  split; [|exact Hfr].
  constructor; cbn [brk brk_max map_next page_size set_hdr]; try assumption.
  - unfold registry_is, chain. cbn [hdr global_base set_hdr].
    eapply lseg_middle; [exact Hreg | | exact Hl].
    intros x Hx. apply Hfr. intros Heq. rewrite Heq in Hx. contradiction.
  - apply geom_app in Hgeom as [Hg1 Hg2]. apply geom_app.
    destruct (geom_absorb (brk s) (a, b) post ltac:(lia) Hg2) as [Hg3 _].
    split; [|exact Hg3]. simpl. rewrite Ea. exact Hg1.
Qed.

(** X2: [realloc_expand] on a registry block returns; the block has taken
    over every FREE block that followed it up to the first block that is
    not FREE, and keeps them whether or not it then reaches [size]; the
    result is the block when its size reaches [size] and null otherwise.
    The registry stays well-formed and covers the same bytes. *)
Theorem realloc_expand_absorbs_free_successors (s : state)
    (pre post : list (Z * block_meta)) (a size : Z) (b : block_meta) :
  wf s (pre ++ (a, b) :: post) →
  ∃ s',
    realloc_expand a size s =
      Ret ((if size <=? bsize (absorb (a, b) post).1.2 then a else 0), s') ∧
    wf s' (pre ++ (absorb (a, b) post).1 :: (absorb (a, b) post).2) ∧
    (absorb (a, b) post).1.1 = a ∧
    bstatus (absorb (a, b) post).1.2 = bstatus b ∧
    (∀ y, head (absorb (a, b) post).2 = Some y → bstatus y.2 ≠ STATUS_FREE) ∧
    total_size (pre ++ (absorb (a, b) post).1 :: (absorb (a, b) post).2) =
    total_size (pre ++ (a, b) :: post) ∧
    mem s' = mem s ∧ brk s' = brk s ∧ trace s' = trace s.
Proof.
  intros Hwf. pose proof (wf_block_bounds _ _ _ _ _ Hwf) as Hb.
  destruct (realloc_expand_wf s pre post a b size Hwf) as (h' & Hr & Hwf' & _).
  exists (set_hdr h' s). split; [exact Hr|]. split; [exact Hwf'|].
  split; [apply (absorb_addr (a, b))|]. split; [apply (absorb_status (a, b))|].
  split.
  { intros y Hy Hf. apply absorb_head_not_free in Hy.
    apply status_eqb_eq in Hf. unfold is_free in Hy. congruence. }
  split; [|auto].
  destruct Hwf as [_ Hgeom _ _ _ _].
  apply geom_app in Hgeom as [_ Hg2].
  destruct (geom_absorb (brk s) (a, b) post ltac:(lia) Hg2) as [_ Ht].
  rewrite !total_size_app, Ht. reflexivity.
Qed.

Lemma realloc_expand_absorbs_free_successors_witness :
  ∃ s',
    realloc_expand 65536 1000 s_one =
      Ret ((if 1000 <=? bsize (absorb (65536, mk_block_meta 128 STATUS_ALLOC 65664)
                                 [(65664, mk_block_meta 130944 STATUS_FREE 0)]).1.2
            then 65536 else 0), s') ∧
    wf s' ([] ++ (absorb (65536, mk_block_meta 128 STATUS_ALLOC 65664)
                    [(65664, mk_block_meta 130944 STATUS_FREE 0)]).1 ::
                 (absorb (65536, mk_block_meta 128 STATUS_ALLOC 65664)
                    [(65664, mk_block_meta 130944 STATUS_FREE 0)]).2) ∧
    (absorb (65536, mk_block_meta 128 STATUS_ALLOC 65664)
       [(65664, mk_block_meta 130944 STATUS_FREE 0)]).1.1 = 65536 ∧
    bstatus (absorb (65536, mk_block_meta 128 STATUS_ALLOC 65664)
               [(65664, mk_block_meta 130944 STATUS_FREE 0)]).1.2 =
    bstatus (mk_block_meta 128 STATUS_ALLOC 65664) ∧
    (∀ y, head (absorb (65536, mk_block_meta 128 STATUS_ALLOC 65664)
                  [(65664, mk_block_meta 130944 STATUS_FREE 0)]).2 = Some y →
          bstatus y.2 ≠ STATUS_FREE) ∧
    total_size ([] ++ (absorb (65536, mk_block_meta 128 STATUS_ALLOC 65664)
                         [(65664, mk_block_meta 130944 STATUS_FREE 0)]).1 ::
                      (absorb (65536, mk_block_meta 128 STATUS_ALLOC 65664)
                         [(65664, mk_block_meta 130944 STATUS_FREE 0)]).2) =
    total_size ([] ++ (65536, mk_block_meta 128 STATUS_ALLOC 65664) ::
                      [(65664, mk_block_meta 130944 STATUS_FREE 0)]) ∧
    mem s' = mem s_one ∧ brk s' = brk s_one ∧ trace s' = trace s_one.
Proof.
  apply (realloc_expand_absorbs_free_successors s_one []
           [(65664, mk_block_meta 130944 STATUS_FREE 0)] 65536 1000
           (mk_block_meta 128 STATUS_ALLOC 65664)).
  exact wf_s_one.
Defined.

(** ** [coalesce_blocks] and the blocks in use *)

Lemma total_size_coal top x rest :
  0 < top ≤ 2 ^ 64 → geom top (x :: rest) →
  total_size (coal x rest) = total_size (x :: rest).
Proof.
  intros Ht. revert x. induction rest as [|y rest IH]; intros x Hg;
    cbn [coal]; [reflexivity|].
  destruct (is_free x.2 && is_free y.2).
  - rewrite (IH _ (geom_merge _ _ _ _ Hg Ht)).
    destruct Hg as (G1 & G2 & G3 & G4 & G5 & G6 & G7). simpl in G3.
    pose proof (geom_next_le _ _ G7 ltac:(lia)).
    unfold total_size. simpl. rewrite wrap64_small by lia. lia.
  - destruct Hg as (_ & _ & _ & Hg). specialize (IH y Hg).
    unfold total_size in *. simpl in *. rewrite IH. reflexivity.
Qed.

Lemma used_block_in_coal z x rest :
  z ∈ x :: rest → is_free z.2 = false → z ∈ coal x rest.
Proof.
  revert x. induction rest as [|y rest IH]; intros x Hin Hz; cbn [coal];
    [exact Hin|].
  destruct (is_free x.2 && is_free y.2) eqn:E.
  - apply andb_true_iff in E as [Ex Ey]. apply IH; [|exact Hz].
    apply elem_of_cons in Hin as [-> | Hin]; [congruence|].
    apply elem_of_cons in Hin as [-> | Hin]; [congruence|].
    right. exact Hin.
  - apply elem_of_cons in Hin as [-> | Hin]; [left|].
    right. apply IH; assumption.
Qed.

Lemma coalesce_blocks_wf s l :
  wf s l →
  ∃ h', coalesce_blocks s = Ret (last_addr (coalesce_list l), set_hdr h' s) ∧
        wf (set_hdr h' s) (coalesce_list l) ∧
        ∀ a, a ∉ l.*1 → h' !! a = hdr s !! a.
Proof.
  intros [Hreg Hgeom Hbrk Hmap Hlim Hpage].
  destruct (coalesce_blocks_chain s l Hreg) as (h' & Hco & Hch & Hfr).
  exists h'. split; [exact Hco|]. split; [|exact Hfr].
  constructor; cbn [brk brk_max map_next page_size set_hdr]; try assumption.
  apply geom_coalesce_list; [lia | exact Hgeom].
Qed.

(** X3: [coalesce_blocks] on a well-formed registry returns the address of
    the last block; the registry stays well-formed and covers the same
    bytes; every block that is not FREE is still on it with its header
    unchanged, and headers off the registry (those of mapped blocks) are
    not written. *)
Theorem coalesce_blocks_keeps_used_blocks (s : state)
    (l : list (Z * block_meta)) :
  wf s l →
  ∃ s',
    coalesce_blocks s = Ret (last_addr (coalesce_list l), s') ∧
    wf s' (coalesce_list l) ∧
    total_size (coalesce_list l) = total_size l ∧
    (∀ x, x ∈ l → bstatus x.2 ≠ STATUS_FREE →
          x ∈ coalesce_list l ∧ hdr s' !! x.1 = Some x.2) ∧
    (∀ a, a ∉ l.*1 → hdr s' !! a = hdr s !! a) ∧
    mem s' = mem s ∧ brk s' = brk s ∧ trace s' = trace s.
Proof.
  intros Hwf. destruct (coalesce_blocks_wf s l Hwf) as (h' & Hco & Hwf' & Hfr).
  exists (set_hdr h' s). split; [exact Hco|]. split; [exact Hwf'|].
  destruct Hwf as [Hreg Hgeom Hbrk Hmap Hlim Hpage].
  split; [|split; [|split; [exact Hfr | auto]]].
  - destruct l as [|x rest]; [reflexivity|].
    apply (total_size_coal (brk s)); [lia | exact Hgeom].
  - intros x Hx Hnf.
    assert (Hin : x ∈ coalesce_list l).
    { destruct l as [|y rest]; [inversion Hx|].
      apply used_block_in_coal; [exact Hx|].
      destruct (is_free x.2) eqn:E; [|reflexivity].
      apply status_eqb_eq in E. contradiction. }
    split; [exact Hin|].
    exact (proj1 (chain_lookup _ _ _ _ (wf_reg _ _ Hwf') Hin)).
Qed.

Lemma wf_s_two : wf s_two registry_two.
Proof. concrete_wf. Qed.

Lemma wf_s_pair : wf s_pair registry_pair.
Proof. concrete_wf. Qed.

Lemma coalesce_blocks_keeps_used_blocks_witness :
  ∃ s',
    coalesce_blocks s_two = Ret (last_addr (coalesce_list registry_two), s') ∧
    wf s' (coalesce_list registry_two) ∧
    total_size (coalesce_list registry_two) = total_size registry_two ∧
    (∀ x, x ∈ registry_two → bstatus x.2 ≠ STATUS_FREE →
          x ∈ coalesce_list registry_two ∧ hdr s' !! x.1 = Some x.2) ∧
    (∀ a, a ∉ registry_two.*1 → hdr s' !! a = hdr s_two !! a) ∧
    mem s' = mem s_two ∧ brk s' = brk s_two ∧ trace s' = trace s_two.
Proof. apply (coalesce_blocks_keeps_used_blocks s_two registry_two wf_s_two). Defined.

(** ** Allocation, path by path *)

Lemma wf_quiet s s' l : hdr s' = hdr s → quiet s s' → wf s l → wf s' l.
Proof.
  intros Hh ((Hk1 & Hk2 & Hk3 & Hk4) & Hg & _) [Hreg Hgeom Hbrk Hmap Hlim Hpage].
  constructor; rewrite ?Hk1, ?Hk2, ?Hk3, ?Hk4; try assumption.
  unfold registry_is. rewrite Hh, Hg. exact Hreg.
Qed.

Lemma quiet_refl s : quiet s s.
Proof. unfold quiet, same_kernel. auto 10. Qed.

Lemma quiet_set_hdr h s : quiet s (set_hdr h s).
Proof. unfold quiet, same_kernel. auto 10. Qed.

Lemma quiet_trans s1 s2 s3 : quiet s1 s2 → quiet s2 s3 → quiet s1 s3.
Proof.
  unfold quiet, same_kernel.
  intros ((A1 & A2 & A3 & A4) & A5 & A6) ((B1 & B2 & B3 & B4) & B5 & B6).
  repeat split; congruence.
Qed.

Lemma zero_quiet_malloc : zero_quiet (λ _, ret tt).
Proof. intros p s. exists s. split; [reflexivity|]. split; [reflexivity | apply quiet_refl]. Qed.

Lemma zero_quiet_calloc n : zero_quiet (λ p, memset p 0 n).
Proof.
  intros p s. eexists. split; [reflexivity|]. split; [reflexivity|].
  unfold quiet, same_kernel. cbn. auto 10.
Qed.

Section alloc_exact.
Variables (threshold : M Z) (request_space : Z → M Z) (zero : Z → M unit).
Variable Tf : state → Z.
Hypothesis Hthr : ∀ s, threshold s = Ret (Tf s, s).
Hypothesis Hzero : zero_quiet zero.

Lemma finish_exact (block : Z) (s : state) :
  ∃ s', (zero (block + ALIGN sizeof_block_meta);;
         ret (block + ALIGN sizeof_block_meta)) s =
        Ret (block + ALIGN sizeof_block_meta, s') ∧
        hdr s' = hdr s ∧ quiet s s'.
Proof.
  destruct (Hzero (block + ALIGN sizeof_block_meta) s) as (s' & Hz & Hh & Hq).
  exists s'. rewrite (bind_Ret _ _ _ _ _ Hz). auto.
Qed.

Lemma best_fit_exact (s : state) (A r : Z) (pre post : list (Z * block_meta))
    (b : block_meta) :
  wf s (pre ++ (r, b) :: post) → fits A b → 0 < A < 2 ^ 31 →
  ∃ s',
    (let* b := load r in
     (if wrap64 (A + ALIGN (sizeof_block_meta + ALIGN 1)) <=? bsize b
      then split_block r (wrap64 A) else ret tt);;
     set_status r STATUS_ALLOC;;
     zero (r + ALIGN sizeof_block_meta);;
     ret (r + ALIGN sizeof_block_meta)) s =
    Ret (r + ALIGN sizeof_block_meta, s') ∧
    wf s' (pre ++ carve A (r, b) ++ post) ∧ quiet s s'.
Proof.
  intros Hwf [Hfree Hsize] HA.
  pose proof (wf_block_bounds _ _ _ _ _ Hwf) as Hb.
  pose proof (lseg_parts _ _ _ _ _ _ (wf_reg _ _ Hwf)) as (Hr & _).
  rewrite (bind_Ret _ _ _ _ _ (load_some _ _ _ Hr)).
  change (ALIGN (sizeof_block_meta + ALIGN 1)) with MIN_BLOCK.
  rewrite MIN_BLOCK_val, !wrap64_small by lia.
  unfold carve. rewrite MIN_BLOCK_val. cbn [fst snd].
  destruct (A + 32 <=? bsize b) eqn:Esplit.
  - apply Z.leb_le in Esplit.
    destruct (split_block_wf s pre post r b A Hwf ltac:(lia)) as (h1 & Hsp & Hwf1 & _).
    rewrite (bind_Ret _ _ _ _ _ Hsp).
    unfold split_at in Hwf1. cbn [fst snd app] in Hwf1.
    destruct (set_status_wf _ _ _ _ _ STATUS_ALLOC Hwf1) as [Hst Hwf2].
    rewrite (bind_Ret _ _ _ _ _ Hst).
    destruct (finish_exact r (set_hdr (<[r := with_status STATUS_ALLOC
       (mk_block_meta A (bstatus b) (r + A))]> (hdr (set_hdr h1 s))) (set_hdr h1 s)))
      as (s' & Hfin & Hh & Hq).
    exists s'. split; [exact Hfin|]. split.
    + eapply wf_quiet; [exact Hh | exact Hq | exact Hwf2].
    + eapply quiet_trans; [|exact Hq]. unfold quiet, same_kernel. cbn. auto 10.
  - rewrite (bind_Ret _ _ _ _ _ (eq_refl : ret tt s = Ret (tt, s))).
    destruct (set_status_wf _ _ _ _ _ STATUS_ALLOC Hwf) as [Hst Hwf2].
    rewrite (bind_Ret _ _ _ _ _ Hst).
    destruct (finish_exact r (set_hdr (<[r := with_status STATUS_ALLOC b]> (hdr s)) s))
      as (s' & Hfin & Hh & Hq).
    exists s'. split; [exact Hfin|]. split.
    + eapply wf_quiet; [exact Hh | exact Hq | exact Hwf2].
    + eapply quiet_trans; [|exact Hq]. apply quiet_set_hdr.
Qed.

Lemma wf_nonempty_base s l : wf s l → l ≠ [] → global_base s ≠ 0.
Proof.
  intros [Hreg _ _ _ _ _] Hne. destruct l as [|x l]; [congruence|].
  destruct Hreg as (-> & H0 & _). exact H0.
Qed.

Lemma alloc_body_reuse (s : state) (l : list (Z * block_meta)) (A : Z) :
  wf s l → (∃ x, x ∈ coalesce_list l ∧ fits A x.2) → 0 < A < 2 ^ 31 →
  ∃ r s' pre b post,
    alloc_body threshold request_space zero A s =
      Ret (r + ALIGN sizeof_block_meta, s') ∧
    coalesce_list l = pre ++ (r, b) :: post ∧ fits A b ∧
    (∀ x, x ∈ pre → fits A x.2 → bsize b < bsize x.2) ∧
    (∀ x, x ∈ post → fits A x.2 → bsize b ≤ bsize x.2) ∧
    wf s' (pre ++ carve A (r, b) ++ post) ∧ quiet s s'.
Proof.
  intros Hwf (x & Hx & Hfx) HA. unfold alloc_body.
  rewrite (bind_Ret _ _ _ _ _ (eq_refl : get global_base s = Ret (global_base s, s))).
  rewrite (bind_Ret _ _ _ _ _ (Hthr s)).
  assert (Hne : l ≠ []) by (intros ->; inversion Hx).
  pose proof (wf_nonempty_base _ _ Hwf Hne) as Hg.
  destruct (global_base s =? 0) eqn:E0; [lia|]. cbn [andb].
  rewrite (bind_Ret _ _ _ _ _ (eq_refl : ret tt s = Ret (tt, s))).
  destruct (coalesce_blocks_wf s l Hwf) as (h' & Hco & Hwf2 & _).
  rewrite (bind_Ret _ _ _ _ _ Hco).
  destruct (find_best_fit_chain _ _ (wrap64 A) (wf_reg _ _ Hwf2)) as (r & Hf & Hbest).
  rewrite (bind_Ret _ _ _ _ _ Hf). rewrite wrap64_small in Hbest by lia.
  destruct Hbest as [[-> Hnone] | (Hr0 & pre & b & post & Elc & Hfit & Hpre & Hpost)].
  { exfalso. exact (proj1 (Forall_forall _ _) Hnone x Hx Hfx). }
  destruct (r =? 0) eqn:Er; [lia|]. cbn [negb].
  rewrite Elc in Hwf2.
  destruct (best_fit_exact _ A r pre post b Hwf2 Hfit HA) as (s' & Hrun & Hwf' & Hq).
  exists r, s', pre, b, post. split; [exact Hrun|]. split; [exact Elc|].
  split; [exact Hfit|].
  split; [exact (proj1 (Forall_forall _ _) Hpre)|].
  split; [exact (proj1 (Forall_forall _ _) Hpost)|].
  split; [exact Hwf'|]. eapply quiet_trans; [apply quiet_set_hdr | exact Hq].
Qed.

Hypothesis HTf : ∀ s s', page_size s' = page_size s → Tf s' = Tf s.
Hypothesis Hreq : req_spec Tf request_space.

Lemma no_prealloc (s : state) (A : Z) (k : M Z) :
  (global_base s =? 0) && (A <? Tf s) = false →
  (let* base := get global_base in
   let* thr := threshold in
   (if (base =? 0) && (A <? thr) then first_time_prealloc else ret tt);;
   k) s = k s.
Proof.
  intros E.
  rewrite (bind_Ret _ _ _ _ _ (eq_refl : get global_base s = Ret (global_base s, s))).
  rewrite (bind_Ret _ _ _ _ _ (Hthr s)). rewrite E.
  rewrite (bind_Ret _ _ _ _ _ (eq_refl : ret tt s = Ret (tt, s))). reflexivity.
Qed.

Lemma alloc_body_extend (s : state) (l lc' : list (Z * block_meta)) (A last : Z)
    (lb : block_meta) :
  wf s l → coalesce_list l = lc' ++ [(last, lb)] → bstatus lb = STATUS_FREE →
  (∀ x, x ∈ coalesce_list l → ¬ fits A x.2) → 0 < A < 2 ^ 31 →
  ok_or_abort (alloc_body threshold request_space zero A s)
    (λ p s',
       p = last + ALIGN sizeof_block_meta ∧ bsize lb < A ∧
       registry_is s' (lc' ++ [(last, mk_block_meta A STATUS_ALLOC 0)]) ∧
       ((A - bsize lb < Tf s ∧ brk s' = brk s + (A - bsize lb) ∧
         map_next s' = map_next s ∧
         wf s' (lc' ++ [(last, mk_block_meta A STATUS_ALLOC 0)])) ∨
        (Tf s ≤ A - bsize lb ∧ brk s' = brk s ∧
         hdr s' !! map_next s =
           Some (mk_block_meta (A - bsize lb) STATUS_MAPPED 0)))).
Proof.
  intros Hwf Elc Hfree Hnone HA. unfold alloc_body.
  assert (Hne : l ≠ []).
  { intros ->. simpl in Elc. destruct lc'; discriminate. }
  pose proof (wf_nonempty_base _ _ Hwf Hne) as Hg.
  rewrite no_prealloc by (destruct (global_base s =? 0) eqn:E0; [lia | reflexivity]).
  destruct (coalesce_blocks_wf s l Hwf) as (h' & Hco & Hwf2 & _).
  rewrite (bind_Ret _ _ _ _ _ Hco). rewrite Elc in *.
  set (s2 := set_hdr h' s) in *.
  destruct (find_best_fit_chain _ _ (wrap64 A) (wf_reg _ _ Hwf2)) as (r & Hf & Hbest).
  rewrite (bind_Ret _ _ _ _ _ Hf). rewrite wrap64_small in Hbest by lia.
  destruct Hbest as [[-> _] | (_ & pre & b & post & E & Hfit & _)].
  2: { exfalso. apply (Hnone (r, b)); [|exact Hfit]. rewrite E.
       apply elem_of_app. right. left. }
  cbn [Z.eqb negb]. unfold last_addr. rewrite last_snoc. cbn [fst].
  destruct Hwf2 as [Hreg Hgeom Hbrk Hmap Hlim Hpage].
  pose proof (lseg_parts _ _ _ _ _ _ Hreg) as (Hl & Hl0 & Hlpre & _ & Hpost & _).
  simpl in Hpost.
  assert (Hlb : 0 < last ∧ 0 < bsize lb).
  { eapply (geom_bound _ _ (last, lb)) in Hgeom; [simpl in Hgeom; lia | lia |].
    apply elem_of_app. right. left. }
  assert (Hsize : bsize lb < A).
  { destruct (Z_lt_le_dec (bsize lb) A) as [H|H]; [exact H|]. exfalso.
    apply (Hnone (last, lb)); [apply elem_of_app; right; left|].
    split; [exact Hfree | exact H]. }
  destruct (last =? 0) eqn:E0; [lia|].
  rewrite bind_assoc.
  rewrite (bind_Ret _ _ _ _ _ (load_some _ _ _ Hl)).
  rewrite (bind_Ret _ _ _ _ _
             (eq_refl : ret (is_free lb) s2 = Ret (is_free lb, s2))).
  assert (Hfb : is_free lb = true) by (apply status_eqb_eq; exact Hfree).
  rewrite Hfb.
  rewrite (bind_Ret _ _ _ _ _ (load_some _ _ _ Hl)).
  change (ALIGN (sizeof_block_meta + ALIGN 1)) with 32.
  rewrite !wrap64_small by lia.
  eapply ok_bind; [apply Hreq; lia|].
  cbv beta. rewrite (HTf s s2 eq_refl).
  intros block s3 (Hg3 & Hbm3 & Hps3 & st & Hh3 & Hcase).
  unfold s2 in Hg3, Hbm3, Hps3, Hh3, Hcase, Hgeom, Hbrk, Hmap, Hlim, Hpage, Hl, Hreg.
  cbn [hdr global_base brk brk_max map_next page_size set_hdr] in *.
  assert (Hblock : 0 < block ∧ brk s ≤ block) by (destruct Hcase; lia).
  assert (Hnin : block ∉ (lc' ++ [(last, lb)]).*1).
  { eapply geom_above_not_in; [exact Hgeom | lia | lia]. }
  rewrite fmap_app in Hnin. apply not_elem_of_app in Hnin as [Hnpre Hnlast].
  simpl in Hnlast. apply not_elem_of_cons in Hnlast as [Hne' _].
  destruct (block =? 0) eqn:Eb; [lia|].
  assert (Hl3 : hdr s3 !! last = Some lb).
  { rewrite Hh3, lookup_insert_ne by congruence. exact Hl. }
  assert (Hb3 : hdr s3 !! block = Some (mk_block_meta (A - bsize lb) st 0)).
  { rewrite Hh3. apply lookup_insert_eq. }
  rewrite (bind_Ret _ _ _ _ _ (load_some _ _ _ Hl3)).
  rewrite (bind_Ret _ _ _ _ _ (load_some _ _ _ Hb3)).
  cbn [bsize]. replace (bsize lb + (A - bsize lb)) with A by lia.
  rewrite wrap64_small by lia.
  rewrite (bind_Ret _ _ _ _ _ (set_size_eq _ _ A _ Hl3)).
  set (s4 := set_hdr (<[last := with_size A lb]> (hdr s3)) s3).
  assert (Hl4 : hdr s4 !! last = Some (with_size A lb)).
  { unfold s4. cbn [hdr set_hdr]. apply lookup_insert_eq. }
  rewrite (bind_Ret _ _ _ _ _ (load_some _ _ _ Hl4)).
  cbn [bsize with_size].
  destruct (A + 32 <=? A) eqn:Esplit; [lia|].
  rewrite (bind_Ret _ _ _ _ _ (eq_refl : ret tt s4 = Ret (tt, s4))).
  rewrite (bind_Ret _ _ _ _ _ (set_status_eq _ _ STATUS_ALLOC _ Hl4)).
  unfold s4. cbn [hdr set_hdr]. rewrite set_hdr_set_hdr, insert_insert_eq.
  unfold with_status, with_size. cbn [bsize bnext]. rewrite Hpost.
  set (rb := mk_block_meta A STATUS_ALLOC 0).
  match goal with |- ok_or_abort (_ ?s5) _ =>
    destruct (finish_exact last s5) as (s' & Hfin & Hh & (Hk1 & Hk2 & Hk3 & Hk4) & Hg' & _)
  end.
  rewrite Hfin. cbn [hdr global_base brk brk_max map_next page_size set_hdr] in *.
  apply ok_ret. split; [reflexivity|]. split; [exact Hsize|].
  assert (Hreg' : registry_is s' (lc' ++ [(last, rb)])).
  { unfold registry_is, chain. rewrite Hh, Hg', Hg3, Hh3.
    eapply lseg_middle; [exact Hreg | |].
    + intros x Hx. rewrite !lookup_insert_ne; [reflexivity | |]; ne_by Hx.
    + simpl. split; [reflexivity|]. split; [exact Hl0|].
      split; [apply lookup_insert_eq | reflexivity]. }
  split; [exact Hreg'|].
  destruct Hcase as [(Hd & _ & Hblk & Hbrk3 & Hle3 & Hmn3) | (Hd & Hst & Hblk & Hbrk3 & Hmn3)].
  - left. split; [exact Hd|]. split; [congruence|]. split; [congruence|].
    constructor; rewrite ?Hk1, ?Hk2, ?Hk3, ?Hk4, ?Hbm3, ?Hps3, ?Hmn3;
      try assumption; try lia.
    apply geom_app in Hgeom as [Hg1 Hg2]. apply geom_app.
    split; [exact Hg1|]. destruct Hg2 as (G1 & G2 & G3 & _).
    cbn [fst snd next_addr] in G1, G2, G3.
    change (0 < last ∧ 0 < bsize rb ∧ last + bsize rb ≤ brk s3 ∧ True).
    unfold rb. cbn [bsize]. repeat (split; [lia|]). exact I.
  - right. split; [exact Hd|]. split; [congruence|].
    rewrite Hh, Hh3, <- Hblk, lookup_insert_ne by congruence.
    rewrite lookup_insert_eq. subst st. reflexivity.
Qed.

Lemma alloc_body_append (s : state) (l : list (Z * block_meta)) (A : Z) :
  wf s l → (global_base s =? 0) && (A <? Tf s) = false →
  (∀ x, x ∈ coalesce_list l → ¬ fits A x.2) → ¬ tail_free (coalesce_list l) →
  0 < A < 2 ^ 31 →
  ok_or_abort (alloc_body threshold request_space zero A s)
    (λ p s',
       (A < Tf s ∧ p = brk s + ALIGN sizeof_block_meta ∧
        brk s' = brk s + A ∧ map_next s' = map_next s ∧
        ∃ lc' last lb,
          coalesce_list l = lc' ++ [(last, lb)] ∧
          wf s' (lc' ++ [(last, with_next (brk s) lb);
                         (brk s, mk_block_meta A STATUS_ALLOC 0)])) ∨
       (Tf s ≤ A ∧ p = map_next s + ALIGN sizeof_block_meta ∧
        brk s' = brk s ∧ map_next s ≤ map_next s' ∧
        hdr s' !! map_next s = Some (mk_block_meta A STATUS_MAPPED 0) ∧
        wf s' (coalesce_list l))).
Proof.
  intros Hwf Hpre Hnone Hnt HA. unfold alloc_body.
  rewrite no_prealloc by exact Hpre.
  destruct (coalesce_blocks_wf s l Hwf) as (h' & Hco & Hwf2 & _).
  rewrite (bind_Ret _ _ _ _ _ Hco).
  set (lc := coalesce_list l) in *. set (s2 := set_hdr h' s) in *.
  destruct (find_best_fit_chain _ _ (wrap64 A) (wf_reg _ _ Hwf2)) as (r & Hf & Hbest).
  rewrite (bind_Ret _ _ _ _ _ Hf). rewrite wrap64_small in Hbest by lia.
  destruct Hbest as [[-> _] | (_ & pre & b & post & E & Hfit & _)].
  2: { exfalso. apply (Hnone (r, b)); [|exact Hfit]. rewrite E.
       apply elem_of_app. right. left. }
  cbn [Z.eqb negb].
  assert (Hempty : lc = [] → Tf s ≤ A).
  { intros Hnil. apply coalesce_list_nil in Hnil. subst l.
    rewrite (chain_nil_null (hdr s) _ (wf_reg _ _ Hwf)) in Hpre. simpl in Hpre.
    apply Z.ltb_ge in Hpre. exact Hpre. }
  match goal with |- ok_or_abort (bind ?m ?k s2) _ =>
    assert (Hm : m s2 = Ret (false, s2))
  end.
  { unfold last_addr.
    destruct (list.last lc) as [[la lb]|] eqn:Elast; [|reflexivity].
    cbn [fst]. destruct (last_snoc_inv _ _ Elast) as (lc' & Elc).
    assert (Hin : (la, lb) ∈ lc) by (rewrite Elc; apply elem_of_app; right; left).
    destruct (chain_lookup _ _ _ _ (wf_reg _ _ Hwf2) Hin) as [Hl Hl0].
    cbn [fst snd] in Hl, Hl0. destruct (la =? 0) eqn:E0; [lia|].
    rewrite (bind_Ret _ _ _ _ _ (load_some _ _ _ Hl)).
    destruct (is_free lb) eqn:Efl; [|reflexivity]. exfalso. apply Hnt.
    exists (la, lb). split; [exact Elast | apply status_eqb_eq; exact Efl]. }
  rewrite (bind_Ret _ _ _ _ _ Hm). clear Hm.
  rewrite wrap64_small by lia.
  destruct Hwf2 as [Hreg Hgeom Hbrk Hmap Hlim Hpage].
  eapply ok_bind; [apply Hreq; lia|].
  cbv beta. rewrite (HTf s s2 eq_refl).
  intros block s3 (Hg3 & Hbm3 & Hps3 & st & Hh3 & Hcase).
  unfold s2 in Hg3, Hbm3, Hps3, Hh3, Hcase, Hgeom, Hbrk, Hmap, Hlim, Hpage, Hreg.
  cbn [hdr global_base brk brk_max map_next page_size set_hdr] in *.
  assert (Hblock : 0 < block ∧ brk s ≤ block) by (destruct Hcase; lia).
  assert (Hnin : block ∉ lc.*1).
  { eapply geom_above_not_in; [exact Hgeom | lia | lia]. }
  destruct (block =? 0) eqn:Eb; [lia|].
  assert (Hb3 : hdr s3 !! block = Some (mk_block_meta A st 0)).
  { rewrite Hh3. apply lookup_insert_eq. }
  rewrite (bind_Ret _ _ _ _ _ (load_some _ _ _ Hb3)). cbn [bstatus].
  destruct Hcase as [(HT & -> & Hbrk' & Hrest) | (HT & -> & Hmap' & Hrest)];
    cbn [status_eqb].
  - destruct (list.last lc) as [[la lb]|] eqn:Elast.
    2: { apply last_None in Elast. specialize (Hempty Elast). lia. }
    unfold last_addr. rewrite Elast. cbn [fst].
    destruct (last_snoc_inv _ _ Elast) as (lc' & Elc). rewrite Elc in *.
    pose proof (lseg_parts _ _ _ _ _ _ Hreg) as (Hl & Hl0 & Hlpre & _ & Hpost & _).
    simpl in Hpost.
    rewrite fmap_app in Hnin. apply not_elem_of_app in Hnin as [Hnpre Hnlast].
    simpl in Hnlast. apply not_elem_of_cons in Hnlast as [Hne _].
    assert (Hnf : is_free lb = false).
    { destruct (is_free lb) eqn:E; [|reflexivity]. exfalso. apply Hnt.
      exists (la, lb). split; [apply last_snoc | apply status_eqb_eq; exact E]. }
    assert (Hl3 : hdr s3 !! la = Some lb).
    { rewrite Hh3, lookup_insert_ne by congruence. exact Hl. }
    rewrite bind_assoc.
    rewrite (bind_Ret _ _ _ _ _ (set_next_eq _ _ block _ Hl3)).
    rewrite bind_assoc.
    set (s4 := set_hdr (<[la := with_next block lb]> (hdr s3)) s3).
    assert (Hl4 : hdr s4 !! la = Some (with_next block lb)).
    { unfold s4. cbn [hdr set_hdr]. apply lookup_insert_eq. }
    rewrite (bind_Ret _ _ _ _ _ (load_some _ _ _ Hl4)).
    change (is_free (with_next block lb)) with (is_free lb). rewrite Hnf.
    rewrite (bind_Ret _ _ _ _ _ (eq_refl : ret tt s4 = Ret (tt, s4))).
    destruct (finish_exact block s4)
      as (s' & Hfin & Hh & (Hk1 & Hk2 & Hk3 & Hk4) & Hg' & _).
    rewrite Hfin. unfold s4 in Hh, Hk1, Hk2, Hk3, Hk4, Hg'.
    cbn [hdr global_base brk brk_max map_next page_size set_hdr] in *.
    destruct Hrest as (Hbrk3 & Hle3 & Hmn3).
    apply ok_ret. left. split; [exact HT|]. split; [congruence|].
    split; [congruence|]. split; [congruence|].
    exists lc', la, lb. split; [reflexivity|]. rewrite <- Hbrk'.
    set (nb := mk_block_meta A STATUS_ALLOC 0).
    constructor; rewrite ?Hk1, ?Hk2, ?Hk3, ?Hk4, ?Hbm3, ?Hps3, ?Hmn3;
      try assumption; try lia.
    + unfold registry_is, chain. rewrite Hh, Hg', Hg3, Hh3.
      eapply lseg_middle; [exact Hreg | |].
      * intros x Hx. rewrite !lookup_insert_ne; [reflexivity | |]; ne_by Hx.
      * simpl. split; [reflexivity|]. split; [exact Hl0|].
        split; [apply lookup_insert_eq|]. split; [reflexivity|].
        split; [lia|]. rewrite lookup_insert_ne by congruence.
        split; [apply lookup_insert_eq | reflexivity].
    + apply geom_app in Hgeom as [Hg1 Hg2]. apply geom_app.
      split; [exact Hg1|]. destruct Hg2 as (G1 & G2 & G3 & _).
      cbn [fst snd next_addr] in G1, G2, G3.
      change (0 < la ∧ 0 < bsize lb ∧ la + bsize lb ≤ block ∧
              0 < block ∧ 0 < bsize nb ∧ block + bsize nb ≤ brk s3 ∧ True).
      unfold nb. cbn [bsize]. repeat (split; [lia|]). exact I.
  - rewrite (bind_Ret _ _ _ _ _ (eq_refl : ret tt s3 = Ret (tt, s3))).
    destruct (finish_exact block s3)
      as (s' & Hfin & Hh & (Hk1 & Hk2 & Hk3 & Hk4) & Hg' & _).
    rewrite Hfin. destruct Hrest as (Hbrk3 & Hmn3).
    apply ok_ret. right. split; [exact HT|]. split; [congruence|].
    split; [congruence|]. split; [lia|].
    split; [rewrite Hh, <- Hmap'; exact Hb3|].
    constructor; rewrite ?Hk1, ?Hk2, ?Hk3, ?Hk4, ?Hbm3, ?Hps3, ?Hbrk3;
      try assumption; try lia.
    unfold registry_is, chain. rewrite Hh, Hg', Hg3, Hh3.
    apply lseg_insert_notin; [exact Hnin | exact Hreg].
Qed.

Lemma alloc_body_prealloc (s s1 : state) (A : Z) :
  global_base s = 0 → A < Tf s →
  first_time_prealloc s = Ret (tt, s1) →
  global_base s1 ≠ 0 → page_size s1 = page_size s →
  alloc_body threshold request_space zero A s =
  alloc_body threshold request_space zero A s1.
Proof.
  intros Hg HA Hpre Hg1 Hps. unfold alloc_body.
  rewrite (no_prealloc s1).
  2: { destruct (global_base s1 =? 0) eqn:E; [lia | reflexivity]. }
  rewrite (bind_Ret _ _ _ _ _ (eq_refl : get global_base s = Ret (global_base s, s))).
  rewrite (bind_Ret _ _ _ _ _ (Hthr s)). rewrite Hg.
  destruct (A <? Tf s) eqn:E; [|lia]. cbn [Z.eqb andb].
  rewrite (bind_Ret _ _ _ _ _ Hpre). reflexivity.
Qed.
End alloc_exact.

Lemma first_time_prealloc_exact (s : state) :
  0 < brk s ≤ brk_max s →
  first_time_prealloc s =
  if brk s + MMAP_THRESHOLD <=? brk_max s
  then Ret (tt, mk_state
                  (<[brk s := mk_block_meta MMAP_THRESHOLD STATUS_FREE 0]> (hdr s))
                  (mem s) (brk s) (brk s + MMAP_THRESHOLD) (brk_max s)
                  (map_next s) (map_max s) (page_size s)
                  (EvSbrk MMAP_THRESHOLD :: EvSbrk 0 :: trace s))
  else Abort "sbrk".
Proof.
  intros Hb. unfold first_time_prealloc, bind, sbrk, modify, DIE, store.
  change (to_intptr MMAP_THRESHOLD) with 131072. unfold MMAP_THRESHOLD.
  rewrite !Z.add_0_r.
  destruct ((0 <=? brk s) && (brk s <=? brk_max s)) eqn:E1.
  2: { apply andb_false_iff in E1 as [E1|E1]; [apply Z.leb_gt in E1
                                              | apply Z.leb_gt in E1]; lia. }
  cbn [brk brk_max log set_brk set_global_base].
  destruct (0 <=? brk s + 131072) eqn:E2; [|apply Z.leb_gt in E2; lia].
  cbn [andb]. destruct (brk s + 131072 <=? brk_max s) eqn:E3; cbn [Z.eqb].
  - destruct (brk s =? -1) eqn:E4; [lia|]. reflexivity.
  - reflexivity.
Qed.

Lemma wf_after_prealloc (s : state) :
  wf s [] → brk s + MMAP_THRESHOLD ≤ brk_max s →
  wf (mk_state
        (<[brk s := mk_block_meta MMAP_THRESHOLD STATUS_FREE 0]> (hdr s))
        (mem s) (brk s) (brk s + MMAP_THRESHOLD) (brk_max s)
        (map_next s) (map_max s) (page_size s)
        (EvSbrk MMAP_THRESHOLD :: EvSbrk 0 :: trace s))
     [(brk s, mk_block_meta MMAP_THRESHOLD STATUS_FREE 0)].
Proof.
  intros [Hreg Hgeom Hbrk Hmap Hlim Hpage] Hroom. unfold MMAP_THRESHOLD in *.
  constructor; cbn [brk brk_max map_next page_size]; try assumption; try lia.
  - unfold registry_is, chain. cbn [hdr global_base]. simpl.
    split; [reflexivity|]. split; [lia|].
    split; [apply lookup_insert_eq | reflexivity].
  - simpl. lia.
Qed.

(** ** [os_malloc], path by path *)

(** X4: when, after coalescing, some FREE block of a well-formed registry
    can hold the aligned total size, [os_malloc] returns (it cannot abort)
    the payload of the best fit, makes no system call, and leaves the
    registry with that block set to ALLOC, split in two when the rest is at
    least the size of a minimal block. *)
Theorem os_malloc_reuses_best_fit (s : state) (l : list (Z * block_meta))
    (size : Z) :
  wf s l → 0 < size ≤ 2 ^ 31 - 32 →
  (∃ x, x ∈ coalesce_list l ∧ fits (HDR + ALIGN size) x.2) →
  ∃ r s' pre b post,
    os_malloc size s = Ret (r + HDR, s') ∧
    coalesce_list l = pre ++ (r, b) :: post ∧ fits (HDR + ALIGN size) b ∧
    (∀ x, x ∈ pre → fits (HDR + ALIGN size) x.2 → bsize b < bsize x.2) ∧
    (∀ x, x ∈ post → fits (HDR + ALIGN size) x.2 → bsize b ≤ bsize x.2) ∧
    wf s' (pre ++ carve (HDR + ALIGN size) (r, b) ++ post) ∧
    brk s' = brk s ∧ map_next s' = map_next s ∧
    syscalls (trace s') = syscalls (trace s).
Proof.
  intros Hwf Hs Hfit. rewrite os_malloc_body by lia.
  destruct (aligned_size_of_small size ltac:(lia)) as [E HA]. rewrite <- E in *.
  destruct (alloc_body_reuse (ret MMAP_THRESHOLD) request_space_malloc
              (λ _, ret tt) (λ _, MMAP_THRESHOLD) (λ s, eq_refl)
              zero_quiet_malloc s l _ Hwf Hfit HA)
    as (r & s' & pre & b & post & Hr & Hl & Hf & Hpre & Hpost & Hwf' & Hq).
  exists r, s', pre, b, post.
  destruct Hq as ((Hk1 & Hk2 & Hk3 & Hk4) & Hg & Htr). auto 10.
Qed.

Lemma os_malloc_reuses_best_fit_witness :
  ∃ r s' pre b post,
    os_malloc 100 s_freed = Ret (r + HDR, s') ∧
    coalesce_list registry_freed = pre ++ (r, b) :: post ∧
    fits (HDR + ALIGN 100) b ∧
    (∀ x, x ∈ pre → fits (HDR + ALIGN 100) x.2 → bsize b < bsize x.2) ∧
    (∀ x, x ∈ post → fits (HDR + ALIGN 100) x.2 → bsize b ≤ bsize x.2) ∧
    wf s' (pre ++ carve (HDR + ALIGN 100) (r, b) ++ post) ∧
    brk s' = brk s_freed ∧ map_next s' = map_next s_freed ∧
    syscalls (trace s') = syscalls (trace s_freed).
Proof.
  apply (os_malloc_reuses_best_fit s_freed registry_freed 100).
  - exact wf_s_freed.
  - lia.
  - exists (65536, mk_block_meta 131072 STATUS_FREE 0).
    split; [left | split; [reflexivity | vm_compute; discriminate]].
Defined.

(** X5: the first [os_malloc] of a process, for an aligned total size below
    128 KiB, calls [sbrk(0)] and [sbrk(131072)], makes the old break the
    heap base, and returns the payload at its start; the registry is the
    preallocated block carved for the request.  When the break cannot move
    by 128 KiB the process is terminated with the [sbrk] diagnostic. *)
Theorem first_os_malloc_preallocates_heap (s : state) (size : Z) :
  wf s [] → 0 < size ≤ 2 ^ 31 - 32 → HDR + ALIGN size < MMAP_THRESHOLD →
  (brk s + MMAP_THRESHOLD ≤ brk_max s →
   ∃ s', os_malloc size s = Ret (brk s + HDR, s') ∧
         wf s' (carve (HDR + ALIGN size)
                  (brk s, mk_block_meta MMAP_THRESHOLD STATUS_FREE 0)) ∧
         global_base s' = brk s ∧ brk s' = brk s + MMAP_THRESHOLD ∧
         map_next s' = map_next s ∧
         syscalls (trace s') =
           EvSbrk MMAP_THRESHOLD :: EvSbrk 0 :: syscalls (trace s)) ∧
  (brk_max s < brk s + MMAP_THRESHOLD → os_malloc size s = Abort "sbrk").
Proof.
  intros Hwf Hs HT.
  destruct (aligned_size_of_small size ltac:(lia)) as [E HA].
  pose proof (chain_nil_null (hdr s) _ (wf_reg _ _ Hwf)) as Hg.
  pose proof (first_time_prealloc_exact s (wf_brk _ _ Hwf)) as Hpre.
  split.
  - intros Hroom. destruct (brk s + MMAP_THRESHOLD <=? brk_max s) eqn:Er;
      [|apply Z.leb_gt in Er; lia].
    pose proof (wf_after_prealloc s Hwf Hroom) as Hwf1.
    set (s1 := mk_state _ _ _ _ _ _ _ _ _) in *.
    rewrite os_malloc_body by lia.
    rewrite (alloc_body_prealloc (ret MMAP_THRESHOLD) request_space_malloc
               (λ _, ret tt) (λ _, MMAP_THRESHOLD) (λ s, eq_refl) s s1);
      [|exact Hg | lia | exact Hpre | pose proof (wf_brk _ _ Hwf); simpl; lia
       | reflexivity].
    destruct (alloc_body_reuse (ret MMAP_THRESHOLD) request_space_malloc
                (λ _, ret tt) (λ _, MMAP_THRESHOLD) (λ s, eq_refl)
                zero_quiet_malloc s1 _ (aligned_size_of size) Hwf1)
      as (r & s' & pre & b & post & Hr & Hl & Hf & _ & _ & Hwf' & Hq);
      [|exact HA|].
    { exists (brk s, mk_block_meta MMAP_THRESHOLD STATUS_FREE 0).
      split; [left|]. split; [reflexivity|]. simpl. lia. }
    simpl in Hl. destruct pre as [|y pre]; simpl in Hl.
    2: { destruct pre; discriminate. }
    inversion Hl; subst r b post. rewrite app_nil_r in Hwf'. simpl in Hwf'.
    exists s'. rewrite <- E. split; [exact Hr|]. split; [exact Hwf'|].
    destruct Hq as ((Hk1 & Hk2 & Hk3 & Hk4) & Hg' & Htr).
    rewrite Hg', Hk1, Hk3, Htr. auto.
  - intros Hfull. destruct (brk s + MMAP_THRESHOLD <=? brk_max s) eqn:Er;
      [apply Z.leb_le in Er; lia|].
    rewrite os_malloc_body by lia. unfold alloc_body.
    rewrite (bind_Ret _ _ _ _ _ (eq_refl : get global_base s = Ret (global_base s, s))).
    rewrite (bind_Ret _ _ _ _ _
               (eq_refl : ret MMAP_THRESHOLD s = Ret (MMAP_THRESHOLD, s))).
    rewrite Hg. destruct (aligned_size_of size <? MMAP_THRESHOLD) eqn:E1;
      [|apply Z.ltb_ge in E1; lia].
    cbn [Z.eqb andb]. unfold bind at 1. rewrite Hpre. reflexivity.
Qed.

Lemma wf_s0 : wf s0 [].
Proof. concrete_wf. Qed.

Lemma wf_s_small : wf s_small [].
Proof. concrete_wf. Qed.

Lemma wf_s_full : wf s_full registry_full.
Proof. concrete_wf. Qed.

Lemma first_os_malloc_preallocates_heap_witness :
  (∃ s', os_malloc 100 s0 = Ret (brk s0 + HDR, s') ∧
         wf s' (carve (HDR + ALIGN 100)
                  (brk s0, mk_block_meta MMAP_THRESHOLD STATUS_FREE 0)) ∧
         global_base s' = brk s0 ∧ brk s' = brk s0 + MMAP_THRESHOLD ∧
         map_next s' = map_next s0 ∧
         syscalls (trace s') =
           EvSbrk MMAP_THRESHOLD :: EvSbrk 0 :: syscalls (trace s0)) ∧
  os_malloc 100 s_small = Abort "sbrk".
Proof.
  split.
  - apply (first_os_malloc_preallocates_heap s0 100 wf_s0);
      [lia | vm_compute; reflexivity | vm_compute; discriminate].
  - apply (first_os_malloc_preallocates_heap s_small 100 wf_s_small);
      [lia | vm_compute; reflexivity | vm_compute; reflexivity].
Defined.



(** X7: in the same situation with a deficit of 128 KiB or more, the
    deficit is requested with [mmap] and lands in a mapping of its own, the
    break does not move, and yet the last block is given the size [S]: when
    it ended at the break, the block whose payload is returned reaches past
    the break by the whole deficit. *)
Theorem os_malloc_large_extension_overruns_break (s : state)
    (l lc' : list (Z * block_meta)) (size last : Z) (lb : block_meta) :
  wf s l → 0 < size ≤ 2 ^ 31 - 32 →
  coalesce_list l = lc' ++ [(last, lb)] → bstatus lb = STATUS_FREE →
  (∀ x, x ∈ coalesce_list l → ¬ fits (HDR + ALIGN size) x.2) →
  last + bsize lb = brk s →
  MMAP_THRESHOLD ≤ HDR + ALIGN size - bsize lb →
  ok_or_abort (os_malloc size s)
    (λ p s',
       p = last + HDR ∧
       registry_is s'
         (lc' ++ [(last, mk_block_meta (HDR + ALIGN size) STATUS_ALLOC 0)]) ∧
       brk s' = brk s ∧
       last + (HDR + ALIGN size) = brk s' + (HDR + ALIGN size - bsize lb) ∧
       hdr s' !! map_next s =
         Some (mk_block_meta (HDR + ALIGN size - bsize lb) STATUS_MAPPED 0) ∧
       ∀ l', ¬ wf s' l').
Proof.
  intros Hwf Hs Elc Hfree Hnone Hend Hd. rewrite os_malloc_body by lia.
  destruct (aligned_size_of_small size ltac:(lia)) as [E HA]. rewrite <- E in *.
  eapply ok_weaken.
  - apply (alloc_body_extend (ret MMAP_THRESHOLD) request_space_malloc
             (λ _, ret tt) (λ _, MMAP_THRESHOLD) (λ s, eq_refl)
             zero_quiet_malloc (λ _ _ _, eq_refl) req_spec_malloc
             s l lc' _ last lb Hwf Elc Hfree Hnone HA).
  - cbv beta. intros p s' (Hp & Hlt & Hreg & [(HT & _) | (_ & Hb & Hm)]); [lia|].
    split; [exact Hp|]. split; [exact Hreg|]. split; [exact Hb|].
    split; [lia|]. split; [exact Hm|].
    intros l' [Hreg' Hgeom' Hbrk' _ _ _].
    pose proof (chain_functional _ _ _ _ Hreg Hreg') as <-.
    apply geom_app in Hgeom' as [_ (_ & _ & G & _)]. simpl in G. lia.
Qed.

Lemma os_malloc_large_extension_overruns_break_witness :
  ok_or_abort (os_malloc 300000 s_one)
    (λ p s',
       p = 65664 + HDR ∧
       registry_is s'
         ([(65536, mk_block_meta 128 STATUS_ALLOC 65664)] ++
          [(65664, mk_block_meta (HDR + ALIGN 300000) STATUS_ALLOC 0)]) ∧
       brk s' = brk s_one ∧
       65664 + (HDR + ALIGN 300000) =
         brk s' + (HDR + ALIGN 300000 -
                   bsize (mk_block_meta 130944 STATUS_FREE 0)) ∧
       hdr s' !! map_next s_one =
         Some (mk_block_meta
                 (HDR + ALIGN 300000 - bsize (mk_block_meta 130944 STATUS_FREE 0))
                 STATUS_MAPPED 0) ∧
       ∀ l', ¬ wf s' l').
Proof.
  apply (os_malloc_large_extension_overruns_break s_one registry_one
           [(65536, mk_block_meta 128 STATUS_ALLOC 65664)] 300000 65664
           (mk_block_meta 130944 STATUS_FREE 0) wf_s_one).
  - lia.
  - reflexivity.
  - reflexivity.
  - intros x Hx [Hf Hsz]. vm_compute in Hx.
    apply elem_of_cons in Hx as [-> | Hx]; [discriminate|].
    apply elem_of_cons in Hx as [-> | Hx]; [|inversion Hx].
    vm_compute in Hsz. apply Hsz. reflexivity.
  - reflexivity.
  - vm_compute. discriminate.
Defined.

(** X8: when no FREE block can hold the aligned total size [S] and the last
    block of the coalesced registry is not FREE, [os_malloc] requests a new
    block (or the process is terminated): for [S] below 128 KiB the block
    is carved at the former break, which moves by exactly [S], and is linked
    after the last block; otherwise it is a mapping at the mapping cursor,
    the break does not move and the registry keeps its blocks. *)
Theorem os_malloc_requests_new_block (s : state) (l : list (Z * block_meta))
    (size : Z) :
  wf s l → l ≠ [] → 0 < size ≤ 2 ^ 31 - 32 →
  (∀ x, x ∈ coalesce_list l → ¬ fits (HDR + ALIGN size) x.2) →
  ¬ tail_free (coalesce_list l) →
  ok_or_abort (os_malloc size s)
    (λ p s',
       (HDR + ALIGN size < MMAP_THRESHOLD ∧ p = brk s + HDR ∧
        brk s' = brk s + (HDR + ALIGN size) ∧ map_next s' = map_next s ∧
        ∃ lc' last lb,
          coalesce_list l = lc' ++ [(last, lb)] ∧
          wf s' (lc' ++ [(last, with_next (brk s) lb);
                         (brk s, mk_block_meta (HDR + ALIGN size) STATUS_ALLOC 0)])) ∨
       (MMAP_THRESHOLD ≤ HDR + ALIGN size ∧ p = map_next s + HDR ∧
        brk s' = brk s ∧ map_next s ≤ map_next s' ∧
        hdr s' !! map_next s =
          Some (mk_block_meta (HDR + ALIGN size) STATUS_MAPPED 0) ∧
        wf s' (coalesce_list l))).
Proof.
  intros Hwf Hne Hs Hnone Hnt. rewrite os_malloc_body by lia.
  destruct (aligned_size_of_small size ltac:(lia)) as [E HA]. rewrite <- E in *.
  pose proof (wf_nonempty_base _ _ Hwf Hne) as Hg.
  apply (alloc_body_append (ret MMAP_THRESHOLD) request_space_malloc
           (λ _, ret tt) (λ _, MMAP_THRESHOLD) (λ s, eq_refl)
           zero_quiet_malloc (λ _ _ _, eq_refl) req_spec_malloc
           s l _ Hwf); try assumption.
  destruct (global_base s =? 0) eqn:E0; [lia | reflexivity].
Qed.

Lemma os_malloc_requests_new_block_witness :
  ok_or_abort (os_malloc 100 s_full)
    (λ p s',
       (HDR + ALIGN 100 < MMAP_THRESHOLD ∧ p = brk s_full + HDR ∧
        brk s' = brk s_full + (HDR + ALIGN 100) ∧
        map_next s' = map_next s_full ∧
        ∃ lc' last lb,
          coalesce_list registry_full = lc' ++ [(last, lb)] ∧
          wf s' (lc' ++ [(last, with_next (brk s_full) lb);
                         (brk s_full,
                          mk_block_meta (HDR + ALIGN 100) STATUS_ALLOC 0)])) ∨
       (MMAP_THRESHOLD ≤ HDR + ALIGN 100 ∧ p = map_next s_full + HDR ∧
        brk s' = brk s_full ∧ map_next s_full ≤ map_next s' ∧
        hdr s' !! map_next s_full =
          Some (mk_block_meta (HDR + ALIGN 100) STATUS_MAPPED 0) ∧
        wf s' (coalesce_list registry_full))).
Proof.
  apply (os_malloc_requests_new_block s_full registry_full 100 wf_s_full).
  - discriminate.
  - lia.
  - intros x Hx [Hf Hsz]. vm_compute in Hx.
    apply elem_of_cons in Hx as [-> | Hx]; [discriminate | inversion Hx].
  - intros (x & Hx & Hf). vm_compute in Hx. inversion Hx; subst. discriminate.
Defined.

(** ** The block behind a returned pointer *)

Lemma fit_decide (A : Z) (lc : list (Z * block_meta)) :
  (∃ x, x ∈ lc ∧ fits A x.2) ∨ (∀ x, x ∈ lc → ¬ fits A x.2).
Proof.
  induction lc as [|y lc IH].
  - right. intros x Hx. inversion Hx.
  - destruct (is_free y.2 && (A <=? bsize y.2)) eqn:E.
    + left. exists y. split; [left | apply fits_test; exact E].
    + destruct IH as [(x & Hx & Hf) | IH].
      * left. exists x. split; [right; exact Hx | exact Hf].
      * right. intros x Hx. apply elem_of_cons in Hx as [-> | Hx]; [|auto].
        rewrite <- fits_test, E. discriminate.
Qed.

Lemma carve_head (A : Z) (x : Z * block_meta) :
  A ≤ bsize x.2 →
  ∃ b t, carve A x = (x.1, b) :: t ∧ bstatus b = STATUS_ALLOC ∧
         A ≤ bsize b ≤ bsize x.2.
Proof.
  intros H. unfold carve. destruct (A + MIN_BLOCK <=? bsize x.2).
  - eexists _, _. split; [reflexivity|]. simpl. split; [reflexivity | lia].
  - eexists _, _. split; [reflexivity|]. simpl. split; [reflexivity | lia].
Qed.

Lemma holds_intro (A block : Z) (b : block_meta) (s' : state) :
  0 < block → hdr s' !! block = Some b → bstatus b ≠ STATUS_FREE →
  A ≤ bsize b < 2 ^ 63 → holds A (block + ALIGN sizeof_block_meta) s'.
Proof.
  intros H0 Hlk Hst Hsz. exists b. rewrite get_block_ptr_payload.
  change (ALIGN sizeof_block_meta) with 24. split; [lia | auto].
Qed.

Section alloc_capacity.
Variables (threshold : M Z) (request_space : Z → M Z) (zero : Z → M unit).
Variable Tf : state → Z.
Hypothesis Hthr : ∀ s, threshold s = Ret (Tf s, s).
Hypothesis Hzero : zero_quiet zero.
Hypothesis HTf : ∀ s s', page_size s' = page_size s → Tf s' = Tf s.
Hypothesis Hreq : req_spec Tf request_space.

Lemma alloc_body_holds_registry (s : state) (l : list (Z * block_meta)) (A : Z) :
  wf s l → (global_base s =? 0) && (A <? Tf s) = false → 0 < A < 2 ^ 31 →
  ok_or_abort (alloc_body threshold request_space zero A s) (holds A).
Proof.
  intros Hwf Hpre HA.
  assert (Hwfc : geom (brk s) (coalesce_list l) ∧ 0 < brk s).
  { destruct Hwf as [_ Hgeom Hbrk _ Hlim _].
    split; [apply geom_coalesce_list; [lia | exact Hgeom] | lia]. }
  destruct Hwfc as [Hgc Hb0].
  destruct (fit_decide A (coalesce_list l)) as [Hfit | Hnone].
  - destruct (alloc_body_reuse threshold request_space zero Tf Hthr Hzero
                s l A Hwf Hfit HA)
      as (r & s' & pre & b & post & Hr & Hl & Hf & _ & _ & Hwf' & _).
    right. eexists _, s'. split; [exact Hr|].
    destruct (carve_head A (r, b) (proj2 Hf)) as (b' & t & Ec & Hst & Hsz).
    rewrite Ec in Hwf'. cbn [fst] in Hwf'.
    assert (Hin : (r, b') ∈ pre ++ ((r, b') :: t) ++ post).
    { apply elem_of_app. right. left. }
    destruct (chain_lookup _ _ _ _ (wf_reg _ _ Hwf') Hin) as [Hlk _].
    assert (Hr0 : 0 < r ∧ bsize b < 2 ^ 63).
    { pose proof (wf_brk _ _ Hwf). pose proof (wf_lim _ _ Hwf).
      eapply (geom_bound _ _ (r, b)) in Hgc; [simpl in Hgc; lia | lia |].
      rewrite Hl. apply elem_of_app. right. left. }
    cbn [snd] in Hsz.
    apply (holds_intro A r b'); [lia | exact Hlk | congruence | lia].
  - destruct (list.last (coalesce_list l)) as [[la lb]|] eqn:Elast.
    + destruct (last_snoc_inv _ _ Elast) as (lc' & Elc).
      assert (Hla : 0 < la).
      { eapply (geom_bound _ _ (la, lb)) in Hgc; [simpl in Hgc; lia | lia |].
        rewrite Elc. apply elem_of_app. right. left. }
      destruct (is_free lb) eqn:Efl.
      * eapply ok_weaken.
        { apply (alloc_body_extend threshold request_space zero Tf Hthr Hzero
                   HTf Hreq s l lc' A la lb Hwf Elc); auto.
          apply status_eqb_eq. exact Efl. }
        cbv beta. intros p s' (-> & _ & Hreg & _).
        assert (Hin : (la, mk_block_meta A STATUS_ALLOC 0) ∈
                      lc' ++ [(la, mk_block_meta A STATUS_ALLOC 0)]).
        { apply elem_of_app. right. left. }
        destruct (chain_lookup _ _ _ _ Hreg Hin) as [Hlk _].
        eapply holds_intro; [exact Hla | exact Hlk | discriminate | simpl; lia].
      * eapply ok_weaken.
        { apply (alloc_body_append threshold request_space zero Tf Hthr Hzero
                   HTf Hreq s l A Hwf Hpre Hnone); [|exact HA].
          intros (x & Hx & Hfx). rewrite Elast in Hx. inversion Hx; subst.
          apply status_eqb_eq in Hfx. unfold is_free in Efl. simpl in Hfx.
          congruence. }
        cbv beta.
        intros p s' [(_ & -> & _ & _ & lc2 & la2 & lb2 & _ & Hwf')
                    | (_ & -> & _ & _ & Hlk & Hwf')].
        -- assert (Hin : (brk s, mk_block_meta A STATUS_ALLOC 0) ∈
                         lc2 ++ [(la2, with_next (brk s) lb2);
                                 (brk s, mk_block_meta A STATUS_ALLOC 0)]).
           { apply elem_of_app. right. right. left. }
           destruct (chain_lookup _ _ _ _ (wf_reg _ _ Hwf') Hin) as [Hlk _].
           eapply holds_intro; [exact Hb0 | exact Hlk | discriminate | simpl; lia].
        -- pose proof (wf_brk _ _ Hwf). pose proof (wf_map _ _ Hwf).
           eapply holds_intro; [lia | exact Hlk | discriminate | simpl; lia].
    + eapply ok_weaken.
      { apply (alloc_body_append threshold request_space zero Tf Hthr Hzero
                 HTf Hreq s l A Hwf Hpre Hnone); [|exact HA].
        intros (x & Hx & _). rewrite Elast in Hx. discriminate. }
      cbv beta.
      intros p s' [(_ & -> & _ & _ & lc2 & la2 & lb2 & Elc & _)
                  | (_ & -> & _ & _ & Hlk & Hwf')].
      * apply last_None in Elast. rewrite Elast in Elc. destruct lc2; discriminate.
      * pose proof (wf_brk _ _ Hwf). pose proof (wf_map _ _ Hwf).
        eapply holds_intro; [lia | exact Hlk | discriminate | simpl; lia].
Qed.

Lemma alloc_body_holds (s : state) (l : list (Z * block_meta)) (A : Z) :
  wf s l → 0 < A < 2 ^ 31 →
  ok_or_abort (alloc_body threshold request_space zero A s) (holds A).
Proof.
  intros Hwf HA.
  destruct ((global_base s =? 0) && (A <? Tf s)) eqn:Hpre.
  2: { eapply alloc_body_holds_registry; eauto. }
  apply andb_true_iff in Hpre as [Hg HT].
  apply Z.eqb_eq in Hg. apply Z.ltb_lt in HT.
  assert (Hl : l = []).
  { destruct l as [|x l]; [reflexivity|].
    destruct (wf_reg _ _ Hwf) as (E & H0 & _). congruence. }
  subst l. pose proof (first_time_prealloc_exact s (wf_brk _ _ Hwf)) as Hp.
  destruct (brk s + MMAP_THRESHOLD <=? brk_max s) eqn:Er.
  - apply Z.leb_le in Er. pose proof (wf_after_prealloc s Hwf Er) as Hwf1.
    set (s1 := mk_state _ _ _ _ _ _ _ _ _) in *.
    rewrite (alloc_body_prealloc threshold request_space zero Tf Hthr s s1);
      [|exact Hg | exact HT | exact Hp
       | pose proof (wf_brk _ _ Hwf); simpl; lia | reflexivity].
    eapply alloc_body_holds_registry; [exact Hwf1 | | exact HA].
    pose proof (wf_brk _ _ Hwf). simpl.
    destruct (brk s =? 0) eqn:E0; [lia | reflexivity].
  - left. exists "sbrk"%string. unfold alloc_body.
    rewrite (bind_Ret _ _ _ _ _ (eq_refl : get global_base s = Ret (global_base s, s))).
    rewrite (bind_Ret _ _ _ _ _ (Hthr s)). rewrite Hg.
    destruct (A <? Tf s) eqn:E1; [|apply Z.ltb_ge in E1; lia].
    cbn [Z.eqb andb]. unfold bind at 1. rewrite Hp. reflexivity.
Qed.
End alloc_capacity.

(** X9: on a well-formed registry, every pointer that [os_malloc] of a
    non-zero size, or [os_calloc] of a non-zero count and element size,
    returns (with an aligned total size below [2^31]) is not null and is
    the payload of a block in use whose size field covers the header and
    the requested bytes. *)
Theorem allocated_block_holds_request (s : state) (l : list (Z * block_meta)) :
  wf s l →
  (∀ size p s', 0 < size ≤ 2 ^ 31 - 32 →
     os_malloc size s = Ret (p, s') →
     ∃ b, p ≠ 0 ∧ hdr s' !! get_block_ptr p = Some b ∧
          bstatus b ≠ STATUS_FREE ∧ size ≤ bsize b - HDR) ∧
  (∀ nmemb size p s', 0 < nmemb → 0 < size → size * nmemb ≤ 2 ^ 31 - 32 →
     os_calloc nmemb size s = Ret (p, s') →
     ∃ b, p ≠ 0 ∧ hdr s' !! get_block_ptr p = Some b ∧
          bstatus b ≠ STATUS_FREE ∧ size * nmemb ≤ bsize b - HDR).
Proof.
  intros Hwf. split.
  - intros size p s' Hs Hr. rewrite os_malloc_body in Hr by lia.
    destruct (aligned_size_of_small size ltac:(lia)) as [E HA].
    pose proof (ALIGN_small size ltac:(lia)) as Ha.
    destruct (alloc_body_holds (ret MMAP_THRESHOLD) request_space_malloc
               (λ _, ret tt) (λ _, MMAP_THRESHOLD) (λ s, eq_refl)
               zero_quiet_malloc (λ _ _ _, eq_refl) req_spec_malloc
               s l _ Hwf HA)
      as [[msg Hab] | (p' & s1 & Hr' & b & H1 & H2 & H3 & H4 & _)];
      [congruence|].
    rewrite Hr in Hr'. inversion Hr'; subst p' s1. exists b.
    split; [exact H1|]. split; [exact H2|]. split; [exact H3 | lia].
  - intros nmemb size p s' Hk Hn Hs Hr. rewrite os_calloc_body in Hr by lia.
    assert (Hp : 0 < size * nmemb) by nia.
    rewrite (wrap64_small (size * nmemb)) in Hr by lia.
    destruct (aligned_size_of_small (size * nmemb) ltac:(lia)) as [E HA].
    pose proof (ALIGN_small (size * nmemb) ltac:(lia)) as Ha.
    destruct (alloc_body_holds sysconf_SC_PAGESIZE request_space_calloc
               (λ p, memset p 0 (size * nmemb)) page_size (λ s, eq_refl)
               (zero_quiet_calloc _) (λ _ _ H, H) req_spec_calloc
               s l _ Hwf HA)
      as [[msg Hab] | (p' & s1 & Hr' & b & H1 & H2 & H3 & H4 & _)];
      [congruence|].
    rewrite Hr in Hr'. inversion Hr'; subst p' s1. exists b.
    split; [exact H1|]. split; [exact H2|]. split; [exact H3 | lia].
Qed.

Lemma allocated_block_holds_request_witness :
  (∃ b, 65688 ≠ 0 ∧
        hdr (run_state (os_malloc 100) s_one) !! get_block_ptr 65688 = Some b ∧
        bstatus b ≠ STATUS_FREE ∧ 100 ≤ bsize b - HDR) ∧
  (∃ b, 65688 ≠ 0 ∧
        hdr (run_state (os_calloc 3 7) s_one) !! get_block_ptr 65688 = Some b ∧
        bstatus b ≠ STATUS_FREE ∧ 7 * 3 ≤ bsize b - HDR).
Proof.
  destruct (allocated_block_holds_request s_one registry_one wf_s_one)
    as [Hm Hc].
  split.
  - apply (Hm 100 65688); [lia|]. apply run_state_spec. vm_compute. reflexivity.
  - apply (Hc 3 7 65688); [lia | lia | lia |].
    apply run_state_spec. vm_compute. reflexivity.
Defined.

(** ** The threshold of [os_calloc] *)

(** X10: [os_calloc] takes the page size, not 128 KiB, as its threshold: on
    a well-formed registry, whenever a call with an aligned total size [S]
    below [2^31] returns, the result is not null and its block is a MAPPED
    block, off the registry, exactly when [S] is at least the page size and,
    after coalescing, no FREE block can hold [S] and the last block is not
    FREE; otherwise the block is an ALLOC block of the registry. *)
Theorem os_calloc_backing_store (s s' : state) (l : list (Z * block_meta))
    (nmemb size p : Z) :
  wf s l → nmemb ≠ 0 → size ≠ 0 → wrap64 (size * nmemb) ≤ 2 ^ 31 - 32 →
  os_calloc nmemb size s = Ret (p, s') →
  p ≠ 0 ∧
  ∃ l' b,
    registry_is s' l' ∧ hdr s' !! get_block_ptr p = Some b ∧
    (bstatus b = STATUS_MAPPED ↔
     page_size s ≤ HDR + ALIGN (wrap64 (size * nmemb)) ∧
     (∀ x, x ∈ coalesce_list l →
           ¬ fits (HDR + ALIGN (wrap64 (size * nmemb))) x.2) ∧
     ¬ tail_free (coalesce_list l)) ∧
    (bstatus b = STATUS_MAPPED → get_block_ptr p ∉ l'.*1) ∧
    (bstatus b ≠ STATUS_MAPPED →
     bstatus b = STATUS_ALLOC ∧ (get_block_ptr p, b) ∈ l') ∧
    (HDR + ALIGN (wrap64 (size * nmemb)) < page_size s →
     bstatus b = STATUS_ALLOC).
Proof.
  intros Hwf Hk Hn Hs Hr.
  destruct (os_calloc_forward s l nmemb size Hwf Hk Hn Hs)
    as [[msg Hab] | (p' & s1 & Hr' & l' & b & H1 & H2 & H3 & H4 & H5 & H6 & _)];
    [congruence|].
  rewrite Hr in Hr'. inversion Hr'; subst p' s1.
  split; [exact H3|]. exists l', b.
  split; [exact H1|]. split; [exact H4|]. split; [exact H6|].
  split; [|split].
  - intros Hm. destruct H5 as [[Ha _] | [_ Hnin]]; [congruence | exact Hnin].
  - intros Hm. destruct H5 as [Ha | [Hm' _]]; [exact Ha | contradiction].
  - intros Hlt. destruct H5 as [[Ha _] | [Hm _]]; [exact Ha|].
    apply H6 in Hm. lia.
Qed.

Lemma os_calloc_backing_store_witness :
  268435480 ≠ 0 ∧
  ∃ l' b,
    registry_is (run_state (os_calloc 1024 8) s_full) l' ∧
    hdr (run_state (os_calloc 1024 8) s_full) !! get_block_ptr 268435480
      = Some b ∧
    (bstatus b = STATUS_MAPPED ↔
     page_size s_full ≤ HDR + ALIGN (wrap64 (8 * 1024)) ∧
     (∀ x, x ∈ coalesce_list registry_full →
           ¬ fits (HDR + ALIGN (wrap64 (8 * 1024))) x.2) ∧
     ¬ tail_free (coalesce_list registry_full)) ∧
    (bstatus b = STATUS_MAPPED → get_block_ptr 268435480 ∉ l'.*1) ∧
    (bstatus b ≠ STATUS_MAPPED →
     bstatus b = STATUS_ALLOC ∧ (get_block_ptr 268435480, b) ∈ l') ∧
    (HDR + ALIGN (wrap64 (8 * 1024)) < page_size s_full →
     bstatus b = STATUS_ALLOC).
Proof.
  apply (os_calloc_backing_store s_full _ registry_full 1024 8 268435480
           wf_s_full).
  - lia.
  - lia.
  - vm_compute. discriminate.
  - apply run_state_spec. vm_compute. reflexivity.
Defined.

(** ** The [int] that holds the aligned size *)

Lemma ALIGN_add_2_32 (size k : Z) :
  0 ≤ size → 0 ≤ k → size + k * 2 ^ 32 ≤ 2 ^ 64 - 8 →
  ALIGN (size + k * 2 ^ 32) = ALIGN size + k * 2 ^ 32.
Proof.
  intros Hs Hk Hle. rewrite !ALIGN_eq, !wrap64_small by lia.
  replace (size + k * 2 ^ 32 + 7) with (size + 7 + (k * 2 ^ 29) * 8) by lia.
  rewrite Z.div_add by lia. lia.
Qed.

Lemma to_int_wrap64_add_2_32 (x k : Z) :
  to_int (wrap64 (x + k * 2 ^ 32)) = to_int (wrap64 x).
Proof.
  unfold to_int, wrap64.
  rewrite !Z.mod_mod_divide by (exists (2 ^ 32); reflexivity).
  rewrite Z.mod_add by lia. reflexivity.
Qed.

(** X11: [os_malloc] keeps the aligned total size in an [int]: a request
    of [size + k * 2^32] bytes is served exactly as a request of [size]
    bytes, with the same result and the same final state. *)
Theorem os_malloc_size_modulo_2_32 (s : state) (size k : Z) :
  0 < size → 0 ≤ k → size + k * 2 ^ 32 ≤ 2 ^ 64 - 8 →
  os_malloc (size + k * 2 ^ 32) s = os_malloc size s.
Proof.
  intros Hs Hk Hle. rewrite !os_malloc_body by lia. f_equal.
  unfold aligned_size_of. rewrite ALIGN_add_2_32 by lia.
  rewrite Z.add_assoc. apply to_int_wrap64_add_2_32.
Qed.

Lemma os_malloc_size_modulo_2_32_witness :
  os_malloc (8 + 1 * 2 ^ 32) s_one = os_malloc 8 s_one.
Proof. apply (os_malloc_size_modulo_2_32 s_one 8 1); lia. Defined.

(** ** The break never moves down *)

Lemma kept_bind {A B : Type} s0 (m : M A) (f : A → M B) :
  kept s0 m → (∀ x, kept s0 (f x)) → kept s0 (bind m f).
Proof. intros Hm Hf. eapply hoare_bind; [exact Hm | exact Hf]. Qed.

Lemma kept_ret {A : Type} s0 (v : A) : kept s0 (ret v).
Proof. apply hoare_ret. auto. Qed.

Lemma kept_get {A : Type} s0 (f : state → A) : kept s0 (get f).
Proof. intros s v s' HK Hr. inversion Hr; subst. exact HK. Qed.

Lemma kept_lift {A : Type} s0 (f : state → outcome A) : kept s0 (lift f).
Proof.
  intros s v s' HK Hr. unfold lift in Hr.
  destruct (f s); inversion Hr; subst. exact HK.
Qed.

Lemma kept_load s0 a : kept s0 (load a).
Proof. apply kept_lift. Qed.

Lemma kept_store s0 a b : kept s0 (store a b).
Proof. intros s v s' HK Hr. inversion Hr; subst. exact HK. Qed.

Lemma kept_set_size s0 a v : kept s0 (set_size a v).
Proof. apply kept_bind; [apply kept_load | intros b; apply kept_store]. Qed.

Lemma kept_set_status s0 a v : kept s0 (set_status a v).
Proof. apply kept_bind; [apply kept_load | intros b; apply kept_store]. Qed.

Lemma kept_set_next s0 a v : kept s0 (set_next a v).
Proof. apply kept_bind; [apply kept_load | intros b; apply kept_store]. Qed.

Lemma kept_DIE s0 c msg : kept s0 (DIE c msg).
Proof.
  intros s v s' HK Hr. unfold DIE in Hr. destruct c; inversion Hr; subst.
  exact HK.
Qed.

Lemma kept_memset s0 dst c n : kept s0 (memset dst c n).
Proof. intros s v s' HK Hr. inversion Hr; subst. exact HK. Qed.

Lemma kept_memcpy s0 dst src n : kept s0 (memcpy dst src n).
Proof. intros s v s' HK Hr. inversion Hr; subst. exact HK. Qed.

Lemma kept_munmap s0 addr len : kept s0 (munmap addr len).
Proof.
  intros s v s' HK Hr. unfold munmap in Hr.
  destruct ((len =? 0) || negb (addr mod page_size s =? 0));
    inversion Hr; subst; exact HK.
Qed.

Lemma kept_sbrk s0 incr : 0 ≤ incr → kept s0 (sbrk incr).
Proof.
  intros Hi s v s' (K1 & K2 & K3 & K4 & K5 & K6 & K7) Hr. unfold sbrk in Hr.
  destruct ((0 <=? brk s + incr) && (brk s + incr <=? brk_max s));
    inversion Hr; subst; unfold kinv; cbn; repeat split; auto; lia.
Qed.

Lemma kept_mmap s0 len : kept s0 (mmap len).
Proof.
  intros s v s' (K1 & K2 & K3 & K4 & K5 & K6 & K7) Hr. unfold mmap in Hr.
  destruct ((0 <? len) && (map_next s + len <=? map_max s)) eqn:E;
    inversion Hr; subst; unfold kinv; cbn; [|repeat split; auto; lia].
  apply andb_true_iff in E as [E _]. apply Z.ltb_lt in E.
  pose proof (round_up_nonneg len (page_size s) ltac:(lia) ltac:(lia)).
  repeat split; auto; lia.
Qed.

Lemma kept_find_best_fit s0 size : kept s0 (find_best_fit size).
Proof. apply kept_lift. Qed.

Lemma kept_coalesce_blocks s0 : kept s0 coalesce_blocks.
Proof.
  intros s v s' HK Hr. unfold coalesce_blocks in Hr.
  destruct (coalesce_loop _ _ _ _) as [[h prev]| | |]; inversion Hr; subst.
  exact HK.
Qed.

Create HintDb kept.

#[local] Hint Resolve kept_ret kept_get kept_load kept_store kept_set_size
  kept_set_status kept_set_next kept_DIE kept_memset kept_memcpy kept_munmap
  kept_mmap kept_find_best_fit kept_coalesce_blocks : kept.

Ltac kept_auto :=
  repeat first
    [ solve [auto with kept]
    | match goal with
      | |- kept _ (if ?c then _ else _) => destruct c
      end
    | apply kept_bind; [|intros ?] ].

Lemma kept_split_block s0 block size : kept s0 (split_block block size).
Proof. unfold split_block. kept_auto. Qed.

Lemma kept_realloc_expand s0 block size : kept s0 (realloc_expand block size).
Proof.
  unfold realloc_expand. apply kept_bind; [apply kept_load | intros b].
  apply kept_bind; [|intros ?; kept_auto].
  intros s v s' HK Hr.
  destruct (realloc_expand_loop _ _ _ _); inversion Hr; subst. exact HK.
Qed.

Lemma kept_sbrk_branch s0 size :
  0 ≤ size < 2 ^ 63 →
  kept s0 (let* _ := sbrk 0 in
           let* block := sbrk (to_intptr size) in
           DIE (block =? -1) "sbrk";;
           store block (mk_block_meta size STATUS_ALLOC 0);;
           ret block).
Proof.
  intros Hs. rewrite to_intptr_small by lia.
  apply kept_bind; [apply kept_sbrk; lia | intros ?].
  apply kept_bind; [apply kept_sbrk; lia | intros ?]. kept_auto.
Qed.

Lemma kept_mmap_branch s0 size :
  kept s0 (let* block := mmap size in
           DIE (block =? MAP_FAILED) "mmap";;
           store block (mk_block_meta size STATUS_MAPPED 0);;
           ret block).
Proof. kept_auto. Qed.

Lemma kept_request_space_malloc s0 size :
  0 ≤ size → kept s0 (request_space_malloc size).
Proof.
  intros Hs. unfold request_space_malloc.
  destruct (size <? MMAP_THRESHOLD) eqn:E.
  - apply Z.ltb_lt in E. apply kept_sbrk_branch. unfold MMAP_THRESHOLD in E. lia.
  - apply kept_mmap_branch.
Qed.

Lemma kept_request_space_calloc s0 size :
  0 ≤ size → kept s0 (request_space_calloc size).
Proof.
  intros Hs s v s' HK Hr. pose proof HK as (K1 & _ & _ & _ & _ & K6 & _).
  unfold request_space_calloc in Hr.
  apply bind_ret_inv in Hr as (pg & s1 & Hg & Hr). inversion Hg; subst pg s1.
  rewrite wrap64_small in Hr by lia.
  destruct (size <? page_size s) eqn:E.
  - apply Z.ltb_lt in E.
    exact (kept_sbrk_branch s0 size ltac:(lia) _ _ _ HK Hr).
  - exact (kept_mmap_branch s0 size _ _ _ HK Hr).
Qed.

Lemma kinv_first_time_prealloc s0 s v s' :
  kinv s0 s → global_base s = 0 →
  first_time_prealloc s = Ret (v, s') → kinv s0 s'.
Proof.
  intros (K1 & K2 & K3 & K4 & K5 & K6 & K7) Hg Hr.
  assert (Hg0 : global_base s0 = 0).
  { destruct (Z.eq_dec (global_base s0) 0) as [E|E]; [exact E|].
    rewrite (K7 E) in Hg. contradiction. }
  unfold first_time_prealloc in Hr.
  apply bind_ret_inv in Hr as (g1 & s1 & H1 & Hr).
  apply bind_ret_inv in Hr as (u1 & s2 & H2 & Hr).
  apply bind_ret_inv in Hr as (g2 & s3 & H3 & Hr).
  apply bind_ret_inv in Hr as (u2 & s4 & H4 & Hr).
  apply bind_ret_inv in Hr as (u3 & s5 & H5 & Hr).
  assert (Ka : kinv s0 s1).
  { apply (kept_sbrk s0 0 ltac:(lia) _ _ _) in H1; [exact H1|].
    unfold kinv; auto 10. }
  inversion H2; subst u1 s2.
  assert (Kb : kinv s0 (set_global_base g1 s1)).
  { destruct Ka as (A1 & A2 & A3 & A4 & A5 & A6 & A7).
    unfold kinv. cbn. repeat split; auto; lia. }
  change (to_intptr MMAP_THRESHOLD) with 131072 in H3.
  apply (kept_sbrk s0 131072 ltac:(lia) _ _ _ Kb) in H3.
  inversion H4; subst u2 s4.
  assert (Kc : kinv s0 (set_global_base g2 s3)).
  { destruct H3 as (A1 & A2 & A3 & A4 & A5 & A6 & A7).
    unfold kinv. cbn. repeat split; auto; lia. }
  apply (kept_DIE s0 _ _ _ _ _ Kc) in H5.
  exact (kept_store s0 _ _ _ _ _ H5 Hr).
Qed.

Section alloc_body_kept.
Variables (threshold : M Z) (request_space : Z → M Z) (zero : Z → M unit).
Variable (s0 : state).
Variable Tf : state → Z.
Hypothesis Hthr : ∀ s, threshold s = Ret (Tf s, s).
Hypothesis Hreq : ∀ sz, 0 ≤ sz → kept s0 (request_space sz).
Hypothesis Hzero : ∀ p, kept s0 (zero p).

Lemma kept_alloc_body (A : Z) :
  kept s0 (alloc_body threshold request_space zero A).
Proof.
  intros s v s' HK Hr. unfold alloc_body in Hr.
  apply bind_ret_inv in Hr as (base & s1 & Hg & Hr). inversion Hg; subst base s1.
  apply bind_ret_inv in Hr as (thr & s1 & Ht & Hr).
  rewrite Hthr in Ht. inversion Ht; subst thr s1.
  apply bind_ret_inv in Hr as (u & s2 & Hp & Hr).
  assert (HK2 : kinv s0 s2).
  { destruct ((global_base s =? 0) && (A <? Tf s)) eqn:E.
    - apply andb_true_iff in E as [E _]. apply Z.eqb_eq in E.
      exact (kinv_first_time_prealloc _ _ _ _ HK E Hp).
    - inversion Hp; subst. exact HK. }
  revert Hr.
  match goal with
  | |- ?k s2 = _ → _ => assert (Hk : kept s0 k)
  end.
  { pose proof (λ z, Hreq (wrap64 z) (proj1 (wrap64_range z))) as Hreq'.
    kept_auto. }
  intros Hr. exact (Hk _ _ _ HK2 Hr).
Qed.
End alloc_body_kept.

Lemma kept_os_malloc s0 size : kept s0 (os_malloc size).
Proof.
  intros s v s' HK Hr. destruct (Z.eq_dec size 0) as [->|Hs].
  - inversion Hr; subst. exact HK.
  - rewrite os_malloc_body in Hr by exact Hs.
    eapply (kept_alloc_body (ret MMAP_THRESHOLD) request_space_malloc
              (λ _, ret tt) s0 (λ _, MMAP_THRESHOLD)); eauto.
    + intros sz Hsz. apply kept_request_space_malloc. exact Hsz.
    + intros p. apply kept_ret.
Qed.

Lemma kept_os_calloc s0 nmemb size : kept s0 (os_calloc nmemb size).
Proof.
  intros s v s' HK Hr.
  destruct (Z.eq_dec nmemb 0) as [->|Hk].
  { inversion Hr; subst. exact HK. }
  destruct (Z.eq_dec size 0) as [->|Hs].
  { unfold os_calloc in Hr. rewrite orb_true_r in Hr.
    inversion Hr; subst. exact HK. }
  rewrite os_calloc_body in Hr by assumption.
  eapply (kept_alloc_body sysconf_SC_PAGESIZE request_space_calloc
            _ s0 page_size); eauto.
  - intros sz Hsz. apply kept_request_space_calloc. exact Hsz.
  - intros p. apply kept_memset.
Qed.

Lemma kept_os_free s0 ptr : kept s0 (os_free ptr).
Proof. unfold os_free. kept_auto. Qed.

#[local] Hint Resolve kept_split_block kept_realloc_expand kept_os_malloc
  kept_os_calloc kept_os_free : kept.

Lemma kept_os_realloc s0 ptr size : kept s0 (os_realloc ptr size).
Proof. unfold os_realloc. kept_auto. Qed.

Lemma kept_perform s0 c : kept s0 (perform c).
Proof.
  destruct c; simpl; kept_auto. apply kept_os_realloc.
Qed.

Lemma kept_run s0 cs : kept s0 (run cs).
Proof.
  induction cs as [|c cs IH]; simpl; [apply kept_ret|].
  apply kept_bind; [apply kept_perform | intros r].
  apply kept_bind; [exact IH | intros rs; apply kept_ret].
Qed.

Lemma kinv_refl s : 0 < page_size s < 2 ^ 63 → kinv s s.
Proof. intros H. unfold kinv. repeat split; auto; lia. Qed.

(** X12: over any sequence of [os_malloc], [os_calloc], [os_realloc] and
    [os_free] calls that returns, the program break and the mapping cursor
    never move down: memory taken from the break is never given back.  The
    limits and the page size are not touched. *)
Theorem break_never_moves_down (cs : list call) (s s' : state)
    (rs : list (option Z)) :
  0 < page_size s < 2 ^ 63 → run cs s = Ret (rs, s') →
  brk s ≤ brk s' ∧ map_next s ≤ map_next s' ∧
  brk_max s' = brk_max s ∧ map_max s' = map_max s ∧
  page_size s' = page_size s.
Proof.
  intros Hp Hr.
  destruct (kept_run s cs s rs s' (kinv_refl s Hp) Hr)
    as (_ & K2 & K3 & K4 & K5 & K6 & _).
  auto.
Qed.

Lemma break_never_moves_down_witness :
  brk s0 ≤ brk (run_state (run calls_example) s0) ∧
  map_next s0 ≤ map_next (run_state (run calls_example) s0) ∧
  brk_max (run_state (run calls_example) s0) = brk_max s0 ∧
  map_max (run_state (run calls_example) s0) = map_max s0 ∧
  page_size (run_state (run calls_example) s0) = page_size s0.
Proof.
  apply (break_never_moves_down calls_example s0 _
           [Some 268435480; Some 65560; Some 65688; Some 65736; None;
            Some 65560; Some 0]).
  - vm_compute. split; reflexivity.
  - apply run_state_spec. vm_compute. reflexivity.
Defined.

(** X13: the heap base is set once: over any sequence of calls that
    returns, a non-null [global_base] keeps its value. *)
Theorem heap_base_is_set_once (cs : list call) (s s' : state)
    (rs : list (option Z)) :
  0 < page_size s < 2 ^ 63 → global_base s ≠ 0 →
  run cs s = Ret (rs, s') → global_base s' = global_base s.
Proof.
  intros Hp Hg Hr.
  destruct (kept_run s cs s rs s' (kinv_refl s Hp) Hr)
    as (_ & _ & _ & _ & _ & _ & K7).
  auto.
Qed.

Lemma heap_base_is_set_once_witness :
  global_base (run_state (run [Malloc 5000; Calloc 10 10; Free 65560]) s_one) =
  global_base s_one.
Proof.
  apply (heap_base_is_set_once [Malloc 5000; Calloc 10 10; Free 65560] s_one _
           [Some 65688; Some 70712; None]).
  - vm_compute. split; reflexivity.
  - vm_compute. discriminate.
  - apply run_state_spec. vm_compute. reflexivity.
Defined.

(** ** [os_free] of a mapped block *)

Lemma filter_outside (h : gmap Z block_meta) (a len x : Z) :
  ¬ (a ≤ x < a + len) →
  filter (λ kv : Z * block_meta, ¬ (a ≤ kv.1 < a + len)) h !! x = h !! x.
Proof.
  intros Hx. destruct (h !! x) as [b|] eqn:E.
  - apply map_lookup_filter_Some_2; [exact E | exact Hx].
  - apply map_lookup_filter_None_2. left. exact E.
Qed.

Lemma filter_inside (h : gmap Z block_meta) (a len x : Z) :
  a ≤ x < a + len →
  filter (λ kv : Z * block_meta, ¬ (a ≤ kv.1 < a + len)) h !! x = None.
Proof.
  intros Hx. apply map_lookup_filter_None_2. right. intros b _ Hn.
  apply Hn. exact Hx.
Qed.

(** X14: [os_free] of the payload of a MAPPED block (above the heap, at a
    page boundary) makes the one call [munmap(block, block->size)] and
    returns; the header of the block is gone with the mapping, every header
    outside the mapping and the whole registry are as before, and a second
    [os_free] of the same pointer reads a header that no longer exists.
    When the block does not start at a page boundary the process is
    terminated with the [munmap] diagnostic. *)
Theorem os_free_unmaps_mapped_block (s : state) (l : list (Z * block_meta))
    (a : Z) (b : block_meta) :
  wf s l → hdr s !! a = Some b → bstatus b = STATUS_MAPPED →
  brk s ≤ a → 0 < bsize b →
  (a mod page_size s = 0 →
   ∃ s', os_free (a + HDR) s = Ret (tt, s') ∧ wf s' l ∧
         hdr s' !! a = None ∧
         (∀ x, ¬ (a ≤ x < a + bsize b) → hdr s' !! x = hdr s !! x) ∧
         trace s' = EvMunmap a (bsize b) :: trace s ∧ mem s' = mem s ∧
         os_free (a + HDR) s' = Fault) ∧
  (a mod page_size s ≠ 0 → os_free (a + HDR) s = Abort "munmap").
Proof.
  intros Hwf Ha Hst Hab Hsz.
  pose proof (wf_brk _ _ Hwf) as Hbrk.
  assert (Hfr : os_free (a + HDR) s =
                (let* r := munmap a (bsize b) in DIE (r =? -1) "munmap") s).
  { unfold os_free. rewrite HDR_val. destruct (a + 24 =? 0) eqn:E; [lia|].
    change 24 with (ALIGN sizeof_block_meta). rewrite get_block_ptr_payload.
    unfold bind at 1. rewrite (load_some _ _ _ Ha), Hst. reflexivity. }
  rewrite Hfr. unfold bind, munmap, DIE.
  destruct (bsize b =? 0) eqn:E0; [lia|]. cbn [orb].
  split.
  - intros Hpg. rewrite Hpg. cbn [Z.eqb negb].
    eexists. split; [reflexivity|].
    cbn [hdr mem trace set_hdr log].
    assert (Hnone : filter (λ kv : Z * block_meta, ¬ (a ≤ kv.1 < a + bsize b))
                      (hdr s) !! a = None).
    { apply filter_inside. lia. }
    split; [|split; [exact Hnone|split; [|split; [reflexivity|split; [reflexivity|]]]]].
    + destruct Hwf as [Hreg Hgeom _ Hmap Hlim Hpage].
      constructor; cbn [brk brk_max map_next page_size set_hdr log]; try assumption.
      unfold registry_is, chain. cbn [hdr global_base set_hdr log].
      eapply lseg_frame; [|exact Hreg].
      intros x Hx. apply filter_outside.
      apply list_elem_of_fmap in Hx as (y & -> & Hy).
      pose proof (geom_bound _ _ _ Hgeom ltac:(lia) Hy). lia.
    + intros x Hx. apply filter_outside. exact Hx.
    + unfold os_free. rewrite HDR_val. destruct (a + 24 =? 0) eqn:E; [lia|].
      change 24 with (ALIGN sizeof_block_meta). rewrite get_block_ptr_payload.
      unfold bind, load, lift, hload. cbn [hdr set_hdr log]. rewrite Hnone.
      reflexivity.
  - intros Hpg. destruct (a mod page_size s =? 0) eqn:E; [lia|]. reflexivity.
Qed.

Lemma wf_s_mapped : wf s_mapped [].
Proof. concrete_wf. Qed.

Lemma os_free_unmaps_mapped_block_witness :
  ∃ s', os_free (268435456 + HDR) s_mapped = Ret (tt, s') ∧ wf s' [] ∧
        hdr s' !! 268435456 = None ∧
        (∀ x, ¬ (268435456 ≤ x <
                 268435456 + bsize (mk_block_meta 200024 STATUS_MAPPED 0)) →
              hdr s' !! x = hdr s_mapped !! x) ∧
        trace s' =
          EvMunmap 268435456 (bsize (mk_block_meta 200024 STATUS_MAPPED 0)) ::
          trace s_mapped ∧
        mem s' = mem s_mapped ∧
        os_free (268435456 + HDR) s' = Fault.
Proof.
  apply (os_free_unmaps_mapped_block s_mapped [] 268435456
           (mk_block_meta 200024 STATUS_MAPPED 0) wf_s_mapped).
  - vm_compute. reflexivity.
  - reflexivity.
  - vm_compute. discriminate.
  - simpl. lia.
  - vm_compute. reflexivity.
Defined.

(** ** [os_realloc] in place *)

Lemma os_realloc_alloc_block (s : state) (a size : Z) (b : block_meta) :
  0 < a → hdr s !! a = Some b → bstatus b = STATUS_ALLOC →
  0 < size ≤ 2 ^ 31 - 32 → bsize b ≠ ALIGN size + HDR →
  os_realloc (a + HDR) size s =
  (let* shrunk :=
     (if ALIGN size + HDR <=? bsize b then
        if ALIGN size + HDR + MIN_BLOCK <=? bsize b
        then split_block a (ALIGN size + HDR);; ret true
        else ret false
      else ret false) in
   if shrunk : bool then ret (a + HDR)
   else
     coalesce_blocks;;
     let* block := realloc_expand a (ALIGN size + HDR) in
     if negb (block =? 0) then
       let* b := load block in
       (if ALIGN size + HDR + MIN_BLOCK <=? bsize b
        then split_block block (ALIGN size + HDR) else ret tt);;
       ret (a + HDR)
     else
       let* new_ptr := os_malloc size in
       let new_block := get_block_ptr new_ptr in
       if new_ptr =? 0 then ret 0
       else
         let* nb := load new_block in
         memcpy new_ptr (a + HDR) (wrap64 (bsize nb - ALIGN sizeof_block_meta));;
         os_free (a + HDR);;
         ret new_ptr) s.
Proof.
  intros Ha Hl Hst Hs Hne. unfold os_realloc.
  pose proof (ALIGN_small size ltac:(lia)) as Hal.
  change (ALIGN sizeof_block_meta) with 24.
  change (ALIGN (sizeof_block_meta + ALIGN 1)) with 32.
  rewrite HDR_val, MIN_BLOCK_val in *.
  rewrite !wrap64_small by lia.
  destruct (a + 24 =? 0) eqn:E1; [lia|].
  destruct (size =? 0) eqn:E2; [lia|].
  unfold get_block_ptr. change (ALIGN sizeof_block_meta) with 24.
  replace (a + 24 - 24) with a by lia.
  unfold bind at 1. rewrite (load_some _ _ _ Hl). rewrite Hst. cbn [status_eqb].
  destruct (bsize b =? ALIGN size + 24) eqn:E3; [lia|]. reflexivity.
Qed.

(** ** The registry at rest, call by call *)

(** C1 (amended): on a well-formed registry, every [os_malloc] and
    [os_calloc] call with an aligned total size below [2^31] that returns
    leaves a registry with no two consecutive FREE blocks, well-formed again
    when the size is below the threshold of the call.  [os_free] and
    [os_realloc] do not restore this: [os_free] of an ALLOC registry block
    only sets its status to FREE, and [os_realloc] of an ALLOC registry block
    to a size that leaves room for a block of its own splits it in place;
    both return, merge nothing and keep the registry well-formed, so the
    freed block, or the FREE rest of the split, can stand next to a FREE
    block until the next allocation. *)
Theorem allocation_leaves_no_adjacent_free (s : state)
    (l : list (Z * block_meta)) :
  wf s l →
  (∀ size p s', 0 < size ≤ 2 ^ 31 - 32 →
     os_malloc size s = Ret (p, s') →
     ∃ l', registry_is s' l' ∧ no_adjacent_free l' = true ∧
           (HDR + ALIGN size < MMAP_THRESHOLD → wf s' l')) ∧
  (∀ nmemb size p s', nmemb ≠ 0 → size ≠ 0 →
     wrap64 (size * nmemb) ≤ 2 ^ 31 - 32 →
     os_calloc nmemb size s = Ret (p, s') →
     ∃ l', registry_is s' l' ∧ no_adjacent_free l' = true ∧
           (HDR + ALIGN (wrap64 (size * nmemb)) < page_size s → wf s' l')) ∧
  (∀ pre b post p,
     l = pre ++ (get_block_ptr p, b) :: post →
     p ≠ 0 → bstatus b = STATUS_ALLOC →
     ∃ s', os_free p s = Ret (tt, s') ∧
           wf s' (pre ++ (get_block_ptr p, with_status STATUS_FREE b) :: post)) ∧
  (∀ pre b post a size,
     l = pre ++ (a, b) :: post → bstatus b = STATUS_ALLOC →
     0 < size ≤ 2 ^ 31 - 32 → ALIGN size + HDR + MIN_BLOCK ≤ bsize b →
     ∃ s', os_realloc (a + HDR) size s = Ret (a + HDR, s') ∧
           wf s' (pre ++ (a, mk_block_meta (ALIGN size + HDR) STATUS_ALLOC
                               (a + (ALIGN size + HDR))) ::
                         (a + (ALIGN size + HDR),
                          mk_block_meta (bsize b - (ALIGN size + HDR))
                            STATUS_FREE (bnext b)) :: post)).
Proof.
  intros Hwf. split; [|split; [|split]].
  - intros size p s' Hs Hr.
    destruct (os_malloc_forward s l size Hwf Hs)
      as [[msg Hab] | (p' & s1 & Hr' & l' & b & H1 & H2 & _ & _ & _ & _ & H7)];
      [congruence|].
    rewrite Hr in Hr'. inversion Hr'; subst p' s1. eauto 6.
  - intros nmemb size p s' Hk Hn Hs Hr.
    destruct (os_calloc_forward s l nmemb size Hwf Hk Hn Hs)
      as [[msg Hab] | (p' & s1 & Hr' & l' & b & H1 & H2 & _ & _ & _ & _ & H7)];
      [congruence|].
    rewrite Hr in Hr'. inversion Hr'; subst p' s1. eauto 6.
  - intros pre b post p -> Hp Hb. apply os_free_alloc_forward; assumption.
  - intros pre b post a size -> Hst Hs Hroom.
    pose proof (wf_block_bounds _ _ _ _ _ Hwf) as Hb.
    pose proof (lseg_parts _ _ _ _ _ _ (wf_reg _ _ Hwf)) as (Hl & _).
    pose proof (ALIGN_small size ltac:(lia)) as Hal.
    rewrite HDR_val, MIN_BLOCK_val in *.
    rewrite <- HDR_val.
    rewrite (os_realloc_alloc_block s a size b) by (rewrite ?HDR_val; auto; lia).
    rewrite HDR_val, MIN_BLOCK_val.
    destruct (ALIGN size + 24 <=? bsize b) eqn:E1; [|apply Z.leb_gt in E1; lia].
    destruct (ALIGN size + 24 + 32 <=? bsize b) eqn:E2;
      [|apply Z.leb_gt in E2; lia].
    destruct (split_block_wf s pre post a b (ALIGN size + 24) Hwf ltac:(lia))
      as (h' & Hsp & Hwf' & _).
    rewrite bind_assoc. rewrite (bind_Ret _ _ _ _ _ Hsp).
    exists (set_hdr h' s). split; [reflexivity|].
    unfold split_at in Hwf'. cbn [fst snd app] in Hwf'. rewrite Hst in Hwf'.
    exact Hwf'.
Qed.

Lemma allocation_leaves_no_adjacent_free_witness :
  (∃ l', registry_is (run_state (os_malloc 100) s_one) l' ∧
         no_adjacent_free l' = true ∧
         (HDR + ALIGN 100 < MMAP_THRESHOLD →
          wf (run_state (os_malloc 100) s_one) l')) ∧
  (∃ l', registry_is (run_state (os_calloc 3 7) s_one) l' ∧
         no_adjacent_free l' = true ∧
         (HDR + ALIGN (wrap64 (7 * 3)) < page_size s_one →
          wf (run_state (os_calloc 3 7) s_one) l')) ∧
  (∃ s', os_free 65560 s_one = Ret (tt, s') ∧
         wf s' ([] ++ (get_block_ptr 65560,
                       with_status STATUS_FREE
                         (mk_block_meta 128 STATUS_ALLOC 65664)) ::
                      [(65664, mk_block_meta 130944 STATUS_FREE 0)])) ∧
  (∃ s', os_realloc (65536 + HDR) 30 s_one = Ret (65536 + HDR, s') ∧
         wf s' ([] ++ (65536, mk_block_meta (ALIGN 30 + HDR) STATUS_ALLOC
                                (65536 + (ALIGN 30 + HDR))) ::
                      (65536 + (ALIGN 30 + HDR),
                       mk_block_meta
                         (bsize (mk_block_meta 128 STATUS_ALLOC 65664) -
                          (ALIGN 30 + HDR))
                         STATUS_FREE
                         (bnext (mk_block_meta 128 STATUS_ALLOC 65664))) ::
                      [(65664, mk_block_meta 130944 STATUS_FREE 0)])).
Proof.
  destruct (allocation_leaves_no_adjacent_free s_one registry_one wf_s_one)
    as (Hm & Hc & Hf & Hr).
  split; [|split; [|split]].
  - apply (Hm 100 65688); [lia|]. apply run_state_spec. vm_compute. reflexivity.
  - apply (Hc 3 7 65688); [lia | lia | vm_compute; discriminate |].
    apply run_state_spec. vm_compute. reflexivity.
  - apply (Hf [] (mk_block_meta 128 STATUS_ALLOC 65664)
              [(65664, mk_block_meta 130944 STATUS_FREE 0)] 65560);
      [reflexivity | lia | reflexivity].
  - apply (Hr [] (mk_block_meta 128 STATUS_ALLOC 65664)
              [(65664, mk_block_meta 130944 STATUS_FREE 0)] 65536 30);
      [reflexivity | reflexivity | lia | vm_compute; discriminate].
Defined.

(** ** Shrinking and growing in place *)

(** X15: [os_realloc] of an ALLOC registry block to a size that leaves room
    for a block of its own ([size(block) >= S + 32] for the new aligned
    total size [S]) returns the same pointer; the block is split in place,
    the rest becomes a FREE block that is not merged with a FREE successor,
    no system call is made and no payload byte is written. *)
Theorem os_realloc_shrinks_in_place (s : state)
    (pre post : list (Z * block_meta)) (a size : Z) (b : block_meta) :
  wf s (pre ++ (a, b) :: post) → bstatus b = STATUS_ALLOC →
  0 < size ≤ 2 ^ 31 - 32 → ALIGN size + HDR + MIN_BLOCK ≤ bsize b →
  ∃ s', os_realloc (a + HDR) size s = Ret (a + HDR, s') ∧
        wf s' (pre ++ (a, mk_block_meta (ALIGN size + HDR) STATUS_ALLOC
                            (a + (ALIGN size + HDR))) ::
                      (a + (ALIGN size + HDR),
                       mk_block_meta (bsize b - (ALIGN size + HDR)) STATUS_FREE
                         (bnext b)) :: post) ∧
        mem s' = mem s ∧ brk s' = brk s ∧ trace s' = trace s.
Proof.
  intros Hwf Hst Hs Hroom.
  pose proof (wf_block_bounds _ _ _ _ _ Hwf) as Hb.
  pose proof (lseg_parts _ _ _ _ _ _ (wf_reg _ _ Hwf)) as (Hl & _).
  pose proof (ALIGN_small size ltac:(lia)) as Hal.
  rewrite HDR_val, MIN_BLOCK_val in *.
  rewrite <- HDR_val.
  rewrite (os_realloc_alloc_block s a size b) by (rewrite ?HDR_val; auto; lia).
  rewrite HDR_val, MIN_BLOCK_val.
  destruct (ALIGN size + 24 <=? bsize b) eqn:E1; [|apply Z.leb_gt in E1; lia].
  destruct (ALIGN size + 24 + 32 <=? bsize b) eqn:E2; [|apply Z.leb_gt in E2; lia].
  destruct (split_block_wf s pre post a b (ALIGN size + 24) Hwf ltac:(lia))
    as (h' & Hsp & Hwf' & _).
  rewrite bind_assoc. rewrite (bind_Ret _ _ _ _ _ Hsp).
  exists (set_hdr h' s). split; [reflexivity|].
  unfold split_at in Hwf'. cbn [fst snd app] in Hwf'. rewrite Hst in Hwf'.
  split; [exact Hwf' | auto].
Qed.

Lemma os_realloc_shrinks_in_place_witness :
  ∃ s', os_realloc (65536 + HDR) 1000 s_full = Ret (65536 + HDR, s') ∧
        wf s' ([] ++ (65536, mk_block_meta (ALIGN 1000 + HDR) STATUS_ALLOC
                               (65536 + (ALIGN 1000 + HDR))) ::
                     (65536 + (ALIGN 1000 + HDR),
                      mk_block_meta
                        (bsize (mk_block_meta 131072 STATUS_ALLOC 0) -
                         (ALIGN 1000 + HDR)) STATUS_FREE
                        (bnext (mk_block_meta 131072 STATUS_ALLOC 0))) :: []) ∧
        mem s' = mem s_full ∧ brk s' = brk s_full ∧ trace s' = trace s_full.
Proof.
  apply (os_realloc_shrinks_in_place s_full [] [] 65536 1000
           (mk_block_meta 131072 STATUS_ALLOC 0) wf_s_full).
  - reflexivity.
  - lia.
  - vm_compute. discriminate.
Defined.

Lemma coal_used x rest : is_free x.2 = false → coal x rest = x :: coalesce_list rest.
Proof. intros Hx. destruct rest as [|y rest]; simpl; [reflexivity|]. rewrite Hx. reflexivity. Qed.

Lemma coal_app_used x rest y post :
  is_free y.2 = false →
  coal x (rest ++ y :: post) = coal x rest ++ y :: coalesce_list post.
Proof.
  intros Hy. revert x. induction rest as [|z rest IH]; intros x; simpl.
  - rewrite Hy, andb_false_r. rewrite coal_used by exact Hy. reflexivity.
  - destruct (is_free x.2 && is_free z.2); [apply IH|].
    rewrite IH. reflexivity.
Qed.

Lemma coalesce_list_app_used pre y post :
  is_free y.2 = false →
  coalesce_list (pre ++ y :: post) = coalesce_list pre ++ y :: coalesce_list post.
Proof.
  intros Hy. destruct pre as [|x pre]; simpl.
  - apply coal_used. exact Hy.
  - apply coal_app_used. exact Hy.
Qed.

(** X16: [os_realloc] of an ALLOC registry block whose size is neither the
    new aligned total size [S] nor at least [S + 32] first coalesces the
    registry and lets the block take over the FREE blocks that follow it;
    when the block then reaches [S] the same pointer is returned, the block
    is split if it now exceeds [S] by 32 bytes or more, the registry stays
    well-formed, and neither a system call nor a copy is made. *)
Theorem os_realloc_grows_in_place (s : state)
    (pre post : list (Z * block_meta)) (a size : Z) (b : block_meta) :
  wf s (pre ++ (a, b) :: post) → bstatus b = STATUS_ALLOC →
  0 < size ≤ 2 ^ 31 - 32 →
  bsize b ≠ ALIGN size + HDR → bsize b < ALIGN size + HDR + MIN_BLOCK →
  ALIGN size + HDR ≤ bsize (absorb (a, b) (coalesce_list post)).1.2 →
  ∃ s', os_realloc (a + HDR) size s = Ret (a + HDR, s') ∧
        wf s' (coalesce_list pre ++
               (if ALIGN size + HDR + MIN_BLOCK <=?
                   bsize (absorb (a, b) (coalesce_list post)).1.2
                then split_at (ALIGN size + HDR)
                       (absorb (a, b) (coalesce_list post)).1
                else [(absorb (a, b) (coalesce_list post)).1]) ++
               (absorb (a, b) (coalesce_list post)).2) ∧
        mem s' = mem s ∧ brk s' = brk s ∧ trace s' = trace s.
Proof.
  intros Hwf Hst Hs Hne Hlt Hfit.
  pose proof (wf_block_bounds _ _ _ _ _ Hwf) as Hb.
  pose proof (lseg_parts _ _ _ _ _ _ (wf_reg _ _ Hwf)) as (Hl & _).
  pose proof (ALIGN_small size ltac:(lia)) as Hal.
  rewrite (os_realloc_alloc_block s a size b) by (auto; lia).
  rewrite HDR_val, MIN_BLOCK_val in *.
  assert (Hshr : (if ALIGN size + 24 <=? bsize b
                  then if ALIGN size + 24 + 32 <=? bsize b
                       then split_block a (ALIGN size + 24);; ret true
                       else ret false
                  else ret false) s = Ret (false, s)).
  { destruct (ALIGN size + 24 + 32 <=? bsize b) eqn:E; [apply Z.leb_le in E; lia|].
    destruct (ALIGN size + 24 <=? bsize b); reflexivity. }
  rewrite (bind_Ret _ _ _ _ _ Hshr).
  destruct (coalesce_blocks_wf s _ Hwf) as (h1 & Hco & Hwf1 & _).
  rewrite (bind_Ret _ _ _ _ _ Hco).
  assert (Hnf : is_free (a, b).2 = false).
  { unfold is_free. simpl. rewrite Hst. reflexivity. }
  rewrite (coalesce_list_app_used pre (a, b) post Hnf) in Hwf1.
  destruct (realloc_expand_wf _ _ _ a b (ALIGN size + 24) Hwf1)
    as (h2 & Hex & Hwf2 & _).
  rewrite (bind_Ret _ _ _ _ _ Hex).
  set (x := (absorb (a, b) (coalesce_list post)).1) in *.
  set (rest := (absorb (a, b) (coalesce_list post)).2) in *.
  destruct (ALIGN size + 24 <=? bsize x.2) eqn:E; [|apply Z.leb_gt in E; lia].
  destruct (a =? 0) eqn:E0; [lia|]. cbn [negb].
  assert (Hxa : x.1 = a) by apply (absorb_addr (a, b)).
  assert (Hwf2' : wf (set_hdr h2 (set_hdr h1 s))
                     (coalesce_list pre ++ (a, x.2) :: rest)).
  { rewrite <- Hxa. rewrite <- surjective_pairing. exact Hwf2. }
  pose proof (lseg_parts _ _ _ _ _ _ (wf_reg _ _ Hwf2')) as (Hx & _).
  rewrite (bind_Ret _ _ _ _ _ (load_some _ _ _ Hx)).
  destruct (ALIGN size + 24 + 32 <=? bsize x.2) eqn:Esp.
  - apply Z.leb_le in Esp.
    destruct (split_block_wf _ _ _ a x.2 (ALIGN size + 24) Hwf2' ltac:(lia))
      as (h3 & Hsp & Hwf3 & _).
    rewrite (bind_Ret _ _ _ _ _ Hsp).
    eexists. split; [reflexivity|].
    split; [|auto]. rewrite <- Hxa in Hwf3. rewrite <- surjective_pairing in Hwf3.
    exact Hwf3.
  - rewrite (bind_Ret _ _ _ _ _ (eq_refl : ret tt _ = Ret (tt, _))).
    eexists. split; [reflexivity|]. split; [exact Hwf2 | auto].
Qed.

Lemma os_realloc_grows_in_place_witness :
  ∃ s', os_realloc (65536 + HDR) 5000 s_one = Ret (65536 + HDR, s') ∧
        wf s' (coalesce_list [] ++
               (if ALIGN 5000 + HDR + MIN_BLOCK <=?
                   bsize (absorb (65536, mk_block_meta 128 STATUS_ALLOC 65664)
                            (coalesce_list
                               [(65664, mk_block_meta 130944 STATUS_FREE 0)])).1.2
                then split_at (ALIGN 5000 + HDR)
                       (absorb (65536, mk_block_meta 128 STATUS_ALLOC 65664)
                          (coalesce_list
                             [(65664, mk_block_meta 130944 STATUS_FREE 0)])).1
                else [(absorb (65536, mk_block_meta 128 STATUS_ALLOC 65664)
                         (coalesce_list
                            [(65664, mk_block_meta 130944 STATUS_FREE 0)])).1]) ++
               (absorb (65536, mk_block_meta 128 STATUS_ALLOC 65664)
                  (coalesce_list
                     [(65664, mk_block_meta 130944 STATUS_FREE 0)])).2) ∧
        mem s' = mem s_one ∧ brk s' = brk s_one ∧ trace s' = trace s_one.
Proof.
  apply (os_realloc_grows_in_place s_one []
           [(65664, mk_block_meta 130944 STATUS_FREE 0)] 65536 5000
           (mk_block_meta 128 STATUS_ALLOC 65664) wf_s_one).
  - reflexivity.
  - lia.
  - vm_compute. discriminate.
  - vm_compute. reflexivity.
  - vm_compute. discriminate.
Defined.

(** ** [os_malloc] after [os_free] *)

Lemma coal_fixed x rest :
  no_adjacent_free (x :: rest) = true → coal x rest = x :: rest.
Proof.
  revert x. induction rest as [|y rest IH]; intros x H; [reflexivity|].
  rewrite no_adjacent_free_cons in H. apply andb_true_iff in H as [H1 H2].
  simpl. apply negb_true_iff in H1. rewrite H1. rewrite IH by exact H2.
  reflexivity.
Qed.

Lemma coalesce_list_fixed l : no_adjacent_free l = true → coalesce_list l = l.
Proof. destruct l; [reflexivity | apply coal_fixed]. Qed.

Lemma no_adjacent_free_tail x l :
  no_adjacent_free (x :: l) = true → no_adjacent_free l = true.
Proof.
  destruct l as [|y l]; [reflexivity|]. rewrite no_adjacent_free_cons.
  intros H. apply andb_true_iff in H as [_ H]. exact H.
Qed.

Lemma coal_remerge x pre x1 x2 post :
  no_adjacent_free (x :: pre ++ merge x1 x2 :: post) = true →
  is_free x1.2 = true → is_free x2.2 = true →
  coal x (pre ++ x1 :: x2 :: post) = x :: pre ++ merge x1 x2 :: post.
Proof.
  intros Hnaf H1 H2. revert x Hnaf. induction pre as [|y pre IH]; intros x Hnaf.
  - simpl app in *. rewrite no_adjacent_free_cons in Hnaf.
    apply andb_true_iff in Hnaf as [Hx Hm]. apply negb_true_iff in Hx.
    change (is_free (merge x1 x2).2) with (is_free x1.2) in Hx.
    rewrite H1, andb_true_r in Hx.
    cbn [coal]. rewrite Hx, H1, H2. cbn [andb].
    rewrite coal_fixed by exact Hm. reflexivity.
  - simpl app in *. rewrite no_adjacent_free_cons in Hnaf.
    apply andb_true_iff in Hnaf as [Hx Hm]. apply negb_true_iff in Hx.
    cbn [coal]. rewrite Hx. rewrite IH by exact Hm. reflexivity.
Qed.

Lemma coalesce_list_remerge pre x1 x2 post :
  no_adjacent_free (pre ++ merge x1 x2 :: post) = true →
  is_free x1.2 = true → is_free x2.2 = true →
  coalesce_list (pre ++ x1 :: x2 :: post) = pre ++ merge x1 x2 :: post.
Proof.
  intros Hnaf H1 H2. destruct pre as [|x pre].
  - simpl. rewrite H1, H2. simpl. apply coal_fixed. exact Hnaf.
  - apply coal_remerge; assumption.
Qed.

Lemma best_fit_unique (A : Z) (pre pre' post post' : list (Z * block_meta))
    (x x' : Z * block_meta) :
  pre ++ x :: post = pre' ++ x' :: post' →
  fits A x.2 → fits A x'.2 →
  (∀ y, y ∈ pre → fits A y.2 → bsize x.2 < bsize y.2) →
  (∀ y, y ∈ post → fits A y.2 → bsize x.2 ≤ bsize y.2) →
  (∀ y, y ∈ pre' → fits A y.2 → bsize x'.2 < bsize y.2) →
  (∀ y, y ∈ post' → fits A y.2 → bsize x'.2 ≤ bsize y.2) →
  x = x'.
Proof.
  intros E Hx Hx' Hpre Hpost Hpre' Hpost'.
  apply List.app_eq_app in E as (m & [[E1 E2] | [E1 E2]]).
  - destruct m as [|z m]; simpl in E2.
    + inversion E2. reflexivity.
    + inversion E2; subst z post'. exfalso.
      assert (H1 : x' ∈ pre).
      { rewrite E1. apply elem_of_app. right. left. }
      assert (H2 : x ∈ m ++ x :: post).
      { apply elem_of_app. right. left. }
      specialize (Hpre _ H1 Hx'). specialize (Hpost' _ H2 Hx). lia.
  - destruct m as [|z m]; simpl in E2.
    + inversion E2. reflexivity.
    + inversion E2; subst z post. exfalso.
      assert (H1 : x ∈ pre').
      { rewrite E1. apply elem_of_app. right. left. }
      assert (H2 : x' ∈ m ++ x' :: post').
      { apply elem_of_app. right. left. }
      specialize (Hpre' _ H1 Hx). specialize (Hpost _ H2 Hx'). lia.
Qed.

Lemma os_free_alloc_exact (s : state) (pre post : list (Z * block_meta))
    (a : Z) (b : block_meta) :
  wf s (pre ++ (a, b) :: post) → 0 < a → bstatus b = STATUS_ALLOC →
  os_free (a + ALIGN sizeof_block_meta) s =
    Ret (tt, set_hdr (<[a := with_status STATUS_FREE b]> (hdr s)) s) ∧
  wf (set_hdr (<[a := with_status STATUS_FREE b]> (hdr s)) s)
     (pre ++ (a, with_status STATUS_FREE b) :: post).
Proof.
  intros Hwf Ha Hst.
  pose proof (lseg_parts _ _ _ _ _ _ (wf_reg _ _ Hwf)) as (Hl & _).
  destruct (set_status_wf s pre post a b STATUS_FREE Hwf) as [Hset Hwf'].
  split; [|exact Hwf']. unfold os_free.
  change (ALIGN sizeof_block_meta) with 24.
  destruct (a + 24 =? 0) eqn:E; [lia|].
  change 24 with (ALIGN sizeof_block_meta). rewrite get_block_ptr_payload.
  rewrite (bind_Ret _ _ _ _ _ (load_some _ _ _ Hl)). rewrite Hst.
  cbn [status_eqb]. exact Hset.
Qed.

(** X17: when [os_malloc] is served from a FREE block, freeing the pointer
    it returned leaves a well-formed registry that coalesces to what the
    registry coalesced to before the two calls, the break where it was, and
    the same request is then served by the same pointer. *)
Theorem malloc_free_malloc_reuses_block (s : state)
    (l : list (Z * block_meta)) (size : Z) :
  wf s l → 0 < size ≤ 2 ^ 31 - 32 →
  (∃ x, x ∈ coalesce_list l ∧ fits (HDR + ALIGN size) x.2) →
  ∃ p s1 s2 l2 s3,
    os_malloc size s = Ret (p, s1) ∧ p ≠ 0 ∧
    os_free p s1 = Ret (tt, s2) ∧
    wf s2 l2 ∧ coalesce_list l2 = coalesce_list l ∧ brk s2 = brk s ∧
    os_malloc size s2 = Ret (p, s3).
Proof.
  intros Hwf Hs Hfit. rewrite os_malloc_body by lia.
  destruct (aligned_size_of_small size ltac:(lia)) as [E HA]. rewrite <- E in *.
  set (A := aligned_size_of size) in *.
  destruct (alloc_body_reuse (ret MMAP_THRESHOLD) request_space_malloc
              (λ _, ret tt) (λ _, MMAP_THRESHOLD) (λ s, eq_refl)
              zero_quiet_malloc s l A Hwf Hfit HA)
    as (r & s1 & pre & b & post & Hr & Hl & Hf & Hpre & Hpost & Hwf1 & Hq).
  destruct (coalesce_blocks_wf s l Hwf) as (hc & _ & Hwfc & _).
  rewrite Hl in Hwfc. pose proof (wf_block_bounds _ _ _ _ _ Hwfc) as Hb.
  cbn [brk set_hdr] in Hb.
  pose proof (no_adjacent_free_coalesce_list l) as Hnaf. rewrite Hl in Hnaf.
  destruct Hf as [Hfree Hsize].
  assert (Hfb : is_free b = true) by (apply status_eqb_eq; exact Hfree).
  assert (Hr0 : 0 < r) by lia.
  assert (Hfree2 : ∃ s2 l2, os_free (r + ALIGN sizeof_block_meta) s1 = Ret (tt, s2) ∧
                     wf s2 l2 ∧ coalesce_list l2 = pre ++ (r, b) :: post ∧
                     brk s2 = brk s1).
  { unfold carve in Hwf1. rewrite MIN_BLOCK_val in Hwf1. cbn [fst snd] in Hwf1.
    destruct (A + 32 <=? bsize b) eqn:Esp.
    - apply Z.leb_le in Esp. simpl app in Hwf1.
      destruct (os_free_alloc_exact _ _ _ _ _ Hwf1 Hr0 eq_refl) as [Hfr Hwf2].
      eexists _, _. split; [exact Hfr|]. split; [exact Hwf2|].
      split; [|reflexivity].
      assert (Em : merge (r, with_status STATUS_FREE
                               (mk_block_meta A STATUS_ALLOC (r + A)))
                     (r + A, mk_block_meta (bsize b - A) STATUS_FREE (bnext b)) =
                   (r, b)).
      { unfold merge. cbn [fst snd bsize bstatus bnext with_status]. f_equal.
        destruct b as [sz st nx]. cbn in *. subst st. f_equal.
        rewrite wrap64_small by lia. lia. }
      rewrite coalesce_list_remerge; rewrite ?Em; auto.
    - simpl app in Hwf1.
      destruct (os_free_alloc_exact _ _ _ _ _ Hwf1 Hr0 eq_refl) as [Hfr Hwf2].
      assert (Eb : with_status STATUS_FREE (with_status STATUS_ALLOC b) = b).
      { destruct b as [sz st nx]. cbn in *. subst st. reflexivity. }
      rewrite Eb in Hwf2, Hfr.
      eexists _, _. split; [exact Hfr|]. split; [exact Hwf2|].
      split; [apply coalesce_list_fixed; exact Hnaf | reflexivity]. }
  destruct Hfree2 as (s2 & l2 & Hfr & Hwf2 & Hl2 & Hbrk2).
  assert (Hfit2 : ∃ x, x ∈ coalesce_list l2 ∧ fits A x.2).
  { exists (r, b). rewrite Hl2. split; [|split; assumption].
    apply elem_of_app. right. left. }
  destruct (alloc_body_reuse (ret MMAP_THRESHOLD) request_space_malloc
              (λ _, ret tt) (λ _, MMAP_THRESHOLD) (λ s, eq_refl)
              zero_quiet_malloc s2 l2 A Hwf2 Hfit2 HA)
    as (r' & s3 & pre' & b' & post' & Hr' & Hl' & Hf' & Hpre' & Hpost' & _ & _).
  rewrite Hl2 in Hl'.
  assert (Er : (r, b) = (r', b')).
  { eapply (best_fit_unique A pre pre' post post'); eauto. split; assumption. }
  inversion Er; subst r' b'.
  exists (r + ALIGN sizeof_block_meta), s1, s2, l2, s3.
  split; [exact Hr|]. split; [change (ALIGN sizeof_block_meta) with 24; lia|].
  split; [exact Hfr|]. split; [exact Hwf2|]. split; [congruence|].
  split; [|rewrite os_malloc_body by lia; exact Hr'].
  destruct Hq as ((Hk1 & _) & _). congruence.
Qed.

Lemma malloc_free_malloc_reuses_block_witness :
  ∃ p s1 s2 l2 s3,
    os_malloc 100 s_two = Ret (p, s1) ∧ p ≠ 0 ∧
    os_free p s1 = Ret (tt, s2) ∧
    wf s2 l2 ∧ coalesce_list l2 = coalesce_list registry_two ∧
    brk s2 = brk s_two ∧
    os_malloc 100 s2 = Ret (p, s3).
Proof.
  apply (malloc_free_malloc_reuses_block s_two registry_two 100 wf_s_two).
  - lia.
  - exists (65664, mk_block_meta 130944 STATUS_FREE 0).
    split; [right; left | split; [reflexivity | vm_compute; discriminate]].
Defined.

(** ** Requests of 2 GiB and more *)

Lemma aligned_size_of_negative (size : Z) :
  0 < size → 2 ^ 31 ≤ HDR + ALIGN size < 2 ^ 32 →
  aligned_size_of size = HDR + ALIGN size - 2 ^ 32.
Proof.
  intros Hs HA. unfold aligned_size_of. rewrite HDR_val in HA.
  change (ALIGN sizeof_block_meta) with 24.
  rewrite wrap64_small by lia. unfold to_int.
  rewrite Z.mod_small by lia.
  destruct (24 + ALIGN size <? 2 ^ 31) eqn:E; [apply Z.ltb_lt in E; lia|].
  rewrite HDR_val. reflexivity.
Qed.

Lemma mmap_branch_refused (s : state) (sz : Z) :
  MMAP_THRESHOLD ≤ sz → map_max s < map_next s + sz →
  request_space_malloc sz s = Abort "mmap".
Proof.
  intros Hsz Hmax. unfold request_space_malloc, MMAP_THRESHOLD in *.
  destruct (sz <? 131072) eqn:E; [apply Z.ltb_lt in E; lia|].
  unfold bind, mmap.
  destruct (map_next s + sz <=? map_max s) eqn:E1; [apply Z.leb_le in E1; lia|].
  rewrite andb_false_r. reflexivity.
Qed.

Lemma os_malloc_negative_int (s : state) (l : list (Z * block_meta)) (size : Z) :
  wf s l → 0 < size → 2 ^ 31 ≤ HDR + ALIGN size < 2 ^ 32 →
  map_max s ≤ 2 ^ 63 → l ≠ [] →
  os_malloc size s = Abort "mmap".
Proof.
  intros Hwf Hs HA Hmax Hne. rewrite os_malloc_body by lia.
  rewrite (aligned_size_of_negative size Hs HA).
  set (A := HDR + ALIGN size - 2 ^ 32).
  assert (HAr : - 2 ^ 31 ≤ A < 0) by (unfold A; lia).
  pose proof (wf_nonempty_base _ _ Hwf Hne) as Hg.
  unfold alloc_body.
  rewrite (no_prealloc (ret MMAP_THRESHOLD) (λ _, MMAP_THRESHOLD) (λ s, eq_refl))
    by (destruct (global_base s =? 0) eqn:E0; [lia | reflexivity]).
  destruct (coalesce_blocks_wf s l Hwf) as (h' & Hco & Hwf2 & _).
  rewrite (bind_Ret _ _ _ _ _ Hco).
  set (lc := coalesce_list l) in *. set (s2 := set_hdr h' s) in *.
  assert (Hw : wrap64 A = 2 ^ 64 + A).
  { unfold wrap64. rewrite <- (Z.mod_add A 1 (2 ^ 64)) by lia.
    rewrite Z.mod_small by lia. lia. }
  destruct (find_best_fit_chain _ _ (wrap64 A) (wf_reg _ _ Hwf2)) as (r & Hf & Hbest).
  rewrite (bind_Ret _ _ _ _ _ Hf). rewrite Hw in Hbest.
  destruct Hwf2 as [Hreg Hgeom Hbrk Hmap Hlim Hpage].
  destruct Hbest as [[-> _] | (_ & pre & b & post & E & [_ Hfit] & _)].
  2: { exfalso. rewrite E in Hgeom.
       eapply (geom_bound _ _ (r, b)) in Hgeom;
         [cbn [fst snd] in Hgeom; lia | lia | apply elem_of_app; right; left]. }
  cbn [Z.eqb negb]. unfold last_addr.
  assert (Hm2 : 0 < map_next s2) by lia.
  assert (Hmax2 : map_max s2 ≤ 2 ^ 63) by exact Hmax.
  destruct (list.last lc) as [[la lb]|] eqn:Elast.
  - cbn [fst]. destruct (last_snoc_inv _ _ Elast) as (lc' & Elc).
    assert (Hin : (la, lb) ∈ lc) by (rewrite Elc; apply elem_of_app; right; left).
    destruct (chain_lookup _ _ _ _ Hreg Hin) as [Hl Hl0].
    cbn [fst snd] in Hl, Hl0.
    pose proof (geom_bound _ _ _ Hgeom ltac:(lia) Hin) as Hb. cbn [fst snd] in Hb.
    destruct (la =? 0) eqn:E0; [lia|].
    rewrite bind_assoc. rewrite (bind_Ret _ _ _ _ _ (load_some _ _ _ Hl)).
    rewrite (bind_Ret _ _ _ _ _
               (eq_refl : ret (is_free lb) s2 = Ret (is_free lb, s2))).
    destruct (is_free lb).
    + rewrite (bind_Ret _ _ _ _ _ (load_some _ _ _ Hl)).
      assert (Hw' : wrap64 (A - bsize lb) = 2 ^ 64 + (A - bsize lb)).
      { unfold wrap64. rewrite <- (Z.mod_add (A - bsize lb) 1 (2 ^ 64)) by lia.
        rewrite Z.mod_small by lia. lia. }
      rewrite Hw'.
      unfold bind at 1. rewrite mmap_branch_refused;
        [reflexivity | unfold MMAP_THRESHOLD; lia | lia].
    + rewrite Hw.
      unfold bind at 1. rewrite mmap_branch_refused;
        [reflexivity | unfold MMAP_THRESHOLD; lia | lia].
  - cbn [Z.eqb].
    rewrite (bind_Ret _ _ _ _ _ (eq_refl : ret false s2 = Ret (false, s2))).
    rewrite Hw.
    unfold bind at 1. rewrite mmap_branch_refused;
        [reflexivity | unfold MMAP_THRESHOLD; lia | lia].
Qed.

(** X18: a request whose aligned total size lies between [2^31] and [2^32]
    is never served.  The [int] that holds the size is negative; read back
    as a [size_t] it exceeds every block, so no block fits, and what is
    then asked of [mmap] is more than [2^63] bytes: with a mapping area that
    ends below [2^63] the process is terminated, with the [mmap] diagnostic,
    or with the [sbrk] diagnostic when the heap could not be preallocated
    first. *)
Theorem os_malloc_of_2_GiB_terminates (s : state) (l : list (Z * block_meta))
    (size : Z) :
  wf s l → 0 < size → 2 ^ 31 ≤ HDR + ALIGN size < 2 ^ 32 →
  map_max s ≤ 2 ^ 63 →
  os_malloc size s = Abort "mmap" ∨
  (l = [] ∧ brk_max s < brk s + MMAP_THRESHOLD ∧
   os_malloc size s = Abort "sbrk").
Proof.
  intros Hwf Hs HA Hmax.
  destruct l as [|x l].
  2: { left. eapply os_malloc_negative_int; eauto; discriminate. }
  pose proof (chain_nil_null (hdr s) _ (wf_reg _ _ Hwf)) as Hg.
  pose proof (first_time_prealloc_exact s (wf_brk _ _ Hwf)) as Hpre.
  pose proof (aligned_size_of_negative size Hs HA) as Ea.
  destruct (brk s + MMAP_THRESHOLD <=? brk_max s) eqn:Er.
  - left. apply Z.leb_le in Er.
    pose proof (wf_after_prealloc s Hwf Er) as Hwf1.
    set (s1 := mk_state _ _ _ _ _ _ _ _ _) in *.
    rewrite os_malloc_body by lia.
    rewrite (alloc_body_prealloc (ret MMAP_THRESHOLD) request_space_malloc
               (λ _, ret tt) (λ _, MMAP_THRESHOLD) (λ s, eq_refl) s s1);
      [|exact Hg | unfold MMAP_THRESHOLD; lia | exact Hpre
       | pose proof (wf_brk _ _ Hwf); simpl; lia | reflexivity].
    rewrite <- os_malloc_body by lia.
    eapply os_malloc_negative_int; eauto; discriminate.
  - right. apply Z.leb_gt in Er. split; [reflexivity|]. split; [lia|].
    rewrite os_malloc_body by lia. unfold alloc_body.
    rewrite (bind_Ret _ _ _ _ _ (eq_refl : get global_base s = Ret (global_base s, s))).
    rewrite (bind_Ret _ _ _ _ _
               (eq_refl : ret MMAP_THRESHOLD s = Ret (MMAP_THRESHOLD, s))).
    rewrite Hg. destruct (aligned_size_of size <? MMAP_THRESHOLD) eqn:E1;
      [|apply Z.ltb_ge in E1; unfold MMAP_THRESHOLD in E1; lia].
    cbn [Z.eqb andb]. unfold bind at 1. rewrite Hpre. reflexivity.
Qed.

Lemma os_malloc_of_2_GiB_terminates_witness :
  os_malloc 3000000000 s_one = Abort "mmap" ∨
  (registry_one = [] ∧ brk_max s_one < brk s_one + MMAP_THRESHOLD ∧
   os_malloc 3000000000 s_one = Abort "sbrk").
Proof.
  apply (os_malloc_of_2_GiB_terminates s_one registry_one 3000000000 wf_s_one).
  - lia.
  - vm_compute. split; [discriminate | reflexivity].
  - vm_compute. discriminate.
Defined.

(** ** [os_realloc] that moves the payload *)

Lemma os_free_trace (ptr : Z) (s s' : state) (u : unit) :
  os_free ptr s = Ret (u, s') → ∃ t, trace s' = t ++ trace s.
Proof.
  unfold os_free. destruct (ptr =? 0).
  { intros H. inversion H; subst. exists []. reflexivity. }
  intros H. apply bind_ret_inv in H as (b & s1 & Hl & H).
  assert (s1 = s) as ->.
  { unfold load, lift in Hl. destruct (hload _ _); inversion Hl. reflexivity. }
  destruct (status_eqb (bstatus b) STATUS_ALLOC).
  - unfold set_status in H. apply bind_ret_inv in H as (b' & s1 & Hl' & H).
    assert (s1 = s) as ->.
    { unfold load, lift in Hl'. destruct (hload _ _); inversion Hl'. reflexivity. }
    inversion H; subst. exists []. reflexivity.
  - apply bind_ret_inv in H as (r & s1 & Hm & H).
    unfold munmap in Hm. unfold DIE in H.
    destruct ((bsize b =? 0) || negb (get_block_ptr ptr mod page_size s =? 0));
      inversion Hm; subst; destruct (_ =? -1); inversion H; subst;
      exists [EvMunmap (get_block_ptr ptr) (bsize b)]; reflexivity.
Qed.

Lemma realloc_move_tail (A np p q : Z) (s1 s' : state) :
  holds A np s1 →
  (let new_block := get_block_ptr np in
   if np =? 0 then ret 0
   else
     let* nb := load new_block in
     memcpy np p (wrap64 (bsize nb - ALIGN sizeof_block_meta));;
     os_free p;;
     ret np) s1 = Ret (q, s') →
  q ≠ 0 ∧ ∃ n, EvMemcpy q p n ∈ trace s' ∧ A - HDR ≤ n.
Proof.
  intros (nb & Hnp & Hlk & _ & Hsz) Hr. cbv zeta in Hr.
  destruct (np =? 0) eqn:E; [lia|].
  rewrite (bind_Ret _ _ _ _ _ (load_some _ _ _ Hlk)) in Hr.
  apply bind_ret_inv in Hr as (u & s2 & Hcp & Hr).
  apply bind_ret_inv in Hr as (u' & s3 & Hfr & Hr).
  inversion Hr; subst q s3. split; [exact Hnp|].
  inversion Hcp; subst u s2. clear Hcp.
  destruct (os_free_trace _ _ _ _ Hfr) as (t & Ht).
  exists (wrap64 (bsize nb - ALIGN sizeof_block_meta)). split.
  - rewrite Ht. apply elem_of_app. right. left.
  - change (ALIGN sizeof_block_meta) with 24. rewrite HDR_val.
    destruct (Z_lt_le_dec (bsize nb) 24) as [Hlt|Hge].
    + unfold wrap64. pose proof (Z.mod_pos_bound (bsize nb - 24) (2 ^ 64) ltac:(lia)).
      lia.
    + rewrite wrap64_small by lia. lia.
Qed.

Lemma os_malloc_holds (s : state) (l : list (Z * block_meta)) (size : Z) :
  wf s l → 0 < size ≤ 2 ^ 31 - 32 →
  ok_or_abort (os_malloc size s) (holds (HDR + ALIGN size)).
Proof.
  intros Hwf Hs. rewrite os_malloc_body by lia.
  destruct (aligned_size_of_small size ltac:(lia)) as [E HA]. rewrite <- E.
  apply (alloc_body_holds (ret MMAP_THRESHOLD) request_space_malloc
           (λ _, ret tt) (λ _, MMAP_THRESHOLD) (λ s, eq_refl)
           zero_quiet_malloc (λ _ _ _, eq_refl) req_spec_malloc
           s l _ Hwf HA).
Qed.

Lemma os_malloc_ret_holds (s s1 : state) (l : list (Z * block_meta))
    (size np : Z) :
  wf s l → 0 < size ≤ 2 ^ 31 - 32 → os_malloc size s = Ret (np, s1) →
  holds (HDR + ALIGN size) np s1.
Proof.
  intros Hwf Hs Hr.
  destruct (os_malloc_holds s l size Hwf Hs) as [[msg Hm] | (v & s2 & Hm & Hh)].
  - rewrite Hm in Hr. discriminate.
  - rewrite Hm in Hr. inversion Hr; subst. exact Hh.
Qed.

(** X19: when [os_realloc] of a MAPPED block returns, for a new aligned
    total size other than the size of the block, the result is not null and
    a [memcpy] from the old payload to the returned pointer was made; its
    length, taken from the size of the new block, is never less than the
    aligned request: when the block grows, more bytes are read than the old
    payload holds. *)
Theorem os_realloc_of_mapped_block_copies_new_payload (s s' : state)
    (l : list (Z * block_meta)) (a size q : Z) (b : block_meta) :
  wf s l → 0 < a → hdr s !! a = Some b → bstatus b = STATUS_MAPPED →
  0 < size ≤ 2 ^ 31 - 32 → bsize b ≠ ALIGN size + HDR →
  os_realloc (a + HDR) size s = Ret (q, s') →
  q ≠ 0 ∧
  ∃ n, EvMemcpy q (a + HDR) n ∈ trace s' ∧ ALIGN size ≤ n ∧
       (bsize b < ALIGN size + HDR → bsize b - HDR < n).
Proof.
  intros Hwf Ha Hl Hst Hs Hne Hr.
  pose proof (ALIGN_small size ltac:(lia)) as Hal.
  unfold os_realloc in Hr. rewrite HDR_val in *.
  change (ALIGN sizeof_block_meta) with 24 in Hr.
  rewrite !wrap64_small in Hr by lia.
  destruct (a + 24 =? 0) eqn:E1; [lia|].
  destruct (size =? 0) eqn:E2; [lia|].
  unfold get_block_ptr at 1 in Hr. change (ALIGN sizeof_block_meta) with 24 in Hr.
  replace (a + 24 - 24) with a in Hr by lia.
  rewrite (bind_Ret _ _ _ _ _ (load_some _ _ _ Hl)) in Hr.
  rewrite Hst in Hr. cbn [status_eqb] in Hr.
  destruct (bsize b =? ALIGN size + 24) eqn:E3; [lia|].
  apply bind_ret_inv in Hr as (np & s1 & Hm & Hr).
  pose proof (os_malloc_ret_holds s s1 l size np Hwf Hs Hm) as Hh.
  destruct (realloc_move_tail _ np (a + 24) q s1 s' Hh Hr) as (Hq & n & Hin & Hn).
  rewrite HDR_val in Hn.
  split; [exact Hq|]. exists n. split; [exact Hin|]. split; lia.
Qed.

Lemma os_realloc_of_mapped_block_copies_new_payload_witness :
  268636184 ≠ 0 ∧
  ∃ n, EvMemcpy 268636184 (268435456 + HDR) n ∈
         trace (run_state (os_realloc (268435456 + HDR) 300000) s_mapped) ∧
       ALIGN 300000 ≤ n ∧
       (bsize (mk_block_meta 200024 STATUS_MAPPED 0) < ALIGN 300000 + HDR →
        bsize (mk_block_meta 200024 STATUS_MAPPED 0) - HDR < n).
Proof.
  apply (os_realloc_of_mapped_block_copies_new_payload s_mapped _ [] 268435456
           300000 268636184 (mk_block_meta 200024 STATUS_MAPPED 0) wf_s_mapped).
  - lia.
  - vm_compute. reflexivity.
  - reflexivity.
  - lia.
  - vm_compute. discriminate.
  - apply run_state_spec. vm_compute. reflexivity.
Defined.

Lemma absorb_size_le top x post :
  0 < top ≤ 2 ^ 64 → geom top (x :: post) →
  bsize x.2 ≤ bsize (absorb x post).1.2.
Proof.
  intros Ht. revert x. induction post as [|y post IH]; intros x Hg;
    cbn [absorb]; [cbn [fst snd]; lia|].
  destruct (is_free y.2); [|cbn [fst snd]; lia].
  specialize (IH (merge x y) (geom_merge _ _ _ _ Hg Ht)).
  destruct Hg as (G1 & G2 & G3 & G4 & G5 & G6 & G7). simpl in G3.
  pose proof (geom_next_le _ _ G7 ltac:(lia)).
  unfold merge in IH at 1. cbn [fst snd bsize] in IH.
  rewrite wrap64_small in IH by lia. lia.
Qed.

(** X20: when [os_realloc] of an ALLOC registry block returns although the
    block, after coalescing and taking over the FREE blocks that follow it,
    does not reach the new aligned total size, the result is not null and a
    [memcpy] from the old payload to the returned pointer was made; its
    length, taken from the size of the new block, is at least the aligned
    request, and so more than the payload of the old block, even grown,
    holds. *)
Theorem os_realloc_move_copies_new_payload (s s' : state)
    (pre post : list (Z * block_meta)) (a size q : Z) (b : block_meta) :
  wf s (pre ++ (a, b) :: post) → bstatus b = STATUS_ALLOC →
  0 < size ≤ 2 ^ 31 - 32 →
  bsize (absorb (a, b) (coalesce_list post)).1.2 < ALIGN size + HDR →
  os_realloc (a + HDR) size s = Ret (q, s') →
  q ≠ 0 ∧
  ∃ n, EvMemcpy q (a + HDR) n ∈ trace s' ∧ ALIGN size ≤ n ∧
       bsize b - HDR ≤ bsize (absorb (a, b) (coalesce_list post)).1.2 - HDR ∧
       bsize (absorb (a, b) (coalesce_list post)).1.2 - HDR < n.
Proof.
  intros Hwf Hst Hs Hshort Hr.
  pose proof (wf_block_bounds _ _ _ _ _ Hwf) as Hb.
  pose proof (lseg_parts _ _ _ _ _ _ (wf_reg _ _ Hwf)) as (Hl & _).
  pose proof (ALIGN_small size ltac:(lia)) as Hal.
  destruct (coalesce_blocks_wf s _ Hwf) as (h1 & Hco & Hwf1 & _).
  assert (Hnf : is_free (a, b).2 = false).
  { unfold is_free. simpl. rewrite Hst. reflexivity. }
  rewrite (coalesce_list_app_used pre (a, b) post Hnf) in Hwf1.
  assert (Hle : bsize b ≤ bsize (absorb (a, b) (coalesce_list post)).1.2).
  { destruct Hwf1 as [_ Hgeom Hbrk _ Hlim _].
    apply geom_app in Hgeom as [_ Hg2].
    apply (absorb_size_le (brk (set_hdr h1 s)) (a, b)); [lia | exact Hg2]. }
  rewrite (os_realloc_alloc_block s a size b) in Hr by (auto; lia).
  rewrite HDR_val, MIN_BLOCK_val in *.
  destruct (ALIGN size + 24 <=? bsize b) eqn:E; [apply Z.leb_le in E; lia|].
  rewrite (bind_Ret _ _ _ _ _ (eq_refl : ret false s = Ret (false, s))) in Hr.
  rewrite (bind_Ret _ _ _ _ _ Hco) in Hr.
  destruct (realloc_expand_wf _ _ _ a b (ALIGN size + 24) Hwf1)
    as (h2 & Hex & Hwf2 & _).
  rewrite (bind_Ret _ _ _ _ _ Hex) in Hr.
  destruct (ALIGN size + 24 <=? bsize (absorb (a, b) (coalesce_list post)).1.2)
    eqn:E'; [apply Z.leb_le in E'; lia|].
  cbn [Z.eqb negb] in Hr.
  apply bind_ret_inv in Hr as (np & s1 & Hm & Hr).
  pose proof (os_malloc_ret_holds _ s1 _ size np Hwf2 Hs Hm) as Hh.
  destruct (realloc_move_tail _ np (a + 24) q s1 s' Hh Hr) as (Hq & n & Hin & Hn).
  rewrite HDR_val in Hn.
  split; [exact Hq|]. exists n. split; [exact Hin|]. lia.
Qed.

Lemma os_realloc_move_copies_new_payload_witness :
  65816 ≠ 0 ∧
  ∃ n, EvMemcpy 65816 (65536 + HDR) n ∈
         trace (run_state (os_realloc (65536 + HDR) 200) s_pair) ∧
       ALIGN 200 ≤ n ∧
       bsize (mk_block_meta 128 STATUS_ALLOC 65664) - HDR ≤
       bsize (absorb (65536, mk_block_meta 128 STATUS_ALLOC 65664)
                (coalesce_list
                   [(65664, mk_block_meta 128 STATUS_ALLOC 65792);
                    (65792, mk_block_meta 130816 STATUS_FREE 0)])).1.2 - HDR ∧
       bsize (absorb (65536, mk_block_meta 128 STATUS_ALLOC 65664)
                (coalesce_list
                   [(65664, mk_block_meta 128 STATUS_ALLOC 65792);
                    (65792, mk_block_meta 130816 STATUS_FREE 0)])).1.2 - HDR < n.
Proof.
  apply (os_realloc_move_copies_new_payload s_pair _ []
           [(65664, mk_block_meta 128 STATUS_ALLOC 65792);
            (65792, mk_block_meta 130816 STATUS_FREE 0)]
           65536 200 65816 (mk_block_meta 128 STATUS_ALLOC 65664)
           wf_s_pair).
  - reflexivity.
  - lia.
  - vm_compute. reflexivity.
  - apply run_state_spec. vm_compute. reflexivity.
Defined.

(** ** Alignment of the pointers returned *)

Lemma state_inv_s_one : state_inv s_one.
Proof.
  unfold s_one.
  assert (H : os_malloc 100 s0 = Ret (65560, run_state (os_malloc 100) s0)).
  { apply run_state_spec. vm_compute. reflexivity. }
  exact (proj1 (inv_os_malloc 100 s0 65560 _ state_inv_s0 H)).
Qed.

(** X21: on a well-formed registry whose header addresses, block sizes,
    links, break and mapping cursor are multiples of 8, every pointer that
    [os_malloc], [os_calloc] or [os_realloc] (of an ALLOC block of the
    registry, or of a MAPPED block) returns for a request with an aligned
    total size below [2^31] is a multiple of 8, not null for the two
    allocating calls, and the state keeps these multiples of 8. *)
Theorem in_range_calls_return_aligned_pointers (s : state)
    (l : list (Z * block_meta)) :
  state_inv s → wf s l →
  (∀ size p s', 0 < size ≤ 2 ^ 31 - 32 →
     os_malloc size s = Ret (p, s') →
     p ≠ 0 ∧ p mod ALIGNMENT = 0 ∧ state_inv s') ∧
  (∀ nmemb size p s', nmemb ≠ 0 → size ≠ 0 →
     wrap64 (size * nmemb) ≤ 2 ^ 31 - 32 →
     os_calloc nmemb size s = Ret (p, s') →
     p ≠ 0 ∧ p mod ALIGNMENT = 0 ∧ state_inv s') ∧
  (∀ a b size p s',
     hdr s !! a = Some b →
     ((a, b) ∈ l ∧ bstatus b = STATUS_ALLOC) ∨ bstatus b = STATUS_MAPPED →
     0 < size ≤ 2 ^ 31 - 32 →
     os_realloc (a + HDR) size s = Ret (p, s') →
     p mod ALIGNMENT = 0 ∧ state_inv s').
Proof.
  intros Hs Hwf. split; [|split].
  - intros size p s' Hsz Hr.
    destruct (inv_os_malloc size s p s' Hs Hr) as [Hs' [[_ Hp] Hnz]].
    split; [apply Hnz; lia|]. split; [exact Hp | exact Hs'].
  - intros nmemb size p s' Hk Hn Hsz Hr.
    destruct (inv_os_calloc nmemb size s p s' Hs Hr) as [Hs' [[_ Hp] Hnz]].
    split; [apply Hnz; assumption|]. split; [exact Hp | exact Hs'].
  - intros a b size p s' Hl Hb Hsz Hr.
    destruct (inv_os_realloc (a + HDR) size s p s' Hs Hr) as [Hs' [_ Hp]].
    split; [exact Hp | exact Hs'].
Qed.

Lemma in_range_calls_return_aligned_pointers_witness :
  (65688 ≠ 0 ∧ 65688 mod ALIGNMENT = 0 ∧
   state_inv (run_state (os_malloc 100) s_one)) ∧
  (65688 ≠ 0 ∧ 65688 mod ALIGNMENT = 0 ∧
   state_inv (run_state (os_calloc 3 7) s_one)) ∧
  (65560 mod ALIGNMENT = 0 ∧
   state_inv (run_state (os_realloc (65536 + HDR) 200) s_one)).
Proof.
  destruct (in_range_calls_return_aligned_pointers s_one registry_one
              state_inv_s_one wf_s_one) as (Hm & Hc & Hr).
  split; [|split].
  - apply (Hm 100 65688); [lia|]. apply run_state_spec. vm_compute. reflexivity.
  - apply (Hc 3 7 65688); [lia | lia | vm_compute; discriminate |].
    apply run_state_spec. vm_compute. reflexivity.
  - apply (Hr 65536 (mk_block_meta 128 STATUS_ALLOC 65664) 200 65560).
    + vm_compute. reflexivity.
    + left. split; [|reflexivity]. unfold registry_one. constructor.
    + lia.
    + apply run_state_spec. vm_compute. reflexivity.
Defined.
